(** * The replication driver of zrepl (cmd/replication.v2/plan.go)

    A shallow embedding of the two-level replication state machine:
    the step executor [FSReplicationStep.do], the per-filesystem machine
    [FSReplication.doDrive] / [FSReplication.drive], and the overall
    machine [rsfPlanning], [rsfPlanningError], [rsfWorking],
    [rsfWorkingWait] run by [Replication.Drive].

    Conventions of the embedding.
    - Go's [int]/[uint] state words are [Z]; the masks are the values of
      [1 << iota] and are combined with [Z.land] / [Z.lor] as in the code.
    - A pointer that the code may find nil is an [option].  Every struct is
      referenced from exactly one slot at a time (a step sits in [pending],
      in [active] or in [completed] of its filesystem; a queue item likewise
      in the replication), so structs are passed by value and written back
      into the slot they were taken from.
    - The endpoints are external: they are functions on an abstract endpoint
      state [W].  Every call is recorded in a log so that statements about
      which requests were issued, and whether any call was made at all, can
      be written down.
    - A Go panic (explicit, nil dereference, index out of range) is the
      result [Panic]; loops carry fuel and [OutOfFuel] is the result of an
      exhausted budget.
    - The mutexes only serialise the driver with read-only status reporters;
      the driver is a single sequential task, so they are not modelled.
      Logging is omitted. *)

From Stdlib Require Import ZArith List String Bool Lia Permutation Sorted.
Import ListNotations.
Open Scope string_scope.
Open Scope list_scope.
Open Scope Z_scope.

Set Implicit Arguments.

(** ** Results of fallible computations *)

Inductive Res (A : Type) : Type :=
| Ok (a : A)
| Panic
| OutOfFuel.

Arguments Ok {A} a.
Arguments Panic {A}.
Arguments OutOfFuel {A}.

Definition bindR {A B : Type} (c : Res A) (k : A -> Res B) : Res B :=
  match c with
  | Ok a => k a
  | Panic => Panic
  | OutOfFuel => OutOfFuel
  end.

Notation "x <- c ;; k" := (bindR c (fun x => k))
  (at level 61, c at next level, right associativity).
Notation "' pat <- c ;; k" := (bindR c (fun x => match x with pat => k end))
  (at level 61, pat pattern, c at next level, right associativity).

(** ** Errors

    A Go [error] is an interface value.  The code distinguishes errors in
    three ways only: identity with one of the [io] sentinels
    ([switch err]), membership of the dynamic type in [net.Error]
    and membership in [FilteredError] (type assertions).  Every other
    error is a [dynError] carrying the two membership bits and its message. *)

Inductive error : Type :=
| io_EOF
| io_ErrUnexpectedEOF
| io_ErrClosedPipe
| dynError (isNetError isFilteredError : bool) (msg : string).

Definition errors_New (msg : string) : error := dynError false false msg.

(** [_, ok := err.(net.Error)] *)
Definition is_net_Error (e : error) : bool :=
  match e with
  | dynError n _ _ => n
  | _ => false
  end.

(** [_, ok := err.(FilteredError)] *)
Definition is_FilteredError (e : error) : bool :=
  match e with
  | dynError _ f _ => f
  | _ => false
  end.

(** ** State words *)

Definition ReplicationState := Z.

Definition Planning : ReplicationState := Eval cbv in Z.shiftl 1 0.
Definition PlanningError : ReplicationState := Eval cbv in Z.shiftl 1 1.
Definition Working : ReplicationState := Eval cbv in Z.shiftl 1 2.
Definition WorkingWait : ReplicationState := Eval cbv in Z.shiftl 1 3.
Definition Completed : ReplicationState := Eval cbv in Z.shiftl 1 4.
Definition ContextDone : ReplicationState := Eval cbv in Z.shiftl 1 5.

Definition FSReplicationState := Z.

Definition FSQueued : FSReplicationState := Eval cbv in Z.shiftl 1 0.
Definition FSActive : FSReplicationState := Eval cbv in Z.shiftl 1 1.
Definition FSRetryWait : FSReplicationState := Eval cbv in Z.shiftl 1 2.
Definition FSPermanentError : FSReplicationState := Eval cbv in Z.shiftl 1 3.
Definition FSCompleted : FSReplicationState := Eval cbv in Z.shiftl 1 4.

Inductive FSReplicationStepState : Type :=
| StepPending
| StepRetry
| StepPermanentError
| StepCompleted.

(** ** Data *)

(** Modelled from the spec: [FilesystemVersion] is declared outside the
    driver; it supplies a relative name (the string used on the wire) and a
    creation timestamp.  [CreationAsTime] is the pair [(time, err)] of the
    accessor, [None] when [err] is non-nil.  Instants are nanoseconds. *)
Record FilesystemVersion : Type := {
  RelName : string;
  CreationAsTime : option Z
}.

Record Filesystem : Type := {
  Path : string;
  ResumeToken : string
}.

(** [from] may be nil (full send); [to] is the version every planned step
    names.  The back pointer [fsrep] is the filesystem the step sits in and
    is passed along explicitly. *)
Record FSReplicationStep : Type := {
  step_state : FSReplicationStepState;
  step_from : option FilesystemVersion;
  step_to : FilesystemVersion;
  step_err : option error
}.

Record FSReplication : Type := {
  fsr_state : FSReplicationState;
  fsr_fs : Filesystem;
  fsr_permanentError : option error;
  fsr_completed : list FSReplicationStep;
  fsr_pending : list FSReplicationStep;
  fsr_active : option FSReplicationStep
}.

(** [retriesSinceLastError] is a Go [int]: 64 bits, two's complement. *)
Definition wrap_int (x : Z) : Z := (x + 2 ^ 63) mod 2 ^ 64 - 2 ^ 63.

Record replicationQueueItem : Type := {
  retriesSinceLastError : Z;
  fsr : FSReplication
}.

Record Replication : Type := {
  r_state : ReplicationState;
  r_pending : list replicationQueueItem;
  r_completed : list replicationQueueItem;
  r_active : option replicationQueueItem;
  r_planningError : option error;
  r_contextError : option error;
  r_sleepUntil : Z
}.

(** ** Requests *)

Record SendReq : Type := {
  sr_Filesystem : string;
  sr_From : string;
  sr_To : string;
  sr_ResumeToken : string
}.

Record SendRes : Type := {
  UsedResumeToken : bool
}.

Record ReceiveReq : Type := {
  rr_Filesystem : string;
  rr_ClearResumeToken : bool
}.

Inductive EPCall : Type :=
| CallSenderListFilesystems
| CallReceiverListFilesystems
| CallSenderListFilesystemVersions (path : string)
| CallReceiverListFilesystemVersions (path : string)
| CallSend (sr : SendReq)
| CallReceive (rr : ReceiveReq)
| CallStreamClose.

(** ** Time and cancellation

    [time.Second] in nanoseconds.  A context is the instant at which its
    [Done] channel is closed together with the value [Err] returns from then
    on, or [None] for a context that is never done.  [selectPick] is the
    choice [select] makes when the context and the timer are ready at the
    very same instant ([true]: the context case). *)

Definition time_Second : Z := 1000000000.

Record Context : Type := {
  ctx_done : option (Z * error);
  selectPick : bool
}.

(** A [chan struct{}] seen from the receiving side: the instants at which a
    sender offers a value. *)
Definition Chan := list Z.

(** ** The endpoint pair

    [W] is the state of the world behind the two endpoints and [Stream] the
    type of the send stream.  A Go result pair [(v, err)] whose value is
    only read when [err] is nil is a sum; [Send] returns three components
    that the code inspects one by one, so they are kept apart. *)

Record EndpointPair (W Stream : Type) : Type := {
  Sender_ListFilesystems : W -> (list Filesystem + error) * W;
  Sender_ListFilesystemVersions :
    W -> string -> (list FilesystemVersion + error) * W;
  Sender_Send :
    W -> SendReq -> (option SendRes * option Stream * option error) * W;
  Receiver_ListFilesystems : W -> (list Filesystem + error) * W;
  Receiver_ListFilesystemVersions :
    W -> string -> (list FilesystemVersion + error) * W;
  Receiver_Receive : W -> ReceiveReq -> Stream -> option error * W;
  Stream_Close : W -> Stream -> W
}.

Record World (W : Type) : Type := {
  w_ep : W;
  w_now : Z;
  w_calls : list EPCall
}.

(** The state functions as values: what [ReplicationState.rsf] returns. *)
Inductive replicationStateFunc : Type :=
| fn_rsfPlanning
| fn_rsfPlanningError
| fn_rsfWorking
| fn_rsfWorkingWait.

(** [bits.TrailingZeros(uint(s))] with [bits.UintSize = 64]. *)
Definition bits_UintSize : Z := 64.

Fixpoint trailing_from (n : nat) (i : Z) (x : Z) : Z :=
  match n with
  | O => i
  | S n' => if Z.testbit x i then i else trailing_from n' (i + 1) x
  end.

Definition bits_TrailingZeros (s : Z) : Z :=
  trailing_from 64 0 (s mod 2 ^ 64).

Definition rsf (s : ReplicationState) : Res (option replicationStateFunc) :=
  let idx := bits_TrailingZeros s in
  if idx =? bits_UintSize then Panic
  else
    let m := [Some fn_rsfPlanning; Some fn_rsfPlanningError;
              Some fn_rsfWorking; Some fn_rsfWorkingWait; None; None] in
    match nth_error m (Z.to_nat idx) with
    | Some f => Ok f
    | None => Panic
    end.

(** ** Field updates *)

Definition step_set (st : FSReplicationStepState) (e : option error)
    (s : FSReplicationStep) : FSReplicationStep :=
  {| step_state := st; step_from := step_from s; step_to := step_to s;
     step_err := e |}.

Definition fs_set_ResumeToken (tok : string) (fs : Filesystem) : Filesystem :=
  {| Path := Path fs; ResumeToken := tok |}.

Definition fsr_set_state (st : FSReplicationState) (f : FSReplication)
    : FSReplication :=
  {| fsr_state := st; fsr_fs := fsr_fs f;
     fsr_permanentError := fsr_permanentError f;
     fsr_completed := fsr_completed f; fsr_pending := fsr_pending f;
     fsr_active := fsr_active f |}.

Definition fsr_set_fs (fs : Filesystem) (f : FSReplication) : FSReplication :=
  {| fsr_state := fsr_state f; fsr_fs := fs;
     fsr_permanentError := fsr_permanentError f;
     fsr_completed := fsr_completed f; fsr_pending := fsr_pending f;
     fsr_active := fsr_active f |}.

Definition fsr_set_queues (c p : list FSReplicationStep)
    (a : option FSReplicationStep) (f : FSReplication) : FSReplication :=
  {| fsr_state := fsr_state f; fsr_fs := fsr_fs f;
     fsr_permanentError := fsr_permanentError f;
     fsr_completed := c; fsr_pending := p; fsr_active := a |}.

Definition r_set_state (st : ReplicationState) (r : Replication) : Replication :=
  {| r_state := st; r_pending := r_pending r; r_completed := r_completed r;
     r_active := r_active r; r_planningError := r_planningError r;
     r_contextError := r_contextError r; r_sleepUntil := r_sleepUntil r |}.

Definition r_set_queues (p c : list replicationQueueItem)
    (a : option replicationQueueItem) (r : Replication) : Replication :=
  {| r_state := r_state r; r_pending := p; r_completed := c;
     r_active := a; r_planningError := r_planningError r;
     r_contextError := r_contextError r; r_sleepUntil := r_sleepUntil r |}.

Definition r_set_planningError (e : option error) (r : Replication)
    : Replication :=
  {| r_state := r_state r; r_pending := r_pending r;
     r_completed := r_completed r; r_active := r_active r;
     r_planningError := e; r_contextError := r_contextError r;
     r_sleepUntil := r_sleepUntil r |}.

Definition r_set_contextError (e : option error) (r : Replication)
    : Replication :=
  {| r_state := r_state r; r_pending := r_pending r;
     r_completed := r_completed r; r_active := r_active r;
     r_planningError := r_planningError r; r_contextError := e;
     r_sleepUntil := r_sleepUntil r |}.

Definition r_set_sleepUntil (t : Z) (r : Replication) : Replication :=
  {| r_state := r_state r; r_pending := r_pending r;
     r_completed := r_completed r; r_active := r_active r;
     r_planningError := r_planningError r;
     r_contextError := r_contextError r; r_sleepUntil := t |}.

(** ** Builders used by planning *)

Definition newReplicationQueueItemPermanentError (fs : Filesystem)
    (err : option error) : replicationQueueItem :=
  {| retriesSinceLastError := 0;
     fsr := {| fsr_state := FSPermanentError; fsr_fs := fs;
               fsr_permanentError := err; fsr_completed := [];
               fsr_pending := []; fsr_active := None |} |}.

(** The builder is the [FSReplication] under construction; its [state] is
    the zero value until [Complete]. *)
Definition buildNewFSReplication (fs : Filesystem) : FSReplication :=
  {| fsr_state := 0; fsr_fs := fs; fsr_permanentError := None;
     fsr_completed := []; fsr_pending := []; fsr_active := None |}.

Definition AddStep (b : FSReplication) (from : option FilesystemVersion)
    (to : FilesystemVersion) : FSReplication :=
  let step := {| step_state := StepPending; step_from := from;
                 step_to := to; step_err := None |} in
  fsr_set_queues (fsr_completed b) (fsr_pending b ++ [step]) (fsr_active b) b.

Definition Complete (b : FSReplication) : replicationQueueItem :=
  let r := if (0 <? Z.of_nat (List.length (fsr_pending b)))
           then fsr_set_state FSQueued b
           else fsr_set_state FSCompleted b in
  {| retriesSinceLastError := 0; fsr := r |}.

(** [for i := 0; i < len(path)-1; i++ { builder.AddStep(path[i], path[i+1]) }] *)
Fixpoint addIncrementalSteps (b : FSReplication) (path : list FilesystemVersion)
    : FSReplication :=
  match path with
  | v :: ((v' :: _) as rest) => addIncrementalSteps (AddStep b (Some v) v') rest
  | _ => b
  end.

(** ** The step executor: the two state updates and the request *)

Definition updateStateError (s : FSReplicationStep) (err : error)
    : FSReplicationStepState * FSReplicationStep :=
  match err with
  | io_EOF | io_ErrUnexpectedEOF | io_ErrClosedPipe =>
      (StepRetry, step_set StepRetry (Some err) s)
  | _ =>
      if is_net_Error err
      then (StepRetry, step_set StepRetry (Some err) s)
      else (StepPermanentError, step_set StepPermanentError (Some err) s)
  end.

Definition updateStateCompleted (s : FSReplicationStep)
    : FSReplicationStepState * FSReplicationStep :=
  (StepCompleted, step_set StepCompleted None s).

(** The error [do] makes up when [Send] hands back no stream. *)
Definition err_no_stream : error :=
  errors_New
    "send request did not return a stream, broken endpoint implementation".

(** The [if / else if / else] that builds [sr], applied to the filesystem as
    it is at that point of [do]. *)
Definition mkSendReq (fs : Filesystem) (s : FSReplicationStep) : SendReq :=
  if negb (String.eqb (ResumeToken fs) "") then
    {| sr_Filesystem := Path fs; sr_From := ""; sr_To := "";
       sr_ResumeToken := ResumeToken fs |}
  else
    match step_from s with
    | None =>
        {| sr_Filesystem := Path fs; sr_From := RelName (step_to s);
           sr_To := ""; sr_ResumeToken := "" |}
    | Some from =>
        {| sr_Filesystem := Path fs; sr_From := RelName from;
           sr_To := RelName (step_to s); sr_ResumeToken := "" |}
    end.

(** ** Waiting: [select] over [ctx.Done()] and a timer *)

Inductive Wake : Type :=
| WakeCtxDone (at_ : Z) (err : error)
| WakeTimer (at_ : Z).

Definition select_ctx_timer (ctx : Context) (now d : Z) : Wake :=
  match ctx_done ctx with
  | None => WakeTimer (now + d)
  | Some (t, e) =>
      if t <? now + d then WakeCtxDone (Z.max now t) e
      else if t =? now + d then
        (if selectPick ctx then WakeCtxDone t e else WakeTimer (now + d))
      else WakeTimer (now + d)
  end.

(** ** The machine over an endpoint pair *)

Section Machine.

Variables W Stream : Type.
Variable ep : EndpointPair W Stream.

(** Collaborators of the driver that live in other files of the package:
    [IncrementalPath(receiver, sender)] returns a path (nil or not) and a
    conflict, [resolveConflict] a path and a message.  [sort.Slice] is the
    standard library's sort, called with the comparison closure. *)
Variable IncrementalPath :
  list FilesystemVersion -> list FilesystemVersion ->
  option (list FilesystemVersion) * option error.
Variable resolveConflict : error -> option (list FilesystemVersion) * string.
Variable sort_Slice :
  (replicationQueueItem -> replicationQueueItem -> Res bool) ->
  list replicationQueueItem -> Res (list replicationQueueItem).

Definition logged (c : EPCall) (e : W) (w : World W) : World W :=
  {| w_ep := e; w_now := w_now w; w_calls := w_calls w ++ [c] |}.

Definition at_time (t : Z) (w : World W) : World W :=
  {| w_ep := w_ep w; w_now := t; w_calls := w_calls w |}.

Definition call_Sender_ListFilesystems (w : World W) :=
  let '(v, e) := Sender_ListFilesystems ep (w_ep w) in
  (v, logged CallSenderListFilesystems e w).

Definition call_Receiver_ListFilesystems (w : World W) :=
  let '(v, e) := Receiver_ListFilesystems ep (w_ep w) in
  (v, logged CallReceiverListFilesystems e w).

Definition call_Sender_ListFilesystemVersions (path : string) (w : World W) :=
  let '(v, e) := Sender_ListFilesystemVersions ep (w_ep w) path in
  (v, logged (CallSenderListFilesystemVersions path) e w).

Definition call_Receiver_ListFilesystemVersions (path : string) (w : World W) :=
  let '(v, e) := Receiver_ListFilesystemVersions ep (w_ep w) path in
  (v, logged (CallReceiverListFilesystemVersions path) e w).

Definition call_Send (sr : SendReq) (w : World W) :=
  let '(v, e) := Sender_Send ep (w_ep w) sr in
  (v, logged (CallSend sr) e w).

Definition call_Receive (rr : ReceiveReq) (st : Stream) (w : World W) :=
  let '(v, e) := Receiver_Receive ep (w_ep w) rr st in
  (v, logged (CallReceive rr) e w).

Definition call_Close (st : Stream) (w : World W) : World W :=
  logged CallStreamClose (Stream_Close ep (w_ep w) st) w.

(** *** [FSReplicationStep.do]

    Returns the step state together with the step and the filesystem as the
    call leaves them.  [sres] is dereferenced for [UsedResumeToken]; a nil
    [sres] next to a stream is a nil dereference. *)
Definition FSReplicationStep_do (s : FSReplicationStep) (fs0 : Filesystem)
    (w : World W)
    : Res (FSReplicationStepState * FSReplicationStep * Filesystem * World W) :=
  let fs := fs_set_ResumeToken "" fs0 in
  let sr := mkSendReq fs s in
  let '((sres, sstream, err), w1) := call_Send sr w in
  match err with
  | Some e =>
      let '(st, s') := updateStateError s e in Ok (st, s', fs, w1)
  | None =>
      match sstream with
      | None =>
          let '(st, s') := updateStateError s err_no_stream in
          Ok (st, s', fs, w1)
      | Some stream =>
          match sres with
          | None => Panic
          | Some res =>
              let rr := {| rr_Filesystem := Path fs;
                           rr_ClearResumeToken := negb (UsedResumeToken res) |} in
              let '(rerr, w2) := call_Receive rr stream w1 in
              match rerr with
              | Some e =>
                  let w3 := call_Close stream w2 in
                  let '(st, s') := updateStateError s e in Ok (st, s', fs, w3)
              | None =>
                  let '(st, s') := updateStateCompleted s in Ok (st, s', fs, w2)
              end
          end
      end
  end.

(** *** [FSReplication.doDrive]

    [doDrive_commit] is the [switch stepState] that applies the outcome of
    the step to the filesystem once the lock is held again; [a'] and [fs']
    are the active step and the filesystem as [do] left them. *)
Definition doDrive_commit (f : FSReplication)
    (stepState : FSReplicationStepState) (a' : FSReplicationStep)
    (fs' : Filesystem) : FSReplication :=
  let f1 := fsr_set_queues (fsr_completed f) (fsr_pending f) (Some a')
              (fsr_set_fs fs' f) in
  match stepState with
  | StepCompleted =>
      let f' := fsr_set_queues (fsr_completed f1 ++ [a'])
                  (fsr_pending f1) None f1 in
      if 0 <? Z.of_nat (List.length (fsr_pending f'))
      then fsr_set_state FSQueued f'
      else fsr_set_state FSCompleted f'
  | StepRetry => fsr_set_state FSRetryWait f1
  | StepPermanentError => fsr_set_state FSPermanentError f1
  | StepPending => f1
  end.

Definition doDrive (f : FSReplication) (w : World W)
    : Res (FSReplicationState * FSReplication * World W) :=
  if (fsr_state f =? FSPermanentError) || (fsr_state f =? FSCompleted) then
    Ok (fsr_state f, f, w)
  else if fsr_state f =? FSRetryWait then
    Ok (FSQueued, fsr_set_state FSQueued f, w)
  else if fsr_state f =? FSQueued then
    match fsr_active f with
    | None =>
        match fsr_pending f with
        | [] => Ok (FSCompleted, fsr_set_state FSCompleted f, w)
        | p :: rest =>
            Ok (FSActive,
                fsr_set_state FSActive
                  (fsr_set_queues (fsr_completed f) rest (Some p) f), w)
        end
    | Some _ => Ok (FSActive, fsr_set_state FSActive f, w)
    end
  else if fsr_state f =? FSActive then
    match fsr_active f with
    | None => Panic
    | Some a =>
        ' (stepState, a', fs', w') <- FSReplicationStep_do a (fsr_fs f) w ;;
        let f2 := doDrive_commit f stepState a' fs' in
        Ok (fsr_state f2, f2, w')
    end
  else Panic.

(** *** [FSReplication.drive] *)
Definition drive_mask : Z :=
  Z.lor FSRetryWait (Z.lor FSPermanentError FSCompleted).

Fixpoint drive (fuel : nat) (f : FSReplication) (w : World W)
    : Res (FSReplicationState * FSReplication * World W) :=
  if Z.land (fsr_state f) drive_mask =? 0 then
    match fuel with
    | O => OutOfFuel
    | S n =>
        ' (_, f', w') <- doDrive f w ;;
        drive n f' w'
    end
  else Ok (fsr_state f, f, w).

(** *** [FSReplication.nextStepDate] *)
Definition nextStepDate (f : FSReplication) : Res Z :=
  if negb (fsr_state f =? FSQueued) then Panic
  else
    match fsr_pending f with
    | [] => Panic
    | p :: _ =>
        match CreationAsTime (step_to p) with
        | Some ct => Ok ct
        | None => Panic
        end
    end.

(** *** The comparison closure handed to [sort.Slice] by [rsfWorking] *)
Definition statePrio (x : replicationQueueItem) : Res Z :=
  if Z.land (fsr_state (fsr x)) (Z.lor FSQueued FSRetryWait) =? 0 then Panic
  else if fsr_state (fsr x) =? FSQueued then Ok 0 else Ok 1.

Definition pending_less (a b : replicationQueueItem) : Res bool :=
  aprio <- statePrio a ;;
  bprio <- statePrio b ;;
  if negb (aprio =? bprio) then Ok (aprio <? bprio)
  else if fsr_state (fsr a) =? FSQueued then
    da <- nextStepDate (fsr a) ;;
    db <- nextStepDate (fsr b) ;;
    Ok (da <? db)
  else if fsr_state (fsr a) =? FSRetryWait then
    Ok (retriesSinceLastError a <? retriesSinceLastError b)
  else Panic.

(** The update closure with which [rsfWorking] picks its item: the local
    [active] and the replication as the closure leaves it. *)
Definition rsfWorking_select (r : Replication)
    : Res (option replicationQueueItem * Replication) :=
  match r_active r with
  | Some a => Ok (Some a, r)
  | None =>
      match r_pending r with
      | [] => Ok (None, r_set_state Completed r)
      | _ :: _ =>
          sorted <- sort_Slice pending_less (r_pending r) ;;
          match sorted with
          | [] => Panic
          | hd :: tl =>
              Ok (Some hd, r_set_queues tl (r_completed r) (Some hd) r)
          end
      end
  end.

(** The closing update of [rsfWorking], after [drive] returned [fsState]
    for the active item [a] (already carrying the driven filesystem). *)
Definition rsfWorking_account (fsState : FSReplicationState)
    (a : replicationQueueItem) (r : Replication) : Res Replication :=
  if negb (Z.land fsState FSQueued =? 0) then
    Ok (r_set_queues (r_pending r) (r_completed r)
          (Some {| retriesSinceLastError := 0; fsr := fsr a |}) r)
  else if negb (Z.land fsState FSRetryWait =? 0) then
    Ok (r_set_queues (r_pending r) (r_completed r)
          (Some {| retriesSinceLastError :=
                     wrap_int (retriesSinceLastError a + 1);
                   fsr := fsr a |}) r)
  else if negb (Z.land fsState (Z.lor FSPermanentError FSCompleted) =? 0) then
    Ok (r_set_queues (r_pending r) (r_completed r ++ [a]) None r)
  else Panic.

Definition handler_result : Type :=
  Res (option replicationStateFunc * Replication * World W).

(** [u(f).rsf()]: the replication after the update and the next state
    function. *)
Definition next_of (r : Replication) (w : World W) : handler_result :=
  s <- rsf (r_state r) ;; Ok (s, r, w).

(** *** [rsfWorking] *)
Definition rsfWorking (fuel : nat) (ctx : Context) (r : Replication)
    (w : World W) : handler_result :=
  ' (active, r1) <- rsfWorking_select r ;;
  rsfNext <- rsf (r_state r1) ;;
  match active with
  | None => Ok (rsfNext, r1, w)
  | Some a =>
      if fsr_state (fsr a) =? FSRetryWait then
        next_of (r_set_state WorkingWait r1) w
      else if negb (fsr_state (fsr a) =? FSQueued) then Panic
      else
        ' (fsState, f', w') <- drive fuel (fsr a) w ;;
        let a' := {| retriesSinceLastError := retriesSinceLastError a;
                     fsr := f' |} in
        r2 <- rsfWorking_account fsState a' r1 ;;
        next_of r2 w'
  end.

(** *** The two waits *)
Definition rsfPlanningError (ctx : Context) (r : Replication) (w : World W)
    : handler_result :=
  let sleepTime := 10 * time_Second in
  let r1 := r_set_sleepUntil (w_now w + sleepTime) r in
  match select_ctx_timer ctx (w_now w) sleepTime with
  | WakeCtxDone t e =>
      next_of (r_set_contextError (Some e) (r_set_state ContextDone r1))
        (at_time t w)
  | WakeTimer t =>
      next_of (r_set_state Planning r1) (at_time t w)
  end.

Definition rsfWorkingWait (ctx : Context) (r : Replication) (w : World W)
    : handler_result :=
  let sleepTime := 10 * time_Second in
  let r1 := r_set_sleepUntil (w_now w + sleepTime) r in
  match select_ctx_timer ctx (w_now w) sleepTime with
  | WakeCtxDone t e =>
      next_of (r_set_contextError (Some e) (r_set_state ContextDone r1))
        (at_time t w)
  | WakeTimer t =>
      next_of (r_set_state Working r1) (at_time t w)
  end.

(** *** [rsfPlanning]

    The body of the loop over the sender's filesystems, with its three ways
    out: [return handlePlanningError(err)], [continue] without an item, and
    an item appended to [completed] or to [pending]. *)
Inductive PlanStep : Type :=
| PlanAbort (err : error)
| PlanSkip
| PlanToCompleted (item : replicationQueueItem)
| PlanToPending (item : replicationQueueItem).

Definition planFilesystem (rfss : list Filesystem) (fs : Filesystem)
    (w : World W) : Res (PlanStep * World W) :=
  let '(sv, w1) := call_Sender_ListFilesystemVersions (Path fs) w in
  match sv with
  | inr err => Ok (PlanAbort err, w1)
  | inl sfsvs =>
      if Z.of_nat (List.length sfsvs) <=? 1 then
        let err := errors_New "sender does not have any versions" in
        Ok (PlanToCompleted
              (newReplicationQueueItemPermanentError fs (Some err)), w1)
      else
        let receiverFSExists :=
          existsb (fun rfs => String.eqb (Path rfs) (Path fs)) rfss in
        let '(rv, w2) :=
          if receiverFSExists
          then call_Receiver_ListFilesystemVersions (Path fs) w1
          else (inl [], w1) in
        match rv with
        | inr err =>
            if is_FilteredError err then Ok (PlanSkip, w2)
            else Ok (PlanAbort err, w2)
        | inl rfsvs =>
            let '(path0, conflict) := IncrementalPath rfsvs sfsvs in
            let path :=
              match conflict with
              | Some c => fst (resolveConflict c)
              | None => path0
              end in
            match path with
            | None =>
                Ok (PlanToCompleted
                      (newReplicationQueueItemPermanentError fs conflict), w2)
            | Some p =>
                let builder := buildNewFSReplication fs in
                let builder :=
                  match p with
                  | [v] => AddStep builder None v
                  | _ => addIncrementalSteps builder p
                  end in
                let qitem := Complete builder in
                if fsr_state (fsr qitem) =? FSCompleted
                then Ok (PlanToCompleted qitem, w2)
                else if fsr_state (fsr qitem) =? FSQueued
                then Ok (PlanToPending qitem, w2)
                else Panic
            end
        end
  end.

Inductive PlanOutcome : Type :=
| PlanDone (pending completed : list replicationQueueItem)
| PlanFailed (err : error).

Fixpoint planLoop (rfss sfss : list Filesystem)
    (pending completed : list replicationQueueItem) (w : World W)
    : Res (PlanOutcome * World W) :=
  match sfss with
  | [] => Ok (PlanDone pending completed, w)
  | fs :: rest =>
      ' (act, w1) <- planFilesystem rfss fs w ;;
      match act with
      | PlanAbort err => Ok (PlanFailed err, w1)
      | PlanSkip => planLoop rfss rest pending completed w1
      | PlanToCompleted it => planLoop rfss rest pending (completed ++ [it]) w1
      | PlanToPending it => planLoop rfss rest (pending ++ [it]) completed w1
      end
  end.

Definition handlePlanningError (err : error) (r : Replication) (w : World W)
    : handler_result :=
  next_of (r_set_state PlanningError (r_set_planningError (Some err) r)) w.

(** What [rsfPlanning] does with the outcome of its loop: the early
    [return handlePlanningError(err)] or the final update to [Working]. *)
Definition rsfPlanning_finish (out : PlanOutcome) (r : Replication)
    (w : World W) : handler_result :=
  match out with
  | PlanFailed err => handlePlanningError err r w
  | PlanDone pending completed =>
      next_of
        (r_set_state Working
           (r_set_planningError None
              (r_set_queues pending completed (r_active r) r))) w
  end.

Definition rsfPlanning (ctx : Context) (r : Replication) (w : World W)
    : handler_result :=
  let '(sl, w1) := call_Sender_ListFilesystems w in
  match sl with
  | inr err => handlePlanningError err r w1
  | inl sfss =>
      let '(rl, w2) := call_Receiver_ListFilesystems w1 in
      match rl with
      | inr err => handlePlanningError err r w2
      | inl rfss =>
          ' (out, w3) <- planLoop rfss sfss [] [] w2 ;;
          rsfPlanning_finish out r w3
      end
  end.

(** *** [Replication.Drive]

    [run_rsf] calls a state function value.  [Drive_iteration] is the body
    of the loop of [Drive]: it runs the current state function; the
    parameters of [Drive] - [ctx], the endpoints and [retryNow] - are in its
    scope, and it hands [ctx] and the endpoints on.  [fuel] bounds the
    iterations of the loop and [inner] those of each [drive]. *)
Definition run_rsf (inner : nat) (s : replicationStateFunc) (ctx : Context)
    (r : Replication) (w : World W) : handler_result :=
  match s with
  | fn_rsfPlanning => rsfPlanning ctx r w
  | fn_rsfPlanningError => rsfPlanningError ctx r w
  | fn_rsfWorking => rsfWorking inner ctx r w
  | fn_rsfWorkingWait => rsfWorkingWait ctx r w
  end.

Definition Drive_iteration (inner : nat) (ctx : Context) (retryNow : Chan)
    (s : replicationStateFunc) (r : Replication) (w : World W)
    : handler_result :=
  run_rsf inner s ctx r w.

Fixpoint Drive_loop (inner fuel : nat) (ctx : Context) (retryNow : Chan)
    (s : option replicationStateFunc) (r : Replication) (w : World W)
    : Res (Replication * World W) :=
  match s with
  | None => Ok (r, w)
  | Some f =>
      match fuel with
      | O => OutOfFuel
      | S n =>
          ' (s', r', w') <- Drive_iteration inner ctx retryNow f r w ;;
          Drive_loop inner n ctx retryNow s' r' w'
      end
  end.

Definition Drive (inner fuel : nat) (ctx : Context) (retryNow : Chan)
    (r : Replication) (w : World W) : Res (Replication * World W) :=
  Drive_loop inner fuel ctx retryNow (Some fn_rsfPlanning) r w.

(** The first [n] iterations of the loop of [Drive]: the state function
    about to run, the replication and the world at that point. *)
Fixpoint Drive_prefix (inner n : nat) (ctx : Context) (retryNow : Chan)
    (s : option replicationStateFunc) (r : Replication) (w : World W)
    : handler_result :=
  match n, s with
  | O, _ => Ok (s, r, w)
  | S _, None => Ok (None, r, w)
  | S k, Some f =>
      ' (s', r', w') <- Drive_iteration inner ctx retryNow f r w ;;
      Drive_prefix inner k ctx retryNow s' r' w'
  end.

End Machine.

(** ** A reference sort and scripted endpoints

    Used to run the machine on concrete inputs.  [sort_by] is insertion
    sort driven by a comparison that may panic. *)

Section ReferenceSort.

Variable A : Type.
Variable less : A -> A -> Res bool.

Fixpoint insert_by (x : A) (l : list A) : Res (list A) :=
  match l with
  | [] => Ok [x]
  | y :: t =>
      b <- less x y ;;
      if b then Ok (x :: y :: t)
      else (t' <- insert_by x t ;; Ok (y :: t'))
  end.

Fixpoint sort_by (l : list A) : Res (list A) :=
  match l with
  | [] => Ok []
  | x :: t => t' <- sort_by t ;; insert_by x t'
  end.

End ReferenceSort.

(** Endpoints whose listings are fixed and whose [Send] results follow a
    script: the endpoint state is the list of outcomes of the [Send] calls
    still to come ([Some e]: the call fails with [e]); once the script is
    used up every [Send] succeeds.  [Receive] always succeeds. *)
Definition scripted_Send (script : list (option error)) (sr : SendReq)
    : (option SendRes * option unit * option error) * list (option error) :=
  match script with
  | Some e :: rest => ((None, None, Some e), rest)
  | None :: rest => ((Some {| UsedResumeToken := false |}, Some tt, None), rest)
  | [] => ((Some {| UsedResumeToken := false |}, Some tt, None), [])
  end.

Definition scripted (sfss rfss : list Filesystem)
    (sv rv : string -> list FilesystemVersion + error)
    : EndpointPair (list (option error)) unit :=
  {| Sender_ListFilesystems := fun w => (inl sfss, w);
     Sender_ListFilesystemVersions := fun w p => (sv p, w);
     Sender_Send := scripted_Send;
     Receiver_ListFilesystems := fun w => (inl rfss, w);
     Receiver_ListFilesystemVersions := fun w p => (rv p, w);
     Receiver_Receive := fun w _ _ => (None, w);
     Stream_Close := fun w _ => w |}.

(** A planner that sends everything the sender has when the receiver has
    nothing, and reports a conflict otherwise. *)
Definition plain_IncrementalPath (rfsvs sfsvs : list FilesystemVersion)
    : option (list FilesystemVersion) * option error :=
  match rfsvs with
  | [] => (Some sfsvs, None)
  | _ => (None, Some (errors_New "no shared ancestor"))
  end.

Definition plain_resolveConflict (c : error)
    : option (list FilesystemVersion) * string :=
  (None, "cannot resolve").

(** Concrete data of the scenarios. *)
Definition v1 : FilesystemVersion :=
  {| RelName := "@v1"; CreationAsTime := Some 100 |}.
Definition v2 : FilesystemVersion :=
  {| RelName := "@v2"; CreationAsTime := Some 200 |}.
Definition u1 : FilesystemVersion :=
  {| RelName := "@u1"; CreationAsTime := Some 150 |}.
Definition u2 : FilesystemVersion :=
  {| RelName := "@u2"; CreationAsTime := Some 250 |}.

Definition fsA : Filesystem := {| Path := "fsA"; ResumeToken := "" |}.
Definition fsB : Filesystem := {| Path := "fsB"; ResumeToken := "" |}.

Definition versions_AB (p : string) : list FilesystemVersion + error :=
  if String.eqb p "fsA" then inl [v1; v2]
  else if String.eqb p "fsB" then inl [u1; u2]
  else inr (errors_New "no such filesystem").

Definition ep_AB : EndpointPair (list (option error)) unit :=
  scripted [fsA; fsB] [] versions_AB versions_AB.

Definition world0 (script : list (option error))
    : World (list (option error)) :=
  {| w_ep := script; w_now := 0; w_calls := [] |}.

Definition ctx_never : Context := {| ctx_done := None; selectPick := false |}.

(** The filesystem [fsA] as planning builds it for the path [v1; v2]. *)
Definition fsrA : FSReplication :=
  fsr (Complete (addIncrementalSteps (buildNewFSReplication fsA) [v1; v2])).

(** [fsA] after a first attempt that failed with [io.EOF] and the
    [FSRetryWait] to [FSQueued] transition of [doDrive]: the step is still
    in [active]. *)
Definition fsrA_requeued : FSReplication :=
  Eval vm_compute in
    match drive ep_AB 10 fsrA (world0 [Some io_EOF]) with
    | Ok (_, f, w) =>
        match doDrive ep_AB f w with
        | Ok (_, f', _) => f'
        | _ => fsrA
        end
    | _ => fsrA
    end.

(** [fsA] with its step promoted ([FSActive]), and after the attempt that
    failed with [io.EOF] ([FSRetryWait]). *)
Definition fsrA_active : FSReplication :=
  Eval vm_compute in
    match doDrive ep_AB fsrA (world0 [Some io_EOF]) with
    | Ok (_, f, _) => f
    | _ => fsrA
    end.

Definition fsrA_waiting : FSReplication :=
  Eval vm_compute in
    match doDrive ep_AB fsrA_active (world0 [Some io_EOF]) with
    | Ok (_, f, _) => f
    | _ => fsrA
    end.

(** The endpoints of [ep_AB] with a receiver that has both filesystems and
    answers the version listing of [fsA] with a [FilteredError]. *)
Definition versions_filtered (p : string) : list FilesystemVersion + error :=
  if String.eqb p "fsA" then inr (dynError false true "filtered")
  else inl [].

Definition ep_filtered : EndpointPair (list (option error)) unit :=
  scripted [fsA; fsB] [fsA; fsB] versions_AB versions_filtered.

(** Two queued items and one waiting for a retry, out of order. *)
Definition item_of (n : Z) (f : FSReplication) : replicationQueueItem :=
  {| retriesSinceLastError := n; fsr := f |}.

Definition fsrB : FSReplication :=
  fsr (Complete (addIncrementalSteps (buildNewFSReplication fsB) [u1; u2])).

Definition replication_unsorted : Replication :=
  {| r_state := Working;
     r_pending := [item_of 2 fsrA_waiting; item_of 0 fsrB; item_of 0 fsrA];
     r_completed := []; r_active := None; r_planningError := None;
     r_contextError := None; r_sleepUntil := 0 |}.

(** A replication in [Working] whose active item has been retried once and
    is queued again. *)
Definition replication_retried : Replication :=
  {| r_state := Working; r_pending := []; r_completed := [];
     r_active := Some {| retriesSinceLastError := 1; fsr := fsrA_requeued |};
     r_planningError := None; r_contextError := None; r_sleepUntil := 0 |}.

(** A context cancelled three seconds after the start of the run. *)
Definition ctx_cancelled : Context :=
  {| ctx_done := Some (3 * time_Second, dynError false false "context canceled");
     selectPick := false |}.

Definition replication0 : Replication :=
  {| r_state := Planning; r_pending := []; r_completed := [];
     r_active := None; r_planningError := None; r_contextError := None;
     r_sleepUntil := 0 |}.

(** ** Properties in the words of the specification *)

(** The errors the specification lists as transient: the three
    end-of-stream conditions and every network-transport error. *)
Definition transient_error (e : error) : Prop :=
  e = io_EOF \/ e = io_ErrUnexpectedEOF \/ e = io_ErrClosedPipe \/
  is_net_Error e = true.

(** The handler result that enters [PlanningError] recording [err]. *)
Definition enters_PlanningError (W : Type)
    (res : Res (option replicationStateFunc * Replication * World W))
    (err : error) (r : Replication) (w : World W) : Prop :=
  res = Ok (Some fn_rsfPlanningError,
            r_set_state PlanningError (r_set_planningError (Some err) r), w).


(** The five states of a filesystem, and the shape [doDrive] relies on in
    [FSActive]. *)
Definition fsr_valid_state (st : FSReplicationState) : Prop :=
  st = FSQueued \/ st = FSActive \/ st = FSRetryWait \/
  st = FSPermanentError \/ st = FSCompleted.

Definition fsr_wf (f : FSReplication) : Prop :=
  fsr_valid_state (fsr_state f) /\
  (fsr_state f = FSActive -> fsr_active f <> None).

Definition fs_terminal_for_now (st : FSReplicationState) : Prop :=
  st = FSRetryWait \/ st = FSPermanentError \/ st = FSCompleted.




(** Number of [doDrive] calls after which [drive] has certainly returned. *)
Definition drive_budget (f : FSReplication) : nat :=
  2 * List.length (fsr_pending f) + 2.

(** The exact count behind the budget: [doDrive] calls left before [drive]
    has returned, by state and queue. *)
Definition drive_measure (f : FSReplication) : nat :=
  if fsr_state f =? FSQueued then
    match fsr_active f with
    | Some _ => 2 * List.length (fsr_pending f) + 2
    | None => Nat.max 1 (2 * List.length (fsr_pending f))
    end
  else 2 * List.length (fsr_pending f) + 1.

(** The sort keys of the scheduler: the state priority and, within one
    priority, the date of the next step or the retry count. *)
Definition prio_of (x : replicationQueueItem) : Z :=
  if fsr_state (fsr x) =? FSQueued then 0 else 1.

Definition schedulable (x : replicationQueueItem) : Prop :=
  (fsr_state (fsr x) = FSQueued /\
   exists p rest ct, fsr_pending (fsr x) = p :: rest /\
                     CreationAsTime (step_to p) = Some ct) \/
  fsr_state (fsr x) = FSRetryWait.

(** The comparison of the scheduler as a key: priority first, then the
    date of the next step or the retry count. *)
Definition sort_key (x : replicationQueueItem) : Z * Z :=
  if fsr_state (fsr x) =? FSQueued then
    (0, match nextStepDate (fsr x) with Ok d => d | _ => 0 end)
  else (1, retriesSinceLastError x).

Definition key_lt (k1 k2 : Z * Z) : bool :=
  (fst k1 <? fst k2) || ((fst k1 =? fst k2) && (snd k1 <? snd k2)).

(** [a] may stand before [b] in the sorted queue. *)
Definition scheduled_before (a b : replicationQueueItem) : Prop :=
  prio_of a <= prio_of b /\
  (fsr_state (fsr a) = FSQueued -> fsr_state (fsr b) = FSQueued ->
   forall da db, nextStepDate (fsr a) = Ok da ->
                 nextStepDate (fsr b) = Ok db -> da <= db) /\
  (fsr_state (fsr a) = FSRetryWait -> fsr_state (fsr b) = FSRetryWait ->
   retriesSinceLastError a <= retriesSinceLastError b).

(** What [sort.Slice] promises for a comparison that does not panic on the
    elements and is a strict weak order on them: a sorted permutation. *)
Definition sort_Slice_contract
    (sort_Slice : (replicationQueueItem -> replicationQueueItem -> Res bool) ->
                  list replicationQueueItem -> Res (list replicationQueueItem))
    : Prop :=
  forall (less : replicationQueueItem -> replicationQueueItem -> Res bool)
         (l : list replicationQueueItem),
    (forall a b, In a l -> In b l -> exists v, less a b = Ok v) ->
    (forall a, In a l -> less a a = Ok false) ->
    (forall a b c, In a l -> In b l -> In c l ->
       less a b = Ok true -> less b c = Ok true -> less a c = Ok true) ->
    (forall a b c, In a l -> In b l -> In c l ->
       less a b = Ok false -> less b c = Ok false -> less a c = Ok false) ->
    exists l', sort_Slice less l = Ok l' /\ Permutation l l' /\
               StronglySorted (fun x y => less y x = Ok false) l'.

(** The retry counters of a replication between two state functions of a
    run: the items in [pending] are queued with the counter at 0, the
    items in [completed] have the counter at 0, and the active item has
    the counter at 0 unless its filesystem waits for a retry, in which
    case the counter is 1. *)
Definition retry_counter_inv (r : Replication) : Prop :=
  Forall (fun it => retriesSinceLastError it = 0 /\
                    fsr_state (fsr it) = FSQueued) (r_pending r) /\
  Forall (fun it => retriesSinceLastError it = 0) (r_completed r) /\
  match r_active r with
  | Some a =>
      retriesSinceLastError a = 0 \/
      (fsr_state (fsr a) = FSRetryWait /\ retriesSinceLastError a = 1)
  | None => True
  end.

(** * Theorems *)

Unset Implicit Arguments.

Section StepExecutor.

Variables W Stream : Type.
Variable ep : EndpointPair W Stream.

Lemma updateStateError_pair (s : FSReplicationStep) (e : error) :
  updateStateError s e =
  (fst (updateStateError s e),
   step_set (fst (updateStateError s e)) (Some e) s).
Proof.
  unfold updateStateError.
  destruct e as [ | | | n f m]; simpl; try reflexivity.
  destruct n; reflexivity.
Qed.

Lemma updateStateError_transient (s : FSReplicationStep) (e : error) :
  (fst (updateStateError s e) = StepRetry <-> transient_error e) /\
  (fst (updateStateError s e) = StepPermanentError <-> ~ transient_error e).
Proof.
  unfold updateStateError, transient_error.
  destruct e as [ | | | n f m]; simpl.
  1-3: split; split; intros H; auto; try discriminate; exfalso; apply H; auto.
  destruct n; simpl; split; split; intros H; auto; try discriminate.
  - exfalso; apply H; auto.
  - destruct H as [H | [H | [H | H]]]; discriminate.
  - intros [H' | [H' | [H' | H']]]; discriminate.
Qed.

Lemma updateStateError_let (s : FSReplicationStep) (e : error)
    (fs : Filesystem) (w : World W) :
  (let '(st, s') := updateStateError s e in Ok (st, s', fs, w)) =
  Ok (fst (updateStateError s e),
      step_set (fst (updateStateError s e)) (Some e) s, fs, w).
Proof.
  generalize (updateStateError_pair s e).
  destruct (updateStateError s e) as [st s']. simpl.
  intros H. injection H as H. rewrite <- H. reflexivity.
Qed.

(** C5.  Every error of [Send] or [Receive] makes the step [StepRetry]
    exactly when it is [io.EOF], [io.ErrUnexpectedEOF], [io.ErrClosedPipe]
    or a [net.Error], and [StepPermanentError] otherwise; the classified
    error is stored on the step.  A [Send] without error and without stream
    yields [StepPermanentError]; a successful [Send] and [Receive] yield
    [StepCompleted] with the error cleared. *)
Theorem FSReplicationStep_do_classifies :
  forall (s : FSReplicationStep) (fs : Filesystem) (w : World W),
    let fs1 := fs_set_ResumeToken "" fs in
    let class := fun e => fst (updateStateError s e) in
    (forall e,
       (class e = StepRetry <-> transient_error e) /\
       (class e = StepPermanentError <-> ~ transient_error e)) /\
    match call_Send ep (mkSendReq fs1 s) w with
    | ((_, _, Some e), w1) =>
        FSReplicationStep_do ep s fs w =
        Ok (class e, step_set (class e) (Some e) s, fs1, w1)
    | ((_, None, None), w1) =>
        FSReplicationStep_do ep s fs w =
        Ok (StepPermanentError,
            step_set StepPermanentError (Some err_no_stream) s, fs1, w1)
    | ((None, Some _, None), w1) =>
        FSReplicationStep_do ep s fs w = Panic
    | ((Some res, Some stream, None), w1) =>
        match call_Receive ep
                {| rr_Filesystem := Path fs1;
                   rr_ClearResumeToken := negb (UsedResumeToken res) |}
                stream w1 with
        | (Some e, w2) =>
            FSReplicationStep_do ep s fs w =
            Ok (class e, step_set (class e) (Some e) s, fs1,
                call_Close ep stream w2)
        | (None, w2) =>
            FSReplicationStep_do ep s fs w =
            Ok (StepCompleted, step_set StepCompleted None s, fs1, w2)
        end
    end.
Proof.
  intros s fs w fs1 class. split.
  - intros e. apply updateStateError_transient.
  - assert (Hcl := fun e w' => updateStateError_let s e fs1 w').
    unfold class.
    unfold FSReplicationStep_do. fold fs1.
    destruct (call_Send ep (mkSendReq fs1 s) w) as [[[sres sstream] serr] w1].
    destruct serr as [e | ].
    + destruct sres, sstream; apply Hcl.
    + destruct sstream as [stream | ].
      * destruct sres as [res | ]; [ | reflexivity].
        destruct (call_Receive ep _ stream w1) as [[e | ] w2].
        -- apply Hcl.
        -- reflexivity.
      * destruct sres; reflexivity.
Qed.

End StepExecutor.

(** ** The request a step issues *)

Section SendRequest.

Variables W Stream : Type.
Variable ep : EndpointPair W Stream.

Lemma updateStateError_not_pending (s : FSReplicationStep) (e : error) :
  fst (updateStateError s e) = StepRetry \/
  fst (updateStateError s e) = StepPermanentError.
Proof.
  unfold updateStateError.
  destruct e as [ | | | n f m]; simpl; auto.
  destruct n; auto.
Qed.

(** What every returning execution of a step leaves behind. *)
Lemma FSReplicationStep_do_facts (s : FSReplicationStep) (fs : Filesystem)
    (w : World W) (st : FSReplicationStepState) (s' : FSReplicationStep)
    (fs' : Filesystem) (w' : World W) :
  FSReplicationStep_do ep s fs w = Ok (st, s', fs', w') ->
  st <> StepPending /\ step_state s' = st /\
  step_from s' = step_from s /\ step_to s' = step_to s /\
  fs' = fs_set_ResumeToken "" fs /\
  exists rest,
    w_calls w' = w_calls w ++ CallSend (mkSendReq fs' s) :: rest /\
    forall sr, ~ In (CallSend sr) rest.
Proof.
  unfold FSReplicationStep_do, call_Send, call_Receive, call_Close, logged.
  destruct (Sender_Send ep (w_ep w) (mkSendReq (fs_set_ResumeToken "" fs) s))
    as [[[sres sstream] serr] e1].
  assert (NP : forall e, fst (updateStateError s e) <> StepPending).
  { intros e. destruct (updateStateError_not_pending s e) as [E | E];
      rewrite E; discriminate. }
  destruct serr as [e | ].
  - rewrite updateStateError_let. intros H. injection H as <- <- <- <-.
    simpl. repeat split; auto. exists []. split; [reflexivity | intros sr []].
  - destruct sstream as [stream | ].
    + destruct sres as [res | ]; [ | discriminate].
      cbn [w_ep].
      match goal with
      | |- context [Receiver_Receive ?a ?b ?c ?d] =>
          destruct (Receiver_Receive a b c d) as [[e | ] e2]
      end.
      * rewrite updateStateError_let. intros H. injection H as <- <- <- <-.
        simpl. repeat split; auto.
        exists [CallReceive
                  {| rr_Filesystem := Path fs;
                     rr_ClearResumeToken := negb (UsedResumeToken res) |};
                CallStreamClose].
        split.
        -- rewrite <- !app_assoc. reflexivity.
        -- intros sr [F | [F | []]]; discriminate.
      * simpl. intros H. injection H as <- <- <- <-. simpl.
        repeat split; auto; try discriminate.
        exists [CallReceive
                  {| rr_Filesystem := Path fs;
                     rr_ClearResumeToken := negb (UsedResumeToken res) |}].
        split.
        -- rewrite <- !app_assoc. reflexivity.
        -- intros sr [F | []]; discriminate.
    + rewrite updateStateError_let. intros H. injection H as <- <- <- <-.
      simpl. repeat split; auto; try discriminate.
      exists []. split; [reflexivity | intros sr []].
Qed.

(** C9.  The request is built by the three-way choice: with a non-empty
    resume token the request carries the token; without one and with a nil
    [from] it names [to] (in the [From] field) and nothing else; otherwise
    it names [from] and [to].  [do] clears the token before it builds the
    request, so the request it issues - the first call it makes, and its
    only [Send] - has an empty [ResumeToken] and is the full or the
    incremental one; the filesystem is left with the token cleared. *)
Theorem FSReplicationStep_do_send_request :
  forall (s : FSReplicationStep) (fs : Filesystem) (w : World W),
    let sr := mkSendReq (fs_set_ResumeToken "" fs) s in
    (forall fs0 : Filesystem,
       mkSendReq fs0 s =
       if negb (String.eqb (ResumeToken fs0) "") then
         {| sr_Filesystem := Path fs0; sr_From := ""; sr_To := "";
            sr_ResumeToken := ResumeToken fs0 |}
       else
         match step_from s with
         | None =>
             {| sr_Filesystem := Path fs0; sr_From := RelName (step_to s);
                sr_To := ""; sr_ResumeToken := "" |}
         | Some from =>
             {| sr_Filesystem := Path fs0; sr_From := RelName from;
                sr_To := RelName (step_to s); sr_ResumeToken := "" |}
         end) /\
    sr_ResumeToken sr = "" /\
    sr = match step_from s with
         | None =>
             {| sr_Filesystem := Path fs; sr_From := RelName (step_to s);
                sr_To := ""; sr_ResumeToken := "" |}
         | Some from =>
             {| sr_Filesystem := Path fs; sr_From := RelName from;
                sr_To := RelName (step_to s); sr_ResumeToken := "" |}
         end /\
    match FSReplicationStep_do ep s fs w with
    | Ok (_, _, fs', w') =>
        ResumeToken fs' = "" /\
        exists rest,
          w_calls w' = w_calls w ++ CallSend sr :: rest /\
          forall sr', ~ In (CallSend sr') rest
    | _ => True
    end.
Proof.
  intros s fs w sr.
  split; [intros fs0; reflexivity | ].
  split; [unfold sr, mkSendReq; simpl; destruct (step_from s); reflexivity | ].
  split; [unfold sr, mkSendReq; simpl; destruct (step_from s); reflexivity | ].
  destruct (FSReplicationStep_do ep s fs w) as [[[[st s'] fs'] w'] | | ] eqn:E;
    auto.
  apply FSReplicationStep_do_facts in E.
  destruct E as (_ & _ & _ & _ & Hfs & rest & Hc & Hn).
  subst fs'. split; [reflexivity | ].
  exists rest. split; assumption.
Qed.

End SendRequest.

(** ** The per-filesystem machine *)

Section PerFilesystem.

Variables W Stream : Type.
Variable ep : EndpointPair W Stream.

Lemma doDrive_terminal (f : FSReplication) (w : World W) :
  fsr_state f = FSCompleted \/ fsr_state f = FSPermanentError ->
  doDrive ep f w = Ok (fsr_state f, f, w).
Proof.
  intros [H | H]; unfold doDrive; rewrite H; reflexivity.
Qed.

Lemma doDrive_RetryWait (f : FSReplication) (w : World W) :
  fsr_state f = FSRetryWait ->
  doDrive ep f w = Ok (FSQueued, fsr_set_state FSQueued f, w).
Proof.
  intros H; unfold doDrive; rewrite H; reflexivity.
Qed.

Lemma doDrive_Queued_active (f : FSReplication) (a : FSReplicationStep)
    (w : World W) :
  fsr_state f = FSQueued -> fsr_active f = Some a ->
  doDrive ep f w = Ok (FSActive, fsr_set_state FSActive f, w).
Proof.
  intros H Ha; unfold doDrive; rewrite H, Ha; reflexivity.
Qed.

Lemma doDrive_Queued_promote (f : FSReplication) (p : FSReplicationStep)
    (rest : list FSReplicationStep) (w : World W) :
  fsr_state f = FSQueued -> fsr_active f = None -> fsr_pending f = p :: rest ->
  doDrive ep f w =
  Ok (FSActive,
      fsr_set_state FSActive (fsr_set_queues (fsr_completed f) rest (Some p) f),
      w).
Proof.
  intros H Ha Hp; unfold doDrive; rewrite H, Ha, Hp; reflexivity.
Qed.

Lemma doDrive_Queued_empty (f : FSReplication) (w : World W) :
  fsr_state f = FSQueued -> fsr_active f = None -> fsr_pending f = [] ->
  doDrive ep f w = Ok (FSCompleted, fsr_set_state FSCompleted f, w).
Proof.
  intros H Ha Hp; unfold doDrive; rewrite H, Ha, Hp; reflexivity.
Qed.

Lemma doDrive_Active (f : FSReplication) (a : FSReplicationStep)
    (w : World W) :
  fsr_state f = FSActive -> fsr_active f = Some a ->
  doDrive ep f w =
  (' (stepState, a', fs', w') <- FSReplicationStep_do ep a (fsr_fs f) w ;;
   Ok (fsr_state (doDrive_commit f stepState a' fs'),
       doDrive_commit f stepState a' fs', w')).
Proof.
  intros H Ha; unfold doDrive; rewrite H, Ha; reflexivity.
Qed.

(** C10.  When the active step comes back [StepRetry], the filesystem goes
    to [FSRetryWait] with that step still in [active] - its [from] and [to]
    untouched, [pending] and [completed] as they were.  The next [doDrive]
    makes it [FSQueued], the one after that [FSActive] without touching
    [active] or [pending], and the [doDrive] after that executes that very
    step: its [Send] request is the request of the first attempt.  In
    [FSQueued] the head of [pending] is promoted only when [active] is nil. *)
Theorem doDrive_retries_the_active_step :
  forall (f : FSReplication) (a a' : FSReplicationStep) (fs' : Filesystem)
         (w w' : World W),
    fsr_state f = FSActive -> fsr_active f = Some a ->
    FSReplicationStep_do ep a (fsr_fs f) w = Ok (StepRetry, a', fs', w') ->
    (exists f1 f2 f3,
       doDrive ep f w = Ok (FSRetryWait, f1, w') /\
       fsr_state f1 = FSRetryWait /\ fsr_active f1 = Some a' /\
       step_from a' = step_from a /\ step_to a' = step_to a /\
       fsr_pending f1 = fsr_pending f /\ fsr_completed f1 = fsr_completed f /\
       (forall w1, doDrive ep f1 w1 = Ok (FSQueued, f2, w1)) /\
       fsr_state f2 = FSQueued /\
       (forall w2, doDrive ep f2 w2 = Ok (FSActive, f3, w2)) /\
       fsr_state f3 = FSActive /\ fsr_active f3 = Some a' /\
       fsr_pending f3 = fsr_pending f /\ fsr_completed f3 = fsr_completed f /\
       (forall w3,
          doDrive ep f3 w3 =
          (' (stepState, a2, fs2, w4) <-
             FSReplicationStep_do ep a' (fsr_fs f3) w3 ;;
           Ok (fsr_state (doDrive_commit f3 stepState a2 fs2),
               doDrive_commit f3 stepState a2 fs2, w4))) /\
       mkSendReq (fs_set_ResumeToken "" (fsr_fs f3)) a' =
       mkSendReq (fs_set_ResumeToken "" (fsr_fs f)) a) /\
    (forall (g : FSReplication) (x : FSReplicationStep) (v : World W),
       fsr_state g = FSQueued -> fsr_active g = Some x ->
       exists g', doDrive ep g v = Ok (FSActive, g', v) /\
                  fsr_active g' = Some x /\ fsr_pending g' = fsr_pending g) /\
    (forall (g : FSReplication) (p : FSReplicationStep)
            (rest : list FSReplicationStep) (v : World W),
       fsr_state g = FSQueued -> fsr_active g = None ->
       fsr_pending g = p :: rest ->
       exists g', doDrive ep g v = Ok (FSActive, g', v) /\
                  fsr_active g' = Some p /\ fsr_pending g' = rest).
Proof.
  intros f a a' fs' w w' Hs Ha Hdo.
  destruct (FSReplicationStep_do_facts W Stream ep a (fsr_fs f) w _ _ _ _ Hdo)
    as (_ & _ & Hfrom & Hto & Hfs & _).
  split; [ | split].
  - set (f1 := doDrive_commit f StepRetry a' fs').
    exists f1, (fsr_set_state FSQueued f1),
           (fsr_set_state FSActive (fsr_set_state FSQueued f1)).
    split; [rewrite (doDrive_Active f a w Hs Ha), Hdo; reflexivity | ].
    split; [reflexivity | ]. split; [reflexivity | ].
    split; [exact Hfrom | ]. split; [exact Hto | ].
    split; [reflexivity | ]. split; [reflexivity | ].
    split; [intros w1; apply doDrive_RetryWait; reflexivity | ].
    split; [reflexivity | ].
    split; [intros w2; apply (doDrive_Queued_active _ a'); reflexivity | ].
    split; [reflexivity | ]. split; [reflexivity | ].
    split; [reflexivity | ]. split; [reflexivity | ].
    split; [intros w3; apply doDrive_Active; reflexivity | ].
    simpl. subst fs'. unfold mkSendReq. simpl. rewrite Hfrom, Hto.
    reflexivity.
  - intros g x v Hg Hx. eexists. split.
    + apply (doDrive_Queued_active g x v Hg Hx).
    + split; [exact Hx | reflexivity].
  - intros g p rest v Hg Hx Hp. eexists. split.
    + apply (doDrive_Queued_promote g p rest v Hg Hx Hp).
    + split; reflexivity.
Qed.

(** A variant for the loop of [drive]: it bounds the calls of [doDrive]
    still to come. *)
Lemma drive_returns_at_once (fuel : nat) (f : FSReplication) (w : World W) :
  fs_terminal_for_now (fsr_state f) ->
  drive ep fuel f w = Ok (fsr_state f, f, w).
Proof.
  intros [H | [H | H]]; destruct fuel; simpl; rewrite H; reflexivity.
Qed.

Lemma doDrive_commit_cases (f : FSReplication)
    (st : FSReplicationStepState) (a' : FSReplicationStep) (fs' : Filesystem) :
  st <> StepPending ->
  let f2 := doDrive_commit f st a' fs' in
  fs_terminal_for_now (fsr_state f2) \/
  (fsr_state f2 = FSQueued /\ fsr_active f2 = None /\
   fsr_pending f2 = fsr_pending f /\ fsr_pending f <> []).
Proof.
  intros NP. unfold doDrive_commit. destruct st; simpl.
  - contradiction.
  - left. left. reflexivity.
  - left. right. left. reflexivity.
  - destruct (fsr_pending f) as [ | p rest] eqn:E; simpl.
    + left. right. right. reflexivity.
    + right. repeat split. discriminate.
Qed.

Lemma drive_enough_fuel :
  (forall s fs w, exists out, FSReplicationStep_do ep s fs w = Ok out) ->
  forall (fuel : nat) (f : FSReplication) (w : World W),
    fsr_wf f -> (drive_measure f <= fuel)%nat ->
    exists f' w',
      drive ep fuel f w = Ok (fsr_state f', f', w') /\
      fs_terminal_for_now (fsr_state f').
Proof.
  intros Hdo. induction fuel as [ | n IH]; intros f w [Hv Hact] Hm.
  - (* no budget: only a filesystem that needs none *)
    unfold drive_measure in Hm.
    destruct (fsr_state f =? FSQueued); [ | lia].
    destruct (fsr_active f); lia.
  - destruct Hv as [Hq | [Ha | Hterm]].
    + (* Queued *)
      unfold drive_measure in Hm. rewrite Hq in Hm. simpl Z.eqb in Hm. cbv iota in Hm.
      simpl. rewrite Hq. simpl.
      destruct (fsr_active f) as [a | ] eqn:Ea.
      * rewrite (doDrive_Queued_active f a w Hq Ea). simpl.
        apply IH.
        -- split; [right; left; reflexivity | ].
           simpl. rewrite Ea. discriminate.
        -- unfold drive_measure. simpl. lia.
      * destruct (fsr_pending f) as [ | p rest] eqn:Ep.
        -- rewrite (doDrive_Queued_empty f w Hq Ea Ep). simpl.
           exists (fsr_set_state FSCompleted f), w.
           split; [ | right; right; reflexivity].
           apply (drive_returns_at_once n (fsr_set_state FSCompleted f) w).
           right; right; reflexivity.
        -- rewrite (doDrive_Queued_promote f p rest w Hq Ea Ep). simpl.
           apply IH.
           ++ split; [right; left; reflexivity | ]. simpl. discriminate.
           ++ unfold drive_measure. simpl. simpl in Hm. lia.
    + (* Active *)
      unfold drive_measure in Hm. rewrite Ha in Hm. simpl Z.eqb in Hm. cbv iota in Hm.
      simpl. rewrite Ha. simpl.
      destruct (fsr_active f) as [a | ] eqn:Ea; [ | exfalso; exact (Hact Ha eq_refl)].
      rewrite (doDrive_Active f a w Ha Ea).
      destruct (Hdo a (fsr_fs f) w) as [[[[st a'] fs'] w'] Eo].
      rewrite Eo. simpl.
      destruct (FSReplicationStep_do_facts W Stream ep a (fsr_fs f) w _ _ _ _ Eo)
        as (NP & _).
      destruct (doDrive_commit_cases f st a' fs' NP) as [T | (Sq & Sa & Sp & Sn)].
      * exists (doDrive_commit f st a' fs'), w'. split; [ | exact T].
        apply drive_returns_at_once. exact T.
      * apply IH.
        -- split; [left; exact Sq | ]. rewrite Sq. discriminate.
        -- unfold drive_measure. rewrite Sa, Sq, Sp. simpl Z.eqb. cbv iota.
           destruct (fsr_pending f); [contradiction | ]. simpl List.length in *. lia.
    + exists f, w.
      assert (T : fs_terminal_for_now (fsr_state f)) by exact Hterm.
      split; [apply drive_returns_at_once; exact T | exact T].
Qed.

(** C6.  If every step execution returns, [drive] returns: from any
    filesystem in one of the five states (with an active step when it is
    [FSActive]), after at most [2 * len(pending) + 2] calls of [doDrive],
    and in one of [FSRetryWait], [FSPermanentError], [FSCompleted].  In
    [FSCompleted] and [FSPermanentError] a call of [doDrive] returns that
    state and changes nothing, so the state is kept by every further call. *)
Theorem drive_returns_terminal_for_now :
  (forall s fs w, exists out, FSReplicationStep_do ep s fs w = Ok out) ->
  forall (f : FSReplication) (w : World W),
    (fsr_wf f ->
     forall fuel : nat, (drive_budget f <= fuel)%nat ->
       exists f' w',
         drive ep fuel f w = Ok (fsr_state f', f', w') /\
         fs_terminal_for_now (fsr_state f')) /\
    (fsr_state f = FSCompleted \/ fsr_state f = FSPermanentError ->
     doDrive ep f w = Ok (fsr_state f, f, w) /\
     forall fuel : nat, drive ep fuel f w = Ok (fsr_state f, f, w)).
Proof.
  intros Hdo f w. split.
  - intros Hwf fuel Hfuel. apply (drive_enough_fuel Hdo); [exact Hwf | ].
    unfold drive_budget in Hfuel. unfold drive_measure.
    destruct (fsr_state f =? FSQueued); [ | lia].
    destruct (fsr_active f); lia.
  - intros H. split; [apply doDrive_terminal; exact H | ].
    intros fuel. apply drive_returns_at_once.
    destruct H as [H | H]; unfold fs_terminal_for_now; auto.
Qed.






End PerFilesystem.

(** ** The scheduler of [rsfWorking] *)

Section Scheduler.

Variable sort_Slice :
  (replicationQueueItem -> replicationQueueItem -> Res bool) ->
  list replicationQueueItem -> Res (list replicationQueueItem).

Lemma pending_less_key (a b : replicationQueueItem) :
  schedulable a -> schedulable b ->
  pending_less a b = Ok (key_lt (sort_key a) (sort_key b)).
Proof.
  unfold schedulable, pending_less, statePrio, sort_key, key_lt, nextStepDate.
  intros [[Ha (pa & ra & ca & Pa & Ca)] | Ha] [[Hb (pb & rb & cb & Pb & Cb)] | Hb];
    rewrite Ha, Hb; try rewrite Pa; try rewrite Pb;
    try rewrite Ca; try rewrite Cb; reflexivity.
Qed.

Lemma key_lt_true (k1 k2 : Z * Z) :
  key_lt k1 k2 = true <->
  fst k1 < fst k2 \/ (fst k1 = fst k2 /\ snd k1 < snd k2).
Proof.
  unfold key_lt.
  rewrite orb_true_iff, andb_true_iff, !Z.ltb_lt, Z.eqb_eq. tauto.
Qed.

Lemma key_lt_false (k1 k2 : Z * Z) :
  key_lt k1 k2 = false <->
  fst k2 < fst k1 \/ (fst k1 = fst k2 /\ snd k2 <= snd k1).
Proof.
  unfold key_lt.
  rewrite orb_false_iff, andb_false_iff, !Z.ltb_ge, Z.eqb_neq. lia.
Qed.

Lemma not_less_scheduled_before (a b : replicationQueueItem) :
  schedulable a -> schedulable b ->
  pending_less b a = Ok false -> scheduled_before a b.
Proof.
  intros Sa Sb H. rewrite (pending_less_key b a Sb Sa) in H.
  injection H as H. apply key_lt_false in H.
  unfold scheduled_before, prio_of. unfold sort_key in H.
  split; [ | split].
  - destruct (fsr_state (fsr a) =? FSQueued), (fsr_state (fsr b) =? FSQueued);
      simpl in H; lia.
  - intros Qa Qb da db Da Db. rewrite Qa, Qb, Da, Db in H. simpl in H. lia.
  - intros Ra Rb. rewrite Ra, Rb in H. simpl in H. lia.
Qed.

Lemma StronglySorted_weaken (A : Type) (R R' : A -> A -> Prop) (l : list A) :
  (forall a b, In a l -> In b l -> R a b -> R' a b) ->
  StronglySorted R l -> StronglySorted R' l.
Proof.
  intros HR HS. induction HS as [ | x t HS IH HF].
  - constructor.
  - constructor.
    + apply IH. intros a b Ia Ib. apply HR; right; assumption.
    + rewrite Forall_forall in *. intros y Iy.
      apply HR; [left; reflexivity | right; exact Iy | apply HF; exact Iy].
Qed.

(** C4.  With no active item, [rsfWorking] looks at [pending].  If it is
    empty the replication becomes [Completed] and no item is active (and
    the driver loop ends).  Otherwise [pending] is sorted - a permutation in
    which every item stands before all later ones by priority ([FSQueued]
    before [FSRetryWait]), among [FSQueued] items by the earlier
    [nextStepDate], among [FSRetryWait] items by the smaller
    [retriesSinceLastError] - its head becomes the active item and its tail
    the new [pending]. *)
Theorem rsfWorking_select_sorted_head :
  sort_Slice_contract sort_Slice ->
  forall r : Replication,
    r_active r = None ->
    Forall schedulable (r_pending r) ->
    match r_pending r with
    | [] =>
        rsfWorking_select sort_Slice r = Ok (None, r_set_state Completed r) /\
        rsf (r_state (r_set_state Completed r)) = Ok None
    | _ :: _ =>
        exists hd tl,
          rsfWorking_select sort_Slice r =
          Ok (Some hd, r_set_queues tl (r_completed r) (Some hd) r) /\
          Permutation (r_pending r) (hd :: tl) /\
          StronglySorted scheduled_before (hd :: tl)
    end.
Proof.
  intros Hsort r Hact Hsch.
  unfold rsfWorking_select. rewrite Hact.
  destruct (r_pending r) as [ | x rest] eqn:Ep; [split; reflexivity | ].
  rewrite Forall_forall in Hsch.
  destruct (Hsort pending_less (x :: rest)) as (l' & Hs & Hperm & Hsorted).
  - intros a b Ia Ib. eexists. apply pending_less_key; auto.
  - intros a Ia. rewrite pending_less_key by auto.
    f_equal. apply key_lt_false. lia.
  - intros a b c Ia Ib Ic. rewrite !pending_less_key by auto.
    intros H1 H2. injection H1 as H1. injection H2 as H2. f_equal.
    rewrite key_lt_true in *. lia.
  - intros a b c Ia Ib Ic. rewrite !pending_less_key by auto.
    intros H1 H2. injection H1 as H1. injection H2 as H2. f_equal.
    rewrite key_lt_false in *. lia.
  - rewrite Hs. simpl.
    destruct l' as [ | hd tl].
    + apply Permutation_sym, Permutation_nil in Hperm. discriminate.
    + exists hd, tl. split; [reflexivity | ]. split; [exact Hperm | ].
      apply (StronglySorted_weaken _
               (fun x y => pending_less y x = Ok false) scheduled_before
               (hd :: tl)); [ | exact Hsorted].
      intros a b Ia Ib. apply not_less_scheduled_before;
        apply Hsch; apply (Permutation_in _ (Permutation_sym Hperm));
        assumption.
Qed.

End Scheduler.

(** ** Planning *)

Section PlanningProofs.

Variables W Stream : Type.
Variable ep : EndpointPair W Stream.
Variable IncrementalPath :
  list FilesystemVersion -> list FilesystemVersion ->
  option (list FilesystemVersion) * option error.
Variable resolveConflict : error -> option (list FilesystemVersion) * string.

Local Notation "'plan_fs'" :=
  (planFilesystem ep IncrementalPath resolveConflict).
Local Notation "'plan_loop'" := (planLoop ep IncrementalPath resolveConflict).
Local Notation "'rsf_planning'" :=
  (rsfPlanning ep IncrementalPath resolveConflict).

Lemma addIncrementalSteps_fs (path : list FilesystemVersion)
    (b : FSReplication) :
  fsr_fs (addIncrementalSteps b path) = fsr_fs b.
Proof.
  revert b. induction path as [ | v [ | v' t] IH]; intros b; try reflexivity.
  change (fsr_fs (addIncrementalSteps (AddStep b (Some v) v') (v' :: t)) =
          fsr_fs b).
  rewrite IH. reflexivity.
Qed.

Lemma Complete_fs (b : FSReplication) : fsr_fs (fsr (Complete b)) = fsr_fs b.
Proof.
  unfold Complete.
  destruct (0 <? Z.of_nat (List.length (fsr_pending b))); reflexivity.
Qed.

(** An item that planning files belongs to the filesystem being assessed. *)
Lemma planFilesystem_item_fs (rfss : list Filesystem) (fs : Filesystem)
    (w w' : World W) (act : PlanStep) :
  plan_fs rfss fs w = Ok (act, w') ->
  match act with
  | PlanToCompleted it | PlanToPending it => fsr_fs (fsr it) = fs
  | _ => True
  end.
Proof.
  unfold planFilesystem.
  destruct (call_Sender_ListFilesystemVersions ep (Path fs) w) as [[sfsvs | e] w1].
  2: { intros H; injection H as <- _; exact I. }
  destruct (Z.of_nat (List.length sfsvs) <=? 1).
  { intros H; injection H as <- _; reflexivity. }
  destruct (if existsb (fun rfs => String.eqb (Path rfs) (Path fs)) rfss
            then call_Receiver_ListFilesystemVersions ep (Path fs) w1
            else (inl [], w1)) as [[rfsvs | e] w2].
  2: { destruct (is_FilteredError e); intros H; injection H as <- _; exact I. }
  destruct (IncrementalPath rfsvs sfsvs) as [path0 conflict].
  destruct (match conflict with
            | Some c => fst (resolveConflict c)
            | None => path0
            end) as [p | ].
  2: { intros H; injection H as <- _; reflexivity. }
  set (b := match p with
            | [v] => AddStep (buildNewFSReplication fs) None v
            | _ => addIncrementalSteps (buildNewFSReplication fs) p
            end).
  assert (Hb : fsr_fs (fsr (Complete b)) = fs).
  { rewrite Complete_fs. unfold b.
    destruct p as [ | v [ | v' t]]; try reflexivity.
    apply addIncrementalSteps_fs. }
  destruct (fsr_state (fsr (Complete b)) =? FSCompleted).
  { intros H; injection H as <- _; exact Hb. }
  destruct (fsr_state (fsr (Complete b)) =? FSQueued).
  { intros H; injection H as <- _; exact Hb. }
  discriminate.
Qed.

Lemma planLoop_items (rfss sfss : list Filesystem) :
  forall (p c p' c' : list replicationQueueItem) (w w' : World W),
    plan_loop rfss sfss p c w = Ok (PlanDone p' c', w') ->
    forall it, In it (p' ++ c') ->
      In it (p ++ c) \/ In (fsr_fs (fsr it)) sfss.
Proof.
  induction sfss as [ | fs rest IH]; intros p c p' c' w w' H it Hit.
  - simpl in H. injection H as <- <- _. left; exact Hit.
  - simpl in H.
    destruct (plan_fs rfss fs w) as [[act w1] | | ] eqn:E;
      try discriminate.
    pose proof (planFilesystem_item_fs rfss fs w w1 act E) as Hfs.
    simpl in H. destruct act as [err | | x | x].
    + discriminate.
    + destruct (IH _ _ _ _ _ _ H it Hit) as [Hi | Hi]; [left | right; right];
        assumption.
    + destruct (IH _ _ _ _ _ _ H it Hit) as [Hi | Hi];
        [ | right; right; assumption].
      rewrite in_app_iff in Hi. destruct Hi as [Hi | Hi].
      * left. apply in_or_app. left; exact Hi.
      * apply in_app_or in Hi. destruct Hi as [Hi | [<- | []]].
        -- left. apply in_or_app. right; exact Hi.
        -- right. left. symmetry; exact Hfs.
    + destruct (IH _ _ _ _ _ _ H it Hit) as [Hi | Hi];
        [ | right; right; assumption].
      rewrite in_app_iff in Hi. destruct Hi as [Hi | Hi].
      * apply in_app_or in Hi. destruct Hi as [Hi | [<- | []]].
        -- left. apply in_or_app. left; exact Hi.
        -- right. left. symmetry; exact Hfs.
      * left. apply in_or_app. right; exact Hi.
Qed.

(** The loop over a list in two parts. *)
Lemma planLoop_app (rfss l1 l2 : list Filesystem) :
  forall (p c : list replicationQueueItem) (w : World W),
    plan_loop rfss (l1 ++ l2) p c w =
    (' (out, w1) <- plan_loop rfss l1 p c w ;;
     match out with
     | PlanDone p1 c1 => plan_loop rfss l2 p1 c1 w1
     | PlanFailed err => Ok (PlanFailed err, w1)
     end).
Proof.
  induction l1 as [ | fs rest IH]; intros p c w; [reflexivity | ].
  simpl.
  destruct (plan_fs rfss fs w) as [[act w1] | | ]; try reflexivity.
  simpl. destruct act; try reflexivity; apply IH.
Qed.

Lemma planFilesystem_sender_error (rfss : list Filesystem) (fs : Filesystem)
    (w w1 : World W) (err : error) :
  call_Sender_ListFilesystemVersions ep (Path fs) w = (inr err, w1) ->
  plan_fs rfss fs w = Ok (PlanAbort err, w1).
Proof.
  intros H. unfold planFilesystem. rewrite H. reflexivity.
Qed.

Lemma planFilesystem_receiver_error (rfss : list Filesystem) (fs : Filesystem)
    (w w1 w2 : World W) (sfsvs : list FilesystemVersion) (err : error) :
  call_Sender_ListFilesystemVersions ep (Path fs) w = (inl sfsvs, w1) ->
  1 < Z.of_nat (List.length sfsvs) ->
  existsb (fun rfs => String.eqb (Path rfs) (Path fs)) rfss = true ->
  call_Receiver_ListFilesystemVersions ep (Path fs) w1 = (inr err, w2) ->
  plan_fs rfss fs w =
  Ok (if is_FilteredError err then PlanSkip else PlanAbort err, w2).
Proof.
  intros Hs Hlen Hex Hr. unfold planFilesystem. rewrite Hs.
  apply Z.leb_gt in Hlen. rewrite Hlen, Hex, Hr.
  destruct (is_FilteredError err); reflexivity.
Qed.

(** C7.  In [rsfPlanning]: an error of either [ListFilesystems] call, an
    error of the sender's [ListFilesystemVersions] for any filesystem, and
    an error of the receiver's [ListFilesystemVersions] that is not a
    [FilteredError], each make the replication [PlanningError] with that
    error in [planningError].  A [FilteredError] of the receiver's
    [ListFilesystemVersions] for a filesystem leaves [pending] and
    [completed] as the filesystems before it made them, and planning goes
    on with the filesystems after it; when planning then reaches [Working],
    no item of [pending] or [completed] is for that filesystem's path
    (given that the sender lists the path once). *)
Theorem rsfPlanning_filtered_and_errors :
  forall (ctx : Context) (r : Replication) (w0 : World W),
    (forall err w1,
       call_Sender_ListFilesystems ep w0 = (inr err, w1) ->
       enters_PlanningError (rsf_planning ctx r w0) err r w1) /\
    (forall sfss err w1 w2,
       call_Sender_ListFilesystems ep w0 = (inl sfss, w1) ->
       call_Receiver_ListFilesystems ep w1 = (inr err, w2) ->
       enters_PlanningError (rsf_planning ctx r w0) err r w2) /\
    (forall l1 fs rest rfss wa wb p1 c1 w,
       call_Sender_ListFilesystems ep w0 = (inl (l1 ++ fs :: rest), wa) ->
       call_Receiver_ListFilesystems ep wa = (inl rfss, wb) ->
       plan_loop rfss l1 [] [] wb = Ok (PlanDone p1 c1, w) ->
       (forall err w1,
          call_Sender_ListFilesystemVersions ep (Path fs) w = (inr err, w1) ->
          enters_PlanningError (rsf_planning ctx r w0) err r w1) /\
       (forall sfsvs err w1 w2,
          call_Sender_ListFilesystemVersions ep (Path fs) w = (inl sfsvs, w1) ->
          1 < Z.of_nat (List.length sfsvs) ->
          existsb (fun rfs => String.eqb (Path rfs) (Path fs)) rfss = true ->
          call_Receiver_ListFilesystemVersions ep (Path fs) w1 = (inr err, w2) ->
          (is_FilteredError err = false ->
           enters_PlanningError (rsf_planning ctx r w0) err r w2) /\
          (is_FilteredError err = true ->
           rsf_planning ctx r w0 =
           (' (out, w3) <- plan_loop rfss rest p1 c1 w2 ;;
            rsfPlanning_finish out r w3) /\
           ((forall g, In g (l1 ++ rest) -> Path g <> Path fs) ->
            forall s r' w',
              rsf_planning ctx r w0 = Ok (s, r', w') ->
              r_state r' = Working ->
              forall it, In it (r_pending r' ++ r_completed r') ->
                Path (fsr_fs (fsr it)) <> Path fs)))).
Proof.
  intros ctx r w0. unfold enters_PlanningError.
  split; [ | split].
  - intros err w1 H. unfold rsfPlanning. rewrite H. reflexivity.
  - intros sfss err w1 w2 H1 H2. unfold rsfPlanning. rewrite H1, H2.
    reflexivity.
  - intros l1 fs rest rfss wa wb p1 c1 w Hs Hr Hpre.
    assert (Hrun : forall k,
              plan_fs rfss fs w = Ok k ->
              rsf_planning ctx r w0 =
              (' (out, w3) <-
                 (let '(act, w1) := k in
                  match act with
                  | PlanAbort err => Ok (PlanFailed err, w1)
                  | PlanSkip => plan_loop rfss rest p1 c1 w1
                  | PlanToCompleted it => plan_loop rfss rest p1 (c1 ++ [it]) w1
                  | PlanToPending it => plan_loop rfss rest (p1 ++ [it]) c1 w1
                  end) ;;
               rsfPlanning_finish out r w3)).
    { intros k Hk. unfold rsfPlanning. rewrite Hs, Hr.
      rewrite planLoop_app, Hpre. simpl. rewrite Hk.
      destruct k as [act w1]. reflexivity. }
    split.
    + intros err w1 He.
      rewrite (Hrun _ (planFilesystem_sender_error rfss fs w w1 err He)).
      reflexivity.
    + intros sfsvs err w1 w2 Hsv Hlen Hex Hrv.
      pose proof (planFilesystem_receiver_error rfss fs w w1 w2 sfsvs err
                    Hsv Hlen Hex Hrv) as Hk.
      split; intros Hf; rewrite Hf in Hk; rewrite (Hrun _ Hk);
        [reflexivity | ].
      split; [reflexivity | ].
      intros Hpath s r' w' Hres Hst it Hit.
      simpl in Hres.
      destruct (plan_loop rfss rest p1 c1 w2) as [[out w3] | | ] eqn:El;
        try discriminate.
      simpl in Hres. destruct out as [p' c' | e].
      * unfold rsfPlanning_finish, next_of in Hres. simpl in Hres.
        injection Hres as _ <- _. simpl in Hit.
        apply Hpath.
        destruct (planLoop_items rfss rest p1 c1 p' c' w2 w3 El it Hit)
          as [Hi | Hi]; [ | apply in_or_app; right; exact Hi].
        destruct (planLoop_items rfss l1 [] [] p1 c1 wb w Hpre it Hi)
          as [[] | Hi']. apply in_or_app; left; exact Hi'.
      * unfold rsfPlanning_finish, handlePlanningError, next_of in Hres.
        simpl in Hres. injection Hres as _ <- _. discriminate.
Qed.

End PlanningProofs.

(** ** The overall machine: waits, cancellation and the retry counter *)

Section Overall.

Variables W Stream : Type.
Variable ep : EndpointPair W Stream.
Variable IncrementalPath :
  list FilesystemVersion -> list FilesystemVersion ->
  option (list FilesystemVersion) * option error.
Variable resolveConflict : error -> option (list FilesystemVersion) * string.
Variable sort_Slice :
  (replicationQueueItem -> replicationQueueItem -> Res bool) ->
  list replicationQueueItem -> Res (list replicationQueueItem).

Local Notation "'iteration'" :=
  (Drive_iteration ep IncrementalPath resolveConflict sort_Slice).
Local Notation "'loop'" :=
  (Drive_loop ep IncrementalPath resolveConflict sort_Slice).

Lemma select_ctx_done_first (ctx : Context) (now d t : Z) (e : error) :
  ctx_done ctx = Some (t, e) -> t < now + d ->
  select_ctx_timer ctx now d = WakeCtxDone (Z.max now t) e.
Proof.
  intros H Ht. unfold select_ctx_timer. rewrite H.
  apply Z.ltb_lt in Ht. rewrite Ht. reflexivity.
Qed.

Lemma select_timer_first (ctx : Context) (now d : Z) :
  match ctx_done ctx with
  | None => True
  | Some (t, _) => now + d < t
  end ->
  select_ctx_timer ctx now d = WakeTimer (now + d).
Proof.
  unfold select_ctx_timer. destruct (ctx_done ctx) as [[t e] | ]; auto.
  intros Ht.
  destruct (Z.ltb_spec t (now + d)); [lia | ].
  destruct (Z.eqb_spec t (now + d)); [lia | reflexivity].
Qed.

(** C8.  When the context is done before the ten seconds of the wait of
    [PlanningError] or of [WorkingWait] are over, the state function sets
    [ContextDone] and records the context's error in [contextError]; the
    next state function is nil, so the loop of [Drive] ends there, with
    exactly the endpoint calls that had been made when the wait began. *)
Theorem wait_cancelled_ends_the_run :
  forall (inner fuel : nat) (ctx : Context) (retryNow : Chan)
         (s : replicationStateFunc) (r : Replication) (w : World W)
         (t : Z) (e : error),
    s = fn_rsfPlanningError \/ s = fn_rsfWorkingWait ->
    ctx_done ctx = Some (t, e) ->
    t < w_now w + 10 * time_Second ->
    let r' := r_set_contextError (Some e)
                (r_set_state ContextDone
                   (r_set_sleepUntil (w_now w + 10 * time_Second) r)) in
    let w' := at_time (Z.max (w_now w) t) w in
    iteration inner ctx retryNow s r w = Ok (None, r', w') /\
    r_state r' = ContextDone /\
    r_contextError r' = Some e /\
    rsf ContextDone = Ok None /\
    loop inner (S fuel) ctx retryNow (Some s) r w = Ok (r', w') /\
    w_calls w' = w_calls w /\
    w_ep w' = w_ep w.
Proof.
  intros inner fuel ctx retryNow s r w t e Hs Hd Ht r' w'.
  assert (Hit : iteration inner ctx retryNow s r w = Ok (None, r', w')).
  { unfold Drive_iteration, run_rsf.
    destruct Hs as [-> | ->]; unfold rsfPlanningError, rsfWorkingWait;
      rewrite (select_ctx_done_first ctx (w_now w) (10 * time_Second) t e Hd Ht);
      reflexivity. }
  split; [exact Hit | ].
  split; [reflexivity | ]. split; [reflexivity | ]. split; [reflexivity | ].
  split; [ | split; reflexivity].
  simpl. rewrite Hit. simpl. destruct fuel; reflexivity.
Qed.

Lemma Drive_loop_ignores_retryNow (inner fuel : nat) (ctx : Context)
    (retryNow retryNow' : Chan) :
  forall (s : option replicationStateFunc) (r : Replication) (w : World W),
    loop inner fuel ctx retryNow s r w = loop inner fuel ctx retryNow' s r w.
Proof.
  induction fuel as [ | n IH]; intros s r w; [reflexivity | ].
  destruct s as [f | ]; [ | reflexivity].
  simpl. unfold Drive_iteration.
  destruct (run_rsf ep IncrementalPath resolveConflict sort_Slice
              inner f ctx r w) as [[[s' r'] w'] | | ]; try reflexivity.
  simpl. apply IH.
Qed.

(** C3, as the code has it.  [retryNow] reaches no state function: a run of
    [Drive] is the same whatever the channel offers, and unless the context
    is done first, [WorkingWait] returns to [Working] and [PlanningError]
    to [Planning] exactly when the ten-second timer fires. *)
Theorem waits_end_by_timer_whatever_retryNow :
  forall (inner fuel : nat) (ctx : Context) (retryNow : Chan)
         (r : Replication) (w : World W),
    match ctx_done ctx with
    | None => True
    | Some (t, _) => w_now w + 10 * time_Second < t
    end ->
    let deadline := w_now w + 10 * time_Second in
    iteration inner ctx retryNow fn_rsfWorkingWait r w =
    Ok (Some fn_rsfWorking,
        r_set_state Working (r_set_sleepUntil deadline r),
        at_time deadline w) /\
    iteration inner ctx retryNow fn_rsfPlanningError r w =
    Ok (Some fn_rsfPlanning,
        r_set_state Planning (r_set_sleepUntil deadline r),
        at_time deadline w) /\
    Drive ep IncrementalPath resolveConflict sort_Slice
      inner fuel ctx retryNow r w =
    Drive ep IncrementalPath resolveConflict sort_Slice
      inner fuel ctx [] r w.
Proof.
  intros inner fuel ctx retryNow r w Hctx deadline.
  unfold Drive_iteration, run_rsf, rsfWorkingWait, rsfPlanningError.
  rewrite (select_timer_first ctx (w_now w) (10 * time_Second) Hctx).
  split; [reflexivity | ]. split; [reflexivity | ].
  apply Drive_loop_ignores_retryNow.
Qed.

(** [doDrive] only ever assigns one of the five named states. *)
Lemma doDrive_valid_state (f f' : FSReplication) (w w' : World W)
    (st : FSReplicationState) :
  fsr_valid_state (fsr_state f) -> doDrive ep f w = Ok (st, f', w') ->
  fsr_valid_state (fsr_state f') /\ st = fsr_state f'.
Proof.
  unfold fsr_valid_state.
  intros [Hq | [Ha | [Hr | Ht]]] Hd.
  - destruct (fsr_active f) as [a | ] eqn:Ea.
    + rewrite (doDrive_Queued_active W Stream ep f a w Hq Ea) in Hd.
      injection Hd as <- <- _. simpl. auto.
    + destruct (fsr_pending f) as [ | p rest] eqn:Ep.
      * rewrite (doDrive_Queued_empty W Stream ep f w Hq Ea Ep) in Hd.
        injection Hd as <- <- _. simpl. auto 6.
      * rewrite (doDrive_Queued_promote W Stream ep f p rest w Hq Ea Ep) in Hd.
        injection Hd as <- <- _. simpl. auto.
  - destruct (fsr_active f) as [a | ] eqn:Ea.
    + rewrite (doDrive_Active W Stream ep f a w Ha Ea) in Hd.
      destruct (FSReplicationStep_do ep a (fsr_fs f) w)
        as [[[[s1 a'] fs'] w1] | | ]; try discriminate.
      simpl in Hd. injection Hd as <- <- _. split; [ | reflexivity].
      unfold doDrive_commit.
      destruct s1; [ | | | destruct (fsr_pending f)]; simpl; auto 6.
    + unfold doDrive in Hd. rewrite Ha, Ea in Hd. discriminate.
  - rewrite (doDrive_RetryWait W Stream ep f w Hr) in Hd.
    injection Hd as <- <- _. simpl. auto.
  - assert (Hd' : doDrive ep f w = Ok (fsr_state f, f, w)).
    { apply doDrive_terminal. destruct Ht; auto. }
    rewrite Hd' in Hd. injection Hd as <- <- _. auto 6.
Qed.

(** [drive] hands back the state its loop stopped in: never [FSQueued]. *)
Lemma drive_result_terminal (fuel : nat) :
  forall (f f' : FSReplication) (w w' : World W) (st : FSReplicationState),
    fsr_valid_state (fsr_state f) ->
    drive ep fuel f w = Ok (st, f', w') ->
    fs_terminal_for_now st /\ st = fsr_state f'.
Proof.
  assert (Hexit : forall f : FSReplication,
            fsr_valid_state (fsr_state f) ->
            (Z.land (fsr_state f) drive_mask =? 0) = false ->
            fs_terminal_for_now (fsr_state f)).
  { intros f [H | [H | H]] Hm; [rewrite H in Hm; discriminate .. | exact H]. }
  induction fuel as [ | n IH]; intros f f' w w' st Hv Hd; simpl in Hd.
  - destruct (Z.land (fsr_state f) drive_mask =? 0) eqn:Em; [discriminate | ].
    injection Hd as <- <- _. split; [apply Hexit; assumption | reflexivity].
  - destruct (Z.land (fsr_state f) drive_mask =? 0) eqn:Em.
    + destruct (doDrive ep f w) as [[[s1 f1] w1] | | ] eqn:Ed; try discriminate.
      simpl in Hd.
      destruct (doDrive_valid_state f f1 w w1 s1 Hv Ed) as [Hv1 _].
      exact (IH f1 f' w1 w' st Hv1 Hd).
    + injection Hd as <- <- _. split; [apply Hexit; assumption | reflexivity].
Qed.

(** The closing update of [rsfWorking], from any replication whose active
    item is queued, whether a run of [Drive] reaches it or not.  [drive]
    never returns [FSQueued], so the first branch of the update, the one
    that assigns 0 to [retriesSinceLastError], is not taken: the counter
    is incremented when the filesystem ends in [FSRetryWait] and keeps
    its value when the item is filed under [completed]. *)
Lemma rsfWorking_never_resets_the_counter :
  forall (inner : nat) (ctx : Context) (r r' : Replication)
         (a : replicationQueueItem) (w w' : World W)
         (s : option replicationStateFunc),
    r_active r = Some a ->
    fsr_state (fsr a) = FSQueued ->
    rsfWorking ep sort_Slice inner ctx r w = Ok (s, r', w') ->
    match r_active r' with
    | Some a' =>
        fsr_state (fsr a') = FSRetryWait /\
        retriesSinceLastError a' = wrap_int (retriesSinceLastError a + 1)
    | None =>
        exists a',
          r_completed r' = r_completed r ++ [a'] /\
          (fsr_state (fsr a') = FSCompleted \/
           fsr_state (fsr a') = FSPermanentError) /\
          retriesSinceLastError a' = retriesSinceLastError a
    end.
Proof.
  intros inner ctx r r' a w w' s Ha Hq H.
  unfold rsfWorking, rsfWorking_select in H. rewrite Ha in H. simpl in H.
  destruct (rsf (r_state r)) as [n0 | | ]; try discriminate. simpl in H.
  rewrite Hq in H. simpl in H.
  destruct (drive ep inner (fsr a) w) as [[[st f1] w1] | | ] eqn:Ed;
    try discriminate.
  simpl in H.
  assert (Hv : fsr_valid_state (fsr_state (fsr a))) by (left; exact Hq).
  destruct (drive_result_terminal inner (fsr a) f1 w w1 st Hv Ed) as [T Hst].
  unfold rsfWorking_account, next_of in H.
  destruct T as [T | [T | T]]; rewrite T in H; simpl in H;
    match type of H with
    | context [rsf ?x] => destruct (rsf x); try discriminate
    end;
    simpl in H; injection H as _ <- _; simpl.
  - split; [congruence | reflexivity].
  - eexists. split; [reflexivity | ]. simpl. split; [right; congruence | reflexivity].
  - eexists. split; [reflexivity | ]. simpl. split; [left; congruence | reflexivity].
Qed.

(** An active item in [FSRetryWait] is not driven: [rsfWorking] goes to
    [WorkingWait] and leaves the item and the world as they are.  Nothing
    else in the driver calls [doDrive] on it. *)
Lemma rsfWorking_leaves_RetryWait_item (inner : nat) (ctx : Context)
    (r : Replication) (a : replicationQueueItem) (w : World W) :
  r_active r = Some a -> fsr_state (fsr a) = FSRetryWait ->
  bits_TrailingZeros (r_state r) < 6 ->
  rsfWorking ep sort_Slice inner ctx r w =
  Ok (Some fn_rsfWorkingWait, r_set_state WorkingWait r, w).
Proof.
  intros Ha Hr Hs. unfold rsfWorking, rsfWorking_select. rewrite Ha. simpl.
  assert (Hn : exists n0, rsf (r_state r) = Ok n0).
  { unfold rsf. destruct (Z.eqb_spec (bits_TrailingZeros (r_state r))
                            bits_UintSize) as [E | E].
    - unfold bits_UintSize in E. lia.
    - assert (0 <= bits_TrailingZeros (r_state r)).
      { unfold bits_TrailingZeros. generalize (r_state r mod 2 ^ 64).
        assert (G : forall n i x, 0 <= i -> 0 <= trailing_from n i x).
        { induction n; intros i x Hi; simpl; [exact Hi | ].
          destruct (Z.testbit x i); [exact Hi | apply IHn; lia]. }
        intros x. apply G. lia. }
      destruct (Z.to_nat (bits_TrailingZeros (r_state r))) as [ | [ | [ | [ | [ | [ | k]]]]]] eqn:Ek;
        simpl; try (eexists; reflexivity). lia. }
  destruct Hn as [n0 Hn]. rewrite Hn. simpl. rewrite Hr. reflexivity.
Qed.

End Overall.

(** ** The reference sort meets the contract of [sort.Slice] *)

Section ReferenceSortProofs.

Variable A : Type.
Variable less : A -> A -> Res bool.
Variable dom : list A.

Hypothesis less_total :
  forall a b, In a dom -> In b dom -> exists v, less a b = Ok v.
Hypothesis less_irrefl : forall a, In a dom -> less a a = Ok false.
Hypothesis less_trans :
  forall a b c, In a dom -> In b dom -> In c dom ->
    less a b = Ok true -> less b c = Ok true -> less a c = Ok true.

Let not_after (x y : A) : Prop := less y x = Ok false.

Lemma less_true_not_after (x y : A) :
  In x dom -> In y dom -> less x y = Ok true -> not_after x y.
Proof.
  intros Ix Iy H. unfold not_after.
  destruct (less_total y x Iy Ix) as [[ | ] Hv]; [ | exact Hv].
  pose proof (less_trans x y x Ix Iy Ix H Hv) as Hxx.
  rewrite (less_irrefl x Ix) in Hxx. discriminate.
Qed.

Lemma insert_by_spec (x : A) :
  forall l : list A,
    In x dom -> incl l dom -> StronglySorted not_after l ->
    exists l', insert_by less x l = Ok l' /\ Permutation (x :: l) l' /\
               StronglySorted not_after l'.
Proof.
  induction l as [ | y t IH]; intros Ix Hin Hs.
  - exists [x]. repeat split; auto. repeat constructor.
  - assert (Iy : In y dom) by (apply Hin; left; reflexivity).
    assert (Hint : incl t dom) by (intros z Hz; apply Hin; right; exact Hz).
    inversion Hs as [ | y' t' Hst Hft]; subst.
    simpl. destruct (less_total x y Ix Iy) as [[ | ] Hv]; rewrite Hv; simpl.
    + exists (x :: y :: t). split; [reflexivity | ]. split; [reflexivity | ].
      constructor; [exact Hs | ].
      constructor; [apply less_true_not_after; assumption | ].
      rewrite Forall_forall in *. intros z Hz.
      assert (Iz : In z dom) by (apply Hint; exact Hz).
      unfold not_after.
      destruct (less_total z x Iz Ix) as [[ | ] Hzx]; [ | exact Hzx].
      pose proof (less_trans z x y Iz Ix Iy Hzx Hv) as Hzy.
      pose proof (Hft z Hz) as Hn. unfold not_after in Hn.
      rewrite Hn in Hzy. discriminate.
    + destruct (IH Ix Hint Hst) as (t1 & Ht1 & Hp & Hs1).
      rewrite Ht1. simpl. exists (y :: t1).
      split; [reflexivity | ]. split.
      * apply perm_trans with (y :: x :: t); [apply perm_swap | ].
        apply perm_skip. exact Hp.
      * constructor; [exact Hs1 | ].
        rewrite Forall_forall in *. intros z Hz.
        apply (Permutation_in _ (Permutation_sym Hp)) in Hz.
        destruct Hz as [<- | Hz]; [exact Hv | apply Hft; exact Hz].
Qed.

Lemma sort_by_spec :
  forall l : list A,
    incl l dom ->
    exists l', sort_by less l = Ok l' /\ Permutation l l' /\
               StronglySorted not_after l'.
Proof.
  induction l as [ | x t IH]; intros Hin.
  - exists []. repeat split; auto. constructor.
  - assert (Ix : In x dom) by (apply Hin; left; reflexivity).
    assert (Hint : incl t dom) by (intros z Hz; apply Hin; right; exact Hz).
    destruct (IH Hint) as (t1 & Ht1 & Hp & Hs1).
    assert (Hin1 : incl t1 dom).
    { intros z Hz. apply Hint.
      apply (Permutation_in _ (Permutation_sym Hp)). exact Hz. }
    destruct (insert_by_spec x t1 Ix Hin1 Hs1) as (l' & Hl & Hp' & Hs').
    simpl. rewrite Ht1. simpl. exists l'.
    split; [exact Hl | ]. split; [ | exact Hs'].
    apply perm_trans with (x :: t1); [apply perm_skip; exact Hp | exact Hp'].
Qed.

End ReferenceSortProofs.

Lemma sort_by_meets_contract :
  sort_Slice_contract (@sort_by replicationQueueItem).
Proof.
  intros less l Htot Hirr Htrans _.
  exact (sort_by_spec replicationQueueItem less l Htot Hirr Htrans l
           (incl_refl l)).
Qed.

(** * The theorems at concrete inputs *)

Lemma scripted_step_returns (sfss rfss : list Filesystem)
    (sv rv : string -> list FilesystemVersion + error) :
  forall s fs w, exists out,
    FSReplicationStep_do (scripted sfss rfss sv rv) s fs w = Ok out.
Proof.
  intros s fs w.
  unfold FSReplicationStep_do, call_Send, call_Receive, call_Close, logged.
  simpl. destruct (w_ep w) as [ | [e | ] rest]; simpl.
  - eexists; reflexivity.
  - rewrite updateStateError_let. eexists; reflexivity.
  - eexists; reflexivity.
Qed.




(** C3 at a concrete wait: nothing is cancelled and [retryNow] offers a
    value one second into the wait. *)
Lemma waits_end_by_timer_whatever_retryNow_witness :
  Drive_iteration ep_AB plain_IncrementalPath plain_resolveConflict
    (@sort_by replicationQueueItem) 10 ctx_never [1 * time_Second]
    fn_rsfWorkingWait (r_set_state WorkingWait replication_retried)
    (world0 []) =
  Ok (Some fn_rsfWorking,
      r_set_state Working
        (r_set_sleepUntil (10 * time_Second)
           (r_set_state WorkingWait replication_retried)),
      at_time (10 * time_Second) (world0 [])).
Proof.
  exact (proj1 (waits_end_by_timer_whatever_retryNow _ _ ep_AB
                  plain_IncrementalPath plain_resolveConflict
                  (@sort_by replicationQueueItem) 10 5 ctx_never
                  [1 * time_Second]
                  (r_set_state WorkingWait replication_retried)
                  (world0 []) I)).
Defined.

(** C3 as stated fails.  The sender lists [fsA] and [fsB]; the first [Send]
    fails with [io.EOF].  After three iterations of the loop of [Drive] the
    machine is in [WorkingWait] at instant 0; [retryNow] offers a value at
    one second; the fourth iteration ends in [Working] at ten seconds - when
    the timer fires, not before. *)
Lemma retryNow_does_not_cut_WorkingWait :
  let retryNow := [1 * time_Second] in
  let run := fun n =>
    Drive_prefix ep_AB plain_IncrementalPath plain_resolveConflict
      (@sort_by replicationQueueItem) 10 n ctx_never retryNow
      (Some fn_rsfPlanning) replication0 (world0 [Some io_EOF]) in
  match run 3%nat, run 4%nat with
  | Ok (Some fn_rsfWorkingWait, r3, w3), Ok (Some fn_rsfWorking, r4, w4) =>
      r_state r3 = WorkingWait /\ w_now w3 = 0 /\
      In (1 * time_Second) retryNow /\
      w_now w3 <= 1 * time_Second < w_now w3 + 10 * time_Second /\
      r_state r4 = Working /\
      w_now w4 = 10 * time_Second /\
      ~ (w_now w4 < w_now w3 + 10 * time_Second)
  | _, _ => False
  end.
Proof.
  vm_compute.
  repeat split; try discriminate; auto.
Qed.

Lemma replication_unsorted_schedulable :
  Forall schedulable (r_pending replication_unsorted).
Proof.
  unfold replication_unsorted. simpl.
  apply Forall_cons; [right; reflexivity | ].
  apply Forall_cons.
  { left. split; [reflexivity | ]. do 3 eexists. split; reflexivity. }
  apply Forall_cons; [ | apply Forall_nil].
  left. split; [reflexivity | ]. do 3 eexists. split; reflexivity.
Qed.

(** C4 at a concrete queue: one item waiting for a retry, then [fsB], then
    [fsA], whose next step is the earlier one. *)
Lemma rsfWorking_select_sorted_head_witness :
  exists hd tl,
    rsfWorking_select (@sort_by replicationQueueItem) replication_unsorted =
    Ok (Some hd,
        r_set_queues tl (r_completed replication_unsorted) (Some hd)
          replication_unsorted) /\
    Permutation (r_pending replication_unsorted) (hd :: tl) /\
    StronglySorted scheduled_before (hd :: tl).
Proof.
  exact (rsfWorking_select_sorted_head (@sort_by replicationQueueItem)
           sort_by_meets_contract replication_unsorted eq_refl
           replication_unsorted_schedulable).
Defined.

Lemma fsrA_wf : fsr_wf fsrA.
Proof.
  split; [left; reflexivity | discriminate].
Qed.

(** C6 at a concrete filesystem: [fsA] with one step, which succeeds. *)
Lemma drive_returns_terminal_for_now_witness :
  exists f' w',
    drive ep_AB 10 fsrA (world0 []) = Ok (fsr_state f', f', w') /\
    fs_terminal_for_now (fsr_state f').
Proof.
  apply (proj1 (drive_returns_terminal_for_now _ _ ep_AB
                  (scripted_step_returns _ _ _ _) fsrA (world0 []))
           fsrA_wf 10%nat).
  vm_compute. repeat constructor.
Defined.

(** C8 at a concrete wait: the context is cancelled three seconds into the
    wait of [WorkingWait]. *)
Lemma wait_cancelled_ends_the_run_witness :
  exists r' w',
    Drive_loop ep_AB plain_IncrementalPath plain_resolveConflict
      (@sort_by replicationQueueItem) 10 1 ctx_cancelled []
      (Some fn_rsfWorkingWait)
      (r_set_state WorkingWait replication_retried) (world0 []) =
    Ok (r', w') /\
    r_state r' = ContextDone /\
    r_contextError r' = Some (dynError false false "context canceled") /\
    w_now w' = 3 * time_Second /\
    w_calls w' = [].
Proof.
  destruct (wait_cancelled_ends_the_run _ _ ep_AB
              plain_IncrementalPath plain_resolveConflict
              (@sort_by replicationQueueItem) 10 0 ctx_cancelled []
              fn_rsfWorkingWait
              (r_set_state WorkingWait replication_retried) (world0 [])
              (3 * time_Second) (dynError false false "context canceled")
              (or_intror eq_refl) eq_refl eq_refl)
    as (_ & Hs & He & _ & Hl & Hc & _).
  eexists. eexists.
  split; [exact Hl | ]. split; [exact Hs | ]. split; [exact He | ].
  split; [reflexivity | exact Hc].
Defined.

(** C10 at a concrete filesystem: [fsA] active, its [Send] fails with
    [io.EOF]. *)
Lemma doDrive_retries_the_active_step_witness :
  exists f1 f3 a' w',
    doDrive ep_AB fsrA_active (world0 [Some io_EOF]) =
    Ok (FSRetryWait, f1, w') /\
    fsr_active f1 = Some a' /\ step_to a' = v2 /\
    (forall w3,
       doDrive ep_AB f3 w3 =
       (' (stepState, a2, fs2, w4) <-
          FSReplicationStep_do ep_AB a' (fsr_fs f3) w3 ;;
        Ok (fsr_state (doDrive_commit f3 stepState a2 fs2),
            doDrive_commit f3 stepState a2 fs2, w4))).
Proof.
  eassert (E : FSReplicationStep_do ep_AB _ (fsr_fs fsrA_active)
                 (world0 [Some io_EOF]) = Ok (StepRetry, _, _, _))
    by (vm_compute; reflexivity).
  destruct (doDrive_retries_the_active_step _ _ ep_AB fsrA_active _ _ _ _ _
              eq_refl eq_refl E) as [(f1 & f2 & f3 & H) _].
  destruct H as (H1 & _ & H3 & _ & H5 & _ & _ & _ & _ & _ & _ & _ & _ & _ & H15 & _).
  exists f1, f3. eexists. eexists.
  split; [exact H1 | ]. split; [exact H3 | ]. split; [exact H5 | exact H15].
Defined.

(** C7 at concrete endpoints: the receiver has [fsA] and [fsB] and answers
    the version listing of [fsA] with a [FilteredError].  Planning reaches
    [Working] with [fsB] queued and no item for [fsA]. *)
Lemma rsfPlanning_filtered_and_errors_witness :
  exists r' w',
    rsfPlanning ep_filtered plain_IncrementalPath plain_resolveConflict
      ctx_never replication0 (world0 []) = Ok (Some fn_rsfWorking, r', w') /\
    r_state r' = Working /\
    List.map (fun it => Path (fsr_fs (fsr it))) (r_pending r') = ["fsB"] /\
    r_completed r' = [] /\
    forall it, In it (r_pending r' ++ r_completed r') ->
               Path (fsr_fs (fsr it)) <> Path fsA.
Proof.
  eassert (E : rsfPlanning ep_filtered plain_IncrementalPath
                 plain_resolveConflict ctx_never replication0 (world0 []) =
               Ok (_, _, _)) by (vm_compute; reflexivity).
  destruct (rsfPlanning_filtered_and_errors _ _ ep_filtered
              plain_IncrementalPath plain_resolveConflict
              ctx_never replication0 (world0 [])) as (_ & _ & H).
  edestruct (H [] fsA [fsB]) as [_ H4];
    [reflexivity | reflexivity | reflexivity | ].
  edestruct H4 as [_ H5]; [reflexivity | reflexivity | reflexivity | reflexivity | ].
  destruct (H5 eq_refl) as [_ Hno].
  eexists. eexists.
  split; [exact E | ]. split; [reflexivity | ]. split; [reflexivity | ].
  split; [reflexivity | ].
  apply (fun Hp => Hno Hp _ _ _ E eq_refl).
  intros g [<- | []]. discriminate.
Defined.

(** * Further properties of the driver

    ** Vocabulary *)

Set Implicit Arguments.

(** What identifies a step: the pair of versions it transfers. *)
Definition step_versions (s : FSReplicationStep)
    : option FilesystemVersion * FilesystemVersion :=
  (step_from s, step_to s).

Definition opt_list (A : Type) (o : option A) : list A :=
  match o with
  | Some a => [a]
  | None => []
  end.

(** The steps of a filesystem in the order they are executed: those done,
    the one in progress, those to come. *)
Definition fsr_steps (f : FSReplication) : list FSReplicationStep :=
  fsr_completed f ++ opt_list (fsr_active f) ++ fsr_pending f.

(** The queue items of a replication, wherever they are. *)
Definition r_items (r : Replication) : list replicationQueueItem :=
  r_pending r ++ opt_list (r_active r) ++ r_completed r.

Definition item_path (it : replicationQueueItem) : string :=
  Path (fsr_fs (fsr it)).

(** A step as [AddStep] creates it. *)
Definition fresh_step (s : FSReplicationStep) : Prop :=
  step_state s = StepPending /\ step_err s = None.

(** The two shapes of item that planning files. *)
Definition planned_pending_item (it : replicationQueueItem) : Prop :=
  retriesSinceLastError it = 0 /\
  fsr_state (fsr it) = FSQueued /\
  fsr_active (fsr it) = None /\
  fsr_completed (fsr it) = [] /\
  fsr_permanentError (fsr it) = None /\
  fsr_pending (fsr it) <> [] /\
  Forall fresh_step (fsr_pending (fsr it)).

Definition planned_completed_item (it : replicationQueueItem) : Prop :=
  retriesSinceLastError it = 0 /\
  fsr_active (fsr it) = None /\
  fsr_completed (fsr it) = [] /\
  fsr_pending (fsr it) = [] /\
  ((fsr_state (fsr it) = FSCompleted /\ fsr_permanentError (fsr it) = None) \/
   fsr_state (fsr it) = FSPermanentError).

(** The builder as [rsfPlanning] drives it for a path. *)
Definition build_for_path (fs : Filesystem) (path : list FilesystemVersion)
    : FSReplication :=
  match path with
  | [v] => AddStep (buildNewFSReplication fs) None v
  | _ => addIncrementalSteps (buildNewFSReplication fs) path
  end.

(** Endpoints whose step executions return, and only with outcomes
    [allowed] admits. *)
Definition steps_end_in (W Stream : Type) (ep : EndpointPair W Stream)
    (allowed : FSReplicationStepState -> bool) : Prop :=
  forall s fs w, exists st s' fs' w',
    FSReplicationStep_do ep s fs w = Ok (st, s', fs', w') /\
    allowed st = true.

Definition no_retry (st : FSReplicationStepState) : bool :=
  match st with
  | StepRetry => false
  | _ => true
  end.

Definition only_completed (st : FSReplicationStepState) : bool :=
  match st with
  | StepCompleted => true
  | _ => false
  end.

(** [sort.Slice] only swaps elements: whatever it returns is a
    permutation of what it was given. *)
Definition sort_Slice_permutes
    (sort_Slice : (replicationQueueItem -> replicationQueueItem -> Res bool) ->
                  list replicationQueueItem -> Res (list replicationQueueItem))
    : Prop :=
  forall less l l', sort_Slice less l = Ok l' -> Permutation l l'.

(** A queued item the scheduler can pick and [drive] can finish within
    [inner] calls of [doDrive]. *)
Definition ready_item (inner : nat) (it : replicationQueueItem) : Prop :=
  fsr_state (fsr it) = FSQueued /\
  (exists p rest ct, fsr_pending (fsr it) = p :: rest /\
                     CreationAsTime (step_to p) = Some ct) /\
  (drive_budget (fsr it) <= inner)%nat.

Unset Implicit Arguments.

(** ** The dispatch [ReplicationState.rsf] *)

Lemma trailing_from_ge (n : nat) :
  forall i x, i <= trailing_from n i x.
Proof.
  induction n as [ | n IH]; intros i x; simpl; [lia | ].
  destruct (Z.testbit x i); [lia | ].
  specialize (IH (i + 1) x). lia.
Qed.

Lemma trailing_from_six (n : nat) (x : Z) :
  trailing_from (6 + n) 0 x =
  if Z.testbit x 0 then 0
  else if Z.testbit x 1 then 1
  else if Z.testbit x 2 then 2
  else if Z.testbit x 3 then 3
  else if Z.testbit x 4 then 4
  else if Z.testbit x 5 then 5
  else trailing_from n 6 x.
Proof.
  reflexivity.
Qed.

(** [rsf] looks at the lowest set bit of the state word only: it returns
    the state function of that bit, nil for [Completed] and [ContextDone],
    and panics when none of the six low bits is set - for the zero value and
    for any word whose lowest set bit is beyond [ContextDone]. *)
Theorem rsf_dispatches_on_lowest_bit :
  forall s : ReplicationState,
    rsf s =
    if Z.testbit s 0 then Ok (Some fn_rsfPlanning)
    else if Z.testbit s 1 then Ok (Some fn_rsfPlanningError)
    else if Z.testbit s 2 then Ok (Some fn_rsfWorking)
    else if Z.testbit s 3 then Ok (Some fn_rsfWorkingWait)
    else if Z.testbit s 4 then Ok None
    else if Z.testbit s 5 then Ok None
    else Panic.
Proof.
  intros s. unfold rsf, bits_TrailingZeros.
  change 64%nat with (6 + 58)%nat. rewrite trailing_from_six.
  rewrite !Z.mod_pow2_bits_low by lia.
  destruct (Z.testbit s 0); [reflexivity | ].
  destruct (Z.testbit s 1); [reflexivity | ].
  destruct (Z.testbit s 2); [reflexivity | ].
  destruct (Z.testbit s 3); [reflexivity | ].
  destruct (Z.testbit s 4); [reflexivity | ].
  destruct (Z.testbit s 5); [reflexivity | ].
  pose proof (trailing_from_ge 58 6 (s mod 2 ^ 64)) as Hge.
  set (idx := trailing_from 58 6 (s mod 2 ^ 64)) in *.
  destruct (idx =? bits_UintSize); [reflexivity | ].
  assert (Hn : nth_error
                 [Some fn_rsfPlanning; Some fn_rsfPlanningError;
                  Some fn_rsfWorking; Some fn_rsfWorkingWait; None; None]
                 (Z.to_nat idx) = None).
  { apply nth_error_None. cbn [List.length]. lia. }
  rewrite Hn. reflexivity.
Qed.

(** ** The builder and the plan *)

Lemma addIncrementalSteps_fields (path : list FilesystemVersion) :
  forall b : FSReplication,
    let b' := addIncrementalSteps b path in
    fsr_pending b' =
    fsr_pending b ++
    map (fun ft => {| step_state := StepPending; step_from := Some (fst ft);
                      step_to := snd ft; step_err := None |})
        (combine path (tl path)) /\
    fsr_state b' = fsr_state b /\ fsr_active b' = fsr_active b /\
    fsr_completed b' = fsr_completed b /\
    fsr_permanentError b' = fsr_permanentError b.
Proof.
  induction path as [ | v [ | v' t] IH]; intros b.
  - simpl. rewrite app_nil_r. auto.
  - simpl. rewrite app_nil_r. auto.
  - specialize (IH (AddStep b (Some v) v')).
    change (addIncrementalSteps b (v :: v' :: t))
      with (addIncrementalSteps (AddStep b (Some v) v') (v' :: t)).
    cbv zeta in *. destruct IH as (Hp & Hs & Ha & Hc & He).
    rewrite Hp, Hs, Ha, Hc, He. simpl. rewrite <- app_assoc. auto.
Qed.

Lemma combine_Some_versions (path : list FilesystemVersion) :
  map step_versions
    (map (fun ft => {| step_state := StepPending; step_from := Some (fst ft);
                       step_to := snd ft; step_err := None |})
         (combine path (tl path))) =
  combine (map Some path) (tl path).
Proof.
  generalize (tl path). induction path as [ | v t IH]; intros l;
    [reflexivity | ].
  destruct l as [ | x l]; [reflexivity | ].
  simpl. unfold step_versions at 1. simpl. rewrite IH. reflexivity.
Qed.

Lemma build_for_path_fields :
  forall (fs : Filesystem) (path : list FilesystemVersion),
    let b := build_for_path fs path in
    map step_versions (fsr_pending b) =
    match path with
    | [v] => [(None, v)]
    | _ => combine (map Some path) (tl path)
    end /\
    List.length (fsr_pending b) =
    match path with
    | [_] => 1%nat
    | _ => (List.length path - 1)%nat
    end /\
    Forall fresh_step (fsr_pending b) /\
    fsr_active b = None /\ fsr_completed b = [] /\ fsr_fs b = fs /\
    retriesSinceLastError (Complete b) = 0 /\
    fsr_pending (fsr (Complete b)) = fsr_pending b /\
    fsr_state (fsr (Complete b)) =
    match path with
    | [] => FSCompleted
    | _ => FSQueued
    end.
Proof.
  intros fs path b.
  assert (Hfresh : forall l : list (FilesystemVersion * FilesystemVersion),
            Forall fresh_step
              (map (fun ft => {| step_state := StepPending;
                                 step_from := Some (fst ft);
                                 step_to := snd ft; step_err := None |}) l)).
  { intros l. apply Forall_forall. intros s Hs. apply in_map_iff in Hs.
    destruct Hs as (ft & <- & _). split; reflexivity. }
  destruct path as [ | v [ | v' t]].
  - repeat split; try reflexivity. constructor.
  - repeat split; try reflexivity.
    repeat constructor.
  - unfold b, build_for_path.
    destruct (addIncrementalSteps_fields (v :: v' :: t)
                (buildNewFSReplication fs)) as (Hp & Hs & Ha & Hc & He).
    cbv zeta in *.
    set (b' := addIncrementalSteps (buildNewFSReplication fs) (v :: v' :: t))
      in *.
    change (fsr_pending (buildNewFSReplication fs))
      with (@nil FSReplicationStep) in Hp.
    rewrite app_nil_l in Hp.
    assert (Hlen : List.length (fsr_pending b') =
                   (List.length (v :: v' :: t) - 1)%nat).
    { rewrite Hp, length_map, length_combine. cbn [List.length tl]. lia. }
    split; [rewrite Hp; apply combine_Some_versions | ].
    split; [exact Hlen | ].
    split; [rewrite Hp; apply Hfresh | ].
    split; [rewrite Ha; reflexivity | ].
    split; [rewrite Hc; reflexivity | ].
    split; [apply addIncrementalSteps_fs | ].
    unfold Complete.
    assert (Hpos : (0 <? Z.of_nat (List.length (fsr_pending b'))) = true).
    { apply Z.ltb_lt. rewrite Hlen. cbn [List.length]. lia. }
    rewrite Hpos. repeat split; reflexivity.
Qed.

(** The steps planning builds for a path.  One version gives one full send
    of it; versions [v0, ..., vk] give the [k] steps [v0 => v1], ...,
    [v(k-1) => vk] in that order; no version gives no step.  Every step
    starts as [StepPending] without error, nothing is active or completed,
    and [Complete] files the filesystem as [FSQueued] when there is a step
    and as [FSCompleted] when there is none, with a retry counter of 0. *)
Theorem build_for_path_steps :
  forall (fs : Filesystem) (path : list FilesystemVersion),
    let b := build_for_path fs path in
    map step_versions (fsr_pending b) =
    match path with
    | [v] => [(None, v)]
    | _ => combine (map Some path) (tl path)
    end /\
    List.length (fsr_pending b) =
    match path with
    | [_] => 1%nat
    | _ => (List.length path - 1)%nat
    end /\
    Forall fresh_step (fsr_pending b) /\
    fsr_active b = None /\ fsr_completed b = [] /\ fsr_fs b = fs /\
    retriesSinceLastError (Complete b) = 0 /\
    fsr_pending (fsr (Complete b)) = fsr_pending b /\
    fsr_state (fsr (Complete b)) =
    match path with
    | [] => FSCompleted
    | _ => FSQueued
    end.
Proof.
  exact build_for_path_fields.
Qed.

Section PlanShape.

Variables W Stream : Type.
Variable ep : EndpointPair W Stream.
Variable IncrementalPath :
  list FilesystemVersion -> list FilesystemVersion ->
  option (list FilesystemVersion) * option error.
Variable resolveConflict : error -> option (list FilesystemVersion) * string.

Local Notation "'plan_fs'" :=
  (planFilesystem ep IncrementalPath resolveConflict).
Local Notation "'plan_loop'" := (planLoop ep IncrementalPath resolveConflict).
Local Notation "'rsf_planning'" :=
  (rsfPlanning ep IncrementalPath resolveConflict).

Lemma Complete_build_for_path_shape (fs : Filesystem)
    (p : list FilesystemVersion) :
  let it := Complete (build_for_path fs p) in
  (fsr_state (fsr it) = FSCompleted /\ planned_completed_item it) \/
  (fsr_state (fsr it) = FSQueued /\ planned_pending_item it).
Proof.
  destruct (build_for_path_fields fs p)
    as (_ & Hlen & Hfresh & Ha & Hc & _ & Hr & Hp & Hs).
  cbv zeta in *.
  set (b := build_for_path fs p) in *.
  assert (Hfields : fsr_active (fsr (Complete b)) = fsr_active b /\
                    fsr_completed (fsr (Complete b)) = fsr_completed b /\
                    fsr_permanentError (fsr (Complete b)) =
                    fsr_permanentError b).
  { unfold Complete.
    destruct (0 <? Z.of_nat (List.length (fsr_pending b))); auto. }
  destruct Hfields as (Fa & Fc & Fe).
  assert (He : fsr_permanentError b = None).
  { unfold b, build_for_path. destruct p as [ | v [ | v' t]]; try reflexivity.
    destruct (addIncrementalSteps_fields (v :: v' :: t)
                (buildNewFSReplication fs)) as (_ & _ & _ & _ & E).
    exact E. }
  destruct p as [ | v t].
  - left. split; [exact Hs | ].
    unfold planned_completed_item. rewrite Hr, Fa, Fc, Fe, Hp, Ha, Hc, He, Hs.
    repeat split; auto;
      try (destruct (fsr_pending b); [reflexivity | discriminate Hlen]).
  - right. split; [exact Hs | ].
    unfold planned_pending_item. rewrite Hr, Fa, Fc, Fe, Hp, Ha, Hc, He, Hs.
    repeat split; auto;
      try (intros E; rewrite E in Hlen; destruct t; discriminate Hlen).
Qed.

Lemma planFilesystem_item_shape_fs (fs : Filesystem)
    (p : list FilesystemVersion) :
  fsr_fs (fsr (Complete (build_for_path fs p))) = fs.
Proof.
  rewrite Complete_fs.
  destruct (build_for_path_fields fs p) as (_ & _ & _ & _ & _ & H & _).
  exact H.
Qed.

Lemma planFilesystem_total_shape :
  forall (rfss : list Filesystem) (fs : Filesystem) (w : World W),
    exists act w',
      plan_fs rfss fs w = Ok (act, w') /\
      w_calls w' =
      w_calls w ++
      CallSenderListFilesystemVersions (Path fs) ::
      match fst (call_Sender_ListFilesystemVersions ep (Path fs) w) with
      | inl sfsvs =>
          if (1 <? Z.of_nat (List.length sfsvs)) &&
             existsb (fun rfs => String.eqb (Path rfs) (Path fs)) rfss
          then [CallReceiverListFilesystemVersions (Path fs)]
          else []
      | inr _ => []
      end /\
      match fst (call_Sender_ListFilesystemVersions ep (Path fs) w) with
      | inl sfsvs =>
          Z.of_nat (List.length sfsvs) <= 1 ->
          act = PlanToCompleted
                  (newReplicationQueueItemPermanentError fs
                     (Some (errors_New "sender does not have any versions")))
      | inr err => act = PlanAbort err
      end /\
      match act with
      | PlanToPending it => planned_pending_item it /\ fsr_fs (fsr it) = fs
      | PlanToCompleted it => planned_completed_item it /\ fsr_fs (fsr it) = fs
      | PlanAbort _ | PlanSkip => True
      end.
Proof.
  intros rfss fs w. unfold planFilesystem.
  unfold call_Sender_ListFilesystemVersions,
    call_Receiver_ListFilesystemVersions, logged.
  destruct (Sender_ListFilesystemVersions ep (w_ep w) (Path fs))
    as [[sfsvs | e] e1]; cbn [fst].
  2: { eexists; eexists. split; [reflexivity | ]. simpl. auto. }
  destruct (Z.leb_spec (Z.of_nat (List.length sfsvs)) 1) as [Hle | Hgt].
  { assert (Hf : (1 <? Z.of_nat (List.length sfsvs)) = false)
      by (apply Z.ltb_ge; exact Hle).
    rewrite Hf. eexists; eexists. split; [reflexivity | ].
    simpl. repeat split; auto. }
  assert (Ht : (1 <? Z.of_nat (List.length sfsvs)) = true)
    by (apply Z.ltb_lt; exact Hgt).
  rewrite Ht. cbn [andb].
  destruct (existsb (fun rfs => String.eqb (Path rfs) (Path fs)) rfss).
  - cbn [w_ep].
    destruct (Receiver_ListFilesystemVersions ep e1 (Path fs))
      as [[rfsvs | e] e2].
    2: { destruct (is_FilteredError e); eexists; eexists;
           (split; [reflexivity | ]); simpl; rewrite <- app_assoc;
           repeat split; auto; intros; lia. }
    destruct (IncrementalPath rfsvs sfsvs) as [path0 conflict].
    destruct (match conflict with
              | Some c => fst (resolveConflict c)
              | None => path0
              end) as [p | ].
    2: { eexists; eexists. split; [reflexivity | ]. simpl.
         rewrite <- app_assoc. repeat split; auto; try (intros; lia). }
    change (match p with
            | [v] => AddStep (buildNewFSReplication fs) None v
            | _ => addIncrementalSteps (buildNewFSReplication fs) p
            end) with (build_for_path fs p).
    pose proof (planFilesystem_item_shape_fs fs p) as Hfs.
    destruct (Complete_build_for_path_shape fs p) as [[Hs Hsh] | [Hs Hsh]];
      cbv zeta in *; rewrite Hs; simpl Z.eqb; cbv iota;
      eexists; eexists; (split; [reflexivity | ]);
      (split; [simpl; rewrite <- app_assoc; reflexivity | ]);
      (split; [intros; lia | ]); (split; [exact Hsh | exact Hfs]).
  - destruct (IncrementalPath [] sfsvs) as [path0 conflict].
    destruct (match conflict with
              | Some c => fst (resolveConflict c)
              | None => path0
              end) as [p | ].
    2: { eexists; eexists. split; [reflexivity | ]. simpl.
         repeat split; auto; try (intros; lia). }
    change (match p with
            | [v] => AddStep (buildNewFSReplication fs) None v
            | _ => addIncrementalSteps (buildNewFSReplication fs) p
            end) with (build_for_path fs p).
    pose proof (planFilesystem_item_shape_fs fs p) as Hfs.
    destruct (Complete_build_for_path_shape fs p) as [[Hs Hsh] | [Hs Hsh]];
      cbv zeta in *; rewrite Hs; simpl Z.eqb; cbv iota;
      eexists; eexists; (split; [reflexivity | ]);
      (split; [reflexivity | ]);
      (split; [intros; lia | ]); (split; [exact Hsh | exact Hfs]).
Qed.

(** One pass of the planning loop: it never panics; it asks the sender for
    the versions, and the receiver only when the sender has more than one
    version and the receiver lists the path; a sender with at most one
    version is filed under [completed] as [FSPermanentError] with the error
    "sender does not have any versions"; and whatever is filed has one of
    the two planned shapes. *)
Theorem planFilesystem_calls_and_shape :
  forall (rfss : list Filesystem) (fs : Filesystem) (w : World W),
    exists act w',
      plan_fs rfss fs w = Ok (act, w') /\
      w_calls w' =
      w_calls w ++
      CallSenderListFilesystemVersions (Path fs) ::
      match fst (call_Sender_ListFilesystemVersions ep (Path fs) w) with
      | inl sfsvs =>
          if (1 <? Z.of_nat (List.length sfsvs)) &&
             existsb (fun rfs => String.eqb (Path rfs) (Path fs)) rfss
          then [CallReceiverListFilesystemVersions (Path fs)]
          else []
      | inr _ => []
      end /\
      match fst (call_Sender_ListFilesystemVersions ep (Path fs) w) with
      | inl sfsvs =>
          Z.of_nat (List.length sfsvs) <= 1 ->
          act = PlanToCompleted
                  (newReplicationQueueItemPermanentError fs
                     (Some (errors_New "sender does not have any versions")))
      | inr err => act = PlanAbort err
      end /\
      match act with
      | PlanToPending it => planned_pending_item it /\ fsr_fs (fsr it) = fs
      | PlanToCompleted it => planned_completed_item it /\ fsr_fs (fsr it) = fs
      | PlanAbort _ | PlanSkip => True
      end.
Proof.
  exact planFilesystem_total_shape.
Qed.

Lemma planLoop_total (rfss sfss : list Filesystem) :
  forall (p c : list replicationQueueItem) (w : World W),
    Forall planned_pending_item p -> Forall planned_completed_item c ->
    exists out w',
      plan_loop rfss sfss p c w = Ok (out, w') /\
      match out with
      | PlanDone p' c' =>
          Forall planned_pending_item p' /\ Forall planned_completed_item c'
      | PlanFailed _ => True
      end.
Proof.
  induction sfss as [ | fs rest IH]; intros p c w Hp Hc.
  - eexists; eexists. split; [reflexivity | ]. simpl. split; assumption.
  - destruct (planFilesystem_total_shape rfss fs w)
      as (act & w1 & E & _ & _ & Hsh).
    simpl. rewrite E. simpl. destruct act as [err | | it | it].
    + eexists; eexists. split; [reflexivity | exact I].
    + apply IH; assumption.
    + apply IH; [assumption | ].
      apply Forall_app. split; [assumption | ].
      constructor; [apply Hsh | constructor].
    + apply IH; [ | assumption].
      apply Forall_app. split; [assumption | ].
      constructor; [apply Hsh | constructor].
Qed.

Lemma rsfPlanning_two_ways_out :
  forall (ctx : Context) (r : Replication) (w : World W),
    exists s r' w',
      rsf_planning ctx r w = Ok (s, r', w') /\
      r_active r' = r_active r /\
      r_contextError r' = r_contextError r /\
      r_sleepUntil r' = r_sleepUntil r /\
      ((s = Some fn_rsfWorking /\ r_state r' = Working /\
        r_planningError r' = None /\
        Forall planned_pending_item (r_pending r') /\
        Forall planned_completed_item (r_completed r')) \/
       (s = Some fn_rsfPlanningError /\ r_state r' = PlanningError /\
        r_planningError r' <> None /\
        r_pending r' = r_pending r /\ r_completed r' = r_completed r)).
Proof.
  intros ctx r w.
  assert (Herr : forall (err : error) (w1 : World W),
            exists s r' w',
              handlePlanningError err r w1 = Ok (s, r', w') /\
              r_active r' = r_active r /\
              r_contextError r' = r_contextError r /\
              r_sleepUntil r' = r_sleepUntil r /\
              ((s = Some fn_rsfWorking /\ r_state r' = Working /\
                r_planningError r' = None /\
                Forall planned_pending_item (r_pending r') /\
                Forall planned_completed_item (r_completed r')) \/
               (s = Some fn_rsfPlanningError /\ r_state r' = PlanningError /\
                r_planningError r' <> None /\
                r_pending r' = r_pending r /\ r_completed r' = r_completed r))).
  { intros err w1. eexists; eexists; eexists.
    split; [reflexivity | ]. simpl.
    split; [reflexivity | ]. split; [reflexivity | ]. split; [reflexivity | ].
    right. repeat split; auto. discriminate. }
  unfold rsfPlanning.
  destruct (call_Sender_ListFilesystems ep w) as [[sfss | err] w1];
    [ | apply Herr].
  destruct (call_Receiver_ListFilesystems ep w1) as [[rfss | err] w2];
    [ | apply Herr].
  destruct (planLoop_total rfss sfss [] [] w2 (Forall_nil _) (Forall_nil _))
    as (out & w3 & E & Hout).
  rewrite E. simpl. destruct out as [p' c' | err]; [ | apply Herr].
  eexists; eexists; eexists. split; [reflexivity | ]. simpl.
  split; [reflexivity | ]. split; [reflexivity | ]. split; [reflexivity | ].
  left. destruct Hout as [Hp Hc]. repeat split; auto.
Qed.

(** [rsfPlanning] never panics and has two ways out.  Either it reaches
    [Working] with [planningError] cleared, every item of [pending] queued
    with at least one fresh step and a retry counter of 0, and every item
    of [completed] without steps, [FSCompleted] or [FSPermanentError]; or
    it reaches [PlanningError] with an error recorded and [pending] and
    [completed] as they were.  In both cases [active], [contextError] and
    [sleepUntil] are left alone. *)
Theorem rsfPlanning_outcomes :
  forall (ctx : Context) (r : Replication) (w : World W),
    exists s r' w',
      rsf_planning ctx r w = Ok (s, r', w') /\
      r_active r' = r_active r /\
      r_contextError r' = r_contextError r /\
      r_sleepUntil r' = r_sleepUntil r /\
      ((s = Some fn_rsfWorking /\ r_state r' = Working /\
        r_planningError r' = None /\
        Forall planned_pending_item (r_pending r') /\
        Forall planned_completed_item (r_completed r')) \/
       (s = Some fn_rsfPlanningError /\ r_state r' = PlanningError /\
        r_planningError r' <> None /\
        r_pending r' = r_pending r /\ r_completed r' = r_completed r)).
Proof.
  exact rsfPlanning_two_ways_out.
Qed.

End PlanShape.

(** ** More on the step executor and the per-filesystem machine *)

Section FurtherPerFilesystem.

Variables W Stream : Type.
Variable ep : EndpointPair W Stream.

(** The calls of one step execution, by what the endpoints returned.  It
    always begins with the one [Send].  When [Send] returned an error or no
    stream, nothing else is called and the step is not [StepCompleted].
    [Receive] is called exactly when [Send] returned a stream without
    error: once, on that stream, for the same filesystem (a nil [SendRes]
    next to the stream is a nil dereference).  When [Receive] returned
    without error the step is [StepCompleted] and the stream is not closed;
    when it returned an error the executor closes the stream, and that is
    the only case in which it does so. *)
Theorem FSReplicationStep_do_call_sequence :
  forall (s : FSReplicationStep) (fs : Filesystem) (w : World W),
    let sr := mkSendReq (fs_set_ResumeToken "" fs) s in
    let '((sres, sstream, serr), e1) := Sender_Send ep (w_ep w) sr in
    match serr, sstream with
    | None, Some stream =>
        match sres with
        | None => FSReplicationStep_do ep s fs w = Panic
        | Some res =>
            let rr := {| rr_Filesystem := Path fs;
                         rr_ClearResumeToken := negb (UsedResumeToken res) |} in
            let '(rerr, e2) := Receiver_Receive ep e1 rr stream in
            match rerr with
            | None =>
                exists s' fs',
                  FSReplicationStep_do ep s fs w =
                  Ok (StepCompleted, s', fs',
                      {| w_ep := e2; w_now := w_now w;
                         w_calls := w_calls w ++
                                    [CallSend sr; CallReceive rr] |})
            | Some _ =>
                exists st s' fs',
                  st <> StepCompleted /\
                  FSReplicationStep_do ep s fs w =
                  Ok (st, s', fs',
                      {| w_ep := Stream_Close ep e2 stream; w_now := w_now w;
                         w_calls := w_calls w ++
                                    [CallSend sr; CallReceive rr;
                                     CallStreamClose] |})
            end
        end
    | _, _ =>
        exists st s' fs',
          st <> StepCompleted /\
          FSReplicationStep_do ep s fs w =
          Ok (st, s', fs',
              {| w_ep := e1; w_now := w_now w;
                 w_calls := w_calls w ++ [CallSend sr] |})
    end.
Proof.
  intros s fs w sr. subst sr.
  unfold FSReplicationStep_do, call_Send, call_Receive, call_Close, logged.
  destruct (Sender_Send ep (w_ep w) (mkSendReq (fs_set_ResumeToken "" fs) s))
    as [[[sres sstream] serr] e1].
  assert (NC : forall e, fst (updateStateError s e) <> StepCompleted).
  { intros e. destruct (updateStateError_not_pending s e) as [E | E];
      rewrite E; discriminate. }
  destruct serr as [e | ].
  - rewrite updateStateError_let.
    destruct sstream; (do 3 eexists; split; [apply (NC e) | reflexivity]).
  - destruct sstream as [stream | ].
    + destruct sres as [res | ]; [ | reflexivity].
      cbn [w_ep w_now w_calls].
      change (Path (fs_set_ResumeToken "" fs)) with (Path fs).
      match goal with
      | |- context [Receiver_Receive ?a ?b ?c ?d] =>
          destruct (Receiver_Receive a b c d) as [[e | ] e2]
      end.
      * rewrite updateStateError_let. cbn [w_ep w_now w_calls].
        rewrite <- !app_assoc. cbn [app].
        do 3 eexists. split; [apply (NC e) | reflexivity].
      * cbn [updateStateCompleted].
        rewrite <- !app_assoc. cbn [app].
        do 2 eexists. reflexivity.
    + rewrite updateStateError_let.
      do 3 eexists. split; [apply (NC err_no_stream) | reflexivity].
Qed.

Lemma doDrive_keeps_steps (f f' : FSReplication) (w w' : World W)
    (st : FSReplicationState) :
  doDrive ep f w = Ok (st, f', w') ->
  map step_versions (fsr_steps f') = map step_versions (fsr_steps f) /\
  Path (fsr_fs f') = Path (fsr_fs f) /\
  fsr_permanentError f' = fsr_permanentError f /\
  (exists done, fsr_completed f' = fsr_completed f ++ done) /\
  (exists taken, fsr_pending f = taken ++ fsr_pending f').
Proof.
  assert (Hsame : forall g : FSReplication,
            fsr_completed g = fsr_completed f ->
            fsr_active g = fsr_active f ->
            fsr_pending g = fsr_pending f ->
            fsr_fs g = fsr_fs f ->
            fsr_permanentError g = fsr_permanentError f ->
            map step_versions (fsr_steps g) = map step_versions (fsr_steps f) /\
            Path (fsr_fs g) = Path (fsr_fs f) /\
            fsr_permanentError g = fsr_permanentError f /\
            (exists done, fsr_completed g = fsr_completed f ++ done) /\
            (exists taken, fsr_pending f = taken ++ fsr_pending g)).
  { intros g Hc Ha Hp Hfs He. unfold fsr_steps. rewrite Hc, Ha, Hp, Hfs, He.
    repeat split; auto.
    - exists []. rewrite app_nil_r. reflexivity.
    - exists []. reflexivity. }
  unfold doDrive.
  destruct ((fsr_state f =? FSPermanentError) || (fsr_state f =? FSCompleted)).
  { intros H. injection H as _ <- _. apply Hsame; reflexivity. }
  destruct (fsr_state f =? FSRetryWait).
  { intros H. injection H as _ <- _. apply Hsame; reflexivity. }
  destruct (fsr_state f =? FSQueued).
  { destruct (fsr_active f) as [a | ] eqn:Ea.
    - intros H. injection H as _ <- _. apply Hsame; auto.
    - destruct (fsr_pending f) as [ | p rest] eqn:Ep.
      + intros H. injection H as _ <- _. apply Hsame; auto.
      + intros H. injection H as _ <- _. unfold fsr_steps. simpl.
        rewrite Ea, Ep. simpl. repeat split; auto.
        * exists []. rewrite app_nil_r. reflexivity.
        * exists [p]. reflexivity. }
  destruct (fsr_state f =? FSActive); [ | discriminate].
  destruct (fsr_active f) as [a | ] eqn:Ea; [ | discriminate].
  destruct (FSReplicationStep_do ep a (fsr_fs f) w)
    as [[[[s1 a'] fs'] w1] | | ] eqn:Ed; try discriminate.
  simpl. intros H. injection H as _ <- _.
  destruct (FSReplicationStep_do_facts W Stream ep a (fsr_fs f) w _ _ _ _ Ed)
    as (NP & _ & Hfrom & Hto & Hfs & _).
  assert (Hv : step_versions a' = step_versions a).
  { unfold step_versions. rewrite Hfrom, Hto. reflexivity. }
  assert (Hpath : Path fs' = Path (fsr_fs f)) by (subst fs'; reflexivity).
  unfold doDrive_commit, fsr_steps. rewrite Ea.
  destruct s1; [contradiction NP; reflexivity | | | ].
  - simpl. rewrite !map_app. simpl. rewrite Hv.
    split; [reflexivity | ]. split; [exact Hpath | ].
    split; [reflexivity | ].
    split; [exists []; rewrite app_nil_r; reflexivity | exists []; reflexivity].
  - simpl. rewrite !map_app. simpl. rewrite Hv.
    split; [reflexivity | ]. split; [exact Hpath | ].
    split; [reflexivity | ].
    split; [exists []; rewrite app_nil_r; reflexivity | exists []; reflexivity].
  - cbv zeta.
    destruct (0 <? Z.of_nat (List.length _)); simpl;
      rewrite <- app_assoc; simpl; rewrite !map_app; simpl; rewrite Hv;
      (split; [reflexivity | ]); (split; [exact Hpath | ]);
      (split; [reflexivity | ]);
      (split; [exists [a']; reflexivity | exists []; reflexivity]).
Qed.

Lemma drive_keeps_steps (fuel : nat) :
  forall (f f' : FSReplication) (w w' : World W) (st : FSReplicationState),
    drive ep fuel f w = Ok (st, f', w') ->
    map step_versions (fsr_steps f') = map step_versions (fsr_steps f) /\
    Path (fsr_fs f') = Path (fsr_fs f) /\
    fsr_permanentError f' = fsr_permanentError f /\
    (exists done, fsr_completed f' = fsr_completed f ++ done) /\
    (exists taken, fsr_pending f = taken ++ fsr_pending f').
Proof.
  assert (Hsame : forall f : FSReplication,
            map step_versions (fsr_steps f) = map step_versions (fsr_steps f) /\
            Path (fsr_fs f) = Path (fsr_fs f) /\
            fsr_permanentError f = fsr_permanentError f /\
            (exists done, fsr_completed f = fsr_completed f ++ done) /\
            (exists taken, fsr_pending f = taken ++ fsr_pending f)).
  { intros f. repeat split.
    - exists []. rewrite app_nil_r. reflexivity.
    - exists []. reflexivity. }
  induction fuel as [ | n IH]; intros f f' w w' st H; simpl in H.
  - destruct (Z.land (fsr_state f) drive_mask =? 0); [discriminate | ].
    injection H as _ <- _. apply Hsame.
  - destruct (Z.land (fsr_state f) drive_mask =? 0).
    + destruct (doDrive ep f w) as [[[s1 f1] w1] | | ] eqn:Ed;
        try discriminate.
      simpl in H.
      destruct (doDrive_keeps_steps f f1 w w1 s1 Ed)
        as (A1 & A2 & A3 & (d1 & A4) & (t1 & A5)).
      destruct (IH f1 f' w1 w' st H)
        as (B1 & B2 & B3 & (d2 & B4) & (t2 & B5)).
      split; [congruence | ]. split; [congruence | ]. split; [congruence | ].
      split.
      * exists (d1 ++ d2). rewrite B4, A4, app_assoc. reflexivity.
      * exists (t1 ++ t2). rewrite A5, B5, app_assoc. reflexivity.
    + injection H as _ <- _. apply Hsame.
Qed.

(** [drive] keeps the plan of a filesystem.  The steps - completed, then
    active, then pending - name the same versions in the same order before
    and after; [completed] only grows at its end and [pending] only loses
    steps from its head.  The filesystem's path stays, and [permanentError]
    is never written (a failed step's error is on the step). *)
Theorem drive_keeps_the_plan :
  forall (fuel : nat) (f f' : FSReplication) (w w' : World W)
         (st : FSReplicationState),
    drive ep fuel f w = Ok (st, f', w') ->
    map step_versions (fsr_steps f') = map step_versions (fsr_steps f) /\
    Path (fsr_fs f') = Path (fsr_fs f) /\
    fsr_permanentError f' = fsr_permanentError f /\
    (exists done, fsr_completed f' = fsr_completed f ++ done) /\
    (exists taken, fsr_pending f = taken ++ fsr_pending f').
Proof.
  exact drive_keeps_steps.
Qed.

Lemma FSReplicationStep_do_err (s : FSReplicationStep) (fs : Filesystem)
    (w w' : World W) (st : FSReplicationStepState) (s' : FSReplicationStep)
    (fs' : Filesystem) :
  FSReplicationStep_do ep s fs w = Ok (st, s', fs', w') ->
  (st = StepCompleted /\ step_err s' = None) \/
  (exists e, step_err s' = Some e /\ st = fst (updateStateError s e)).
Proof.
  unfold FSReplicationStep_do.
  destruct (call_Send ep (mkSendReq (fs_set_ResumeToken "" fs) s) w)
    as [[[sres sstream] serr] w1].
  destruct serr as [e | ].
  - rewrite updateStateError_let. intros H. injection H as <- <- _ _.
    right. exists e. split; reflexivity.
  - destruct sstream as [stream | ].
    + destruct sres as [res | ]; [ | discriminate].
      destruct (call_Receive ep _ stream w1) as [[e | ] w2].
      * rewrite updateStateError_let. intros H. injection H as <- <- _ _.
        right. exists e. split; reflexivity.
      * simpl. intros H. injection H as <- <- _ _. left. split; reflexivity.
    + rewrite updateStateError_let. intros H. injection H as <- <- _ _.
      right. exists err_no_stream. split; reflexivity.
Qed.

(** How a run of [drive] that started in [FSQueued] or [FSActive] can end,
    when the step executions only return outcomes [allowed] admits. *)
Lemma drive_outcome (allowed : FSReplicationStepState -> bool) :
  (forall s fs w st s' fs' w',
     FSReplicationStep_do ep s fs w = Ok (st, s', fs', w') ->
     allowed st = true) ->
  forall (fuel : nat) (f f' : FSReplication) (w w' : World W)
         (st : FSReplicationState),
    fsr_state f = FSQueued \/ fsr_state f = FSActive ->
    drive ep fuel f w = Ok (st, f', w') ->
    st = fsr_state f' /\
    ((st = FSCompleted /\ fsr_pending f' = [] /\ fsr_active f' = None) \/
     (st = FSRetryWait /\ allowed StepRetry = true /\
      exists a e, fsr_active f' = Some a /\ step_state a = StepRetry /\
                  step_err a = Some e /\ transient_error e) \/
     (st = FSPermanentError /\ allowed StepPermanentError = true /\
      exists a e, fsr_active f' = Some a /\
                  step_state a = StepPermanentError /\
                  step_err a = Some e /\ ~ transient_error e)).
Proof.
  intros Hal. induction fuel as [ | n IH]; intros f f' w w' st Hst H.
  - simpl in H. destruct Hst as [E | E]; rewrite E in H; discriminate.
  - simpl in H. destruct Hst as [Hq | Ha].
    + rewrite Hq in H. simpl in H.
      destruct (fsr_active f) as [a | ] eqn:Ea.
      * rewrite (doDrive_Queued_active W Stream ep f a w Hq Ea) in H.
        simpl in H. refine (IH _ _ _ _ _ _ H); right; reflexivity.
      * destruct (fsr_pending f) as [ | p rest] eqn:Ep.
        -- rewrite (doDrive_Queued_empty W Stream ep f w Hq Ea Ep) in H.
           simpl in H.
           rewrite (drive_returns_at_once W Stream ep n
                      (fsr_set_state FSCompleted f) w) in H
             by (right; right; reflexivity).
           injection H as <- <- _. split; [reflexivity | ].
           left. simpl. auto.
        -- rewrite (doDrive_Queued_promote W Stream ep f p rest w Hq Ea Ep)
             in H.
           simpl in H. refine (IH _ _ _ _ _ _ H); right; reflexivity.
    + rewrite Ha in H. simpl in H.
      destruct (fsr_active f) as [a | ] eqn:Ea.
      2: { unfold doDrive in H. rewrite Ha, Ea in H. discriminate. }
      rewrite (doDrive_Active W Stream ep f a w Ha Ea) in H.
      destruct (FSReplicationStep_do ep a (fsr_fs f) w)
        as [[[[s1 a'] fs'] w1] | | ] eqn:Ed; try discriminate.
      simpl in H.
      pose proof (Hal _ _ _ _ _ _ _ Ed) as Hallowed.
      destruct (FSReplicationStep_do_facts W Stream ep a (fsr_fs f) w _ _ _ _ Ed)
        as (NP & Hss & _).
      pose proof (FSReplicationStep_do_err a (fsr_fs f) w w1 s1 a' fs' Ed)
        as Herr.
      pose proof (updateStateError_transient a) as Htr.
      destruct s1.
      * contradiction NP; reflexivity.
      * rewrite (drive_returns_at_once W Stream ep n
                   (doDrive_commit f StepRetry a' fs') w1) in H
          by (left; reflexivity).
        injection H as <- <- _. split; [reflexivity | ].
        right. left. split; [reflexivity | ]. split; [exact Hallowed | ].
        destruct Herr as [[Hc _] | (e & He & Hcl)]; [discriminate Hc | ].
        exists a', e. simpl. repeat split; auto.
        apply (proj1 (proj1 (Htr e))). symmetry; exact Hcl.
      * rewrite (drive_returns_at_once W Stream ep n
                   (doDrive_commit f StepPermanentError a' fs') w1) in H
          by (right; left; reflexivity).
        injection H as <- <- _. split; [reflexivity | ].
        right. right. split; [reflexivity | ]. split; [exact Hallowed | ].
        destruct Herr as [[Hc _] | (e & He & Hcl)]; [discriminate Hc | ].
        exists a', e. simpl. repeat split; auto.
        apply (proj1 (proj2 (Htr e))). symmetry; exact Hcl.
      * destruct (fsr_pending f) as [ | p rest] eqn:Ep.
        -- assert (Ec : doDrive_commit f StepCompleted a' fs' =
                        fsr_set_state FSCompleted
                          (fsr_set_queues (fsr_completed f ++ [a']) []
                             None (fsr_set_fs fs' f))).
           { unfold doDrive_commit. simpl. rewrite Ep. reflexivity. }
           rewrite Ec in H.
           rewrite drive_returns_at_once in H by (right; right; reflexivity).
           injection H as <- <- _. split; [reflexivity | ].
           left. simpl. auto.
        -- assert (Ec : fsr_state (doDrive_commit f StepCompleted a' fs') =
                        FSQueued).
           { unfold doDrive_commit. simpl. rewrite Ep. reflexivity. }
           refine (IH _ _ _ _ _ _ H); left; exact Ec.
Qed.

(** How [drive] can end for a filesystem that was [FSQueued] or [FSActive].
    In [FSCompleted] nothing is pending and nothing is active.  In
    [FSRetryWait] the step that failed is in [active], in state [StepRetry],
    and carries a transient error; in [FSPermanentError] it is in [active],
    in state [StepPermanentError], and carries an error that is not
    transient.  The steps still pending are left where they are. *)
Theorem drive_final_shape :
  forall (fuel : nat) (f f' : FSReplication) (w w' : World W)
         (st : FSReplicationState),
    fsr_state f = FSQueued \/ fsr_state f = FSActive ->
    drive ep fuel f w = Ok (st, f', w') ->
    st = fsr_state f' /\
    ((st = FSCompleted /\ fsr_pending f' = [] /\ fsr_active f' = None) \/
     (st = FSRetryWait /\
      exists a e, fsr_active f' = Some a /\ step_state a = StepRetry /\
                  step_err a = Some e /\ transient_error e) \/
     (st = FSPermanentError /\
      exists a e, fsr_active f' = Some a /\
                  step_state a = StepPermanentError /\
                  step_err a = Some e /\ ~ transient_error e)).
Proof.
  intros fuel f f' w w' st Hst H.
  destruct (drive_outcome (fun _ => true) (fun _ _ _ _ _ _ _ _ => eq_refl)
              fuel f f' w w' st Hst H) as [E [C | [(R & _ & X) | (P & _ & X)]]];
    split; auto.
Qed.

(** When every step execution completes, [drive] completes the filesystem:
    from [FSQueued] or [FSActive] it returns [FSCompleted] within the
    budget, with nothing pending, nothing active, and every planned step in
    [completed] in the planned order. *)
Theorem drive_completes_every_step :
  steps_end_in ep only_completed ->
  forall (f : FSReplication) (w : World W) (fuel : nat),
    fsr_wf f ->
    fsr_state f = FSQueued \/ fsr_state f = FSActive ->
    (drive_budget f <= fuel)%nat ->
    exists f' w',
      drive ep fuel f w = Ok (FSCompleted, f', w') /\
      fsr_state f' = FSCompleted /\
      fsr_pending f' = [] /\ fsr_active f' = None /\
      map step_versions (fsr_completed f') =
      map step_versions (fsr_steps f).
Proof.
  intros Hall f w fuel Hwf Hst Hfuel.
  assert (Hret : forall s fs w0, exists out,
            FSReplicationStep_do ep s fs w0 = Ok out).
  { intros s fs w0. destruct (Hall s fs w0) as (st & s' & fs' & w' & E & _).
    eexists; exact E. }
  assert (Honly : forall s fs w0 st s' fs' w',
            FSReplicationStep_do ep s fs w0 = Ok (st, s', fs', w') ->
            only_completed st = true).
  { intros s fs w0 st s' fs' w' E.
    destruct (Hall s fs w0) as (st2 & s2 & fs2 & w2 & E2 & A).
    rewrite E in E2. injection E2 as -> _ _ _. exact A. }
  assert (Hm : (drive_measure f <= fuel)%nat).
  { unfold drive_budget in Hfuel. unfold drive_measure.
    destruct (fsr_state f =? FSQueued); [ | lia].
    destruct (fsr_active f); lia. }
  destruct (drive_enough_fuel W Stream ep Hret fuel f w Hwf Hm)
    as (f' & w' & E & _).
  destruct (drive_outcome only_completed Honly fuel f f' w w' _ Hst E)
    as [_ [(C & Hp & Ha) | [(_ & F & _) | (_ & F & _)]]]; try discriminate F.
  exists f', w'. rewrite C in E. split; [exact E | ].
  split; [exact C | ]. split; [exact Hp | ]. split; [exact Ha | ].
  destruct (drive_keeps_steps fuel f f' w w' _ E) as (Hs & _).
  unfold fsr_steps at 1 in Hs. rewrite Hp, Ha in Hs. simpl in Hs.
  rewrite app_nil_r in Hs. exact Hs.
Qed.

End FurtherPerFilesystem.

(** ** More on the overall machine *)

Section FurtherOverall.

Variables W Stream : Type.
Variable ep : EndpointPair W Stream.
Variable IncrementalPath :
  list FilesystemVersion -> list FilesystemVersion ->
  option (list FilesystemVersion) * option error.
Variable resolveConflict : error -> option (list FilesystemVersion) * string.
Variable sort_Slice :
  (replicationQueueItem -> replicationQueueItem -> Res bool) ->
  list replicationQueueItem -> Res (list replicationQueueItem).

Local Notation "'iteration'" :=
  (Drive_iteration ep IncrementalPath resolveConflict sort_Slice).
Local Notation "'loop'" :=
  (Drive_loop ep IncrementalPath resolveConflict sort_Slice).
Local Notation "'prefix'" :=
  (Drive_prefix ep IncrementalPath resolveConflict sort_Slice).

(** A sender without filesystems: [Drive] plans nothing, finds nothing to
    work on and returns with the replication [Completed], after the two
    [ListFilesystems] calls and no other - provided no item is active when
    the run starts, since planning never clears [active]. *)
Theorem Drive_with_nothing_to_send :
  forall (inner fuel : nat) (ctx : Context) (retryNow : Chan)
         (r : Replication) (w w1 w2 : World W) (rfss : list Filesystem),
    call_Sender_ListFilesystems ep w = (inl [], w1) ->
    call_Receiver_ListFilesystems ep w1 = (inl rfss, w2) ->
    r_active r = None ->
    (2 <= fuel)%nat ->
    exists r',
      Drive ep IncrementalPath resolveConflict sort_Slice
        inner fuel ctx retryNow r w = Ok (r', w2) /\
      r_state r' = Completed /\
      r_pending r' = [] /\ r_completed r' = [] /\ r_active r' = None /\
      r_planningError r' = None /\
      w_calls w2 =
      w_calls w ++ [CallSenderListFilesystems; CallReceiverListFilesystems].
Proof.
  intros inner fuel ctx retryNow r w w1 w2 rfss Hs Hr Ha Hfuel.
  destruct fuel as [ | [ | n]]; try lia.
  eexists. split.
  - unfold Drive. simpl. unfold Drive_iteration. simpl.
    unfold rsfPlanning. rewrite Hs, Hr. simpl.
    unfold Drive_iteration. simpl.
    unfold rsfWorking, rsfWorking_select. simpl. rewrite Ha. simpl.
    destruct n; reflexivity.
  - simpl. repeat split; auto.
    unfold call_Sender_ListFilesystems, logged in Hs.
    unfold call_Receiver_ListFilesystems, logged in Hr.
    destruct (Sender_ListFilesystems ep (w_ep w)) as [v e].
    injection Hs as _ <-.
    destruct (Receiver_ListFilesystems ep _) as [v' e'].
    injection Hr as _ <-. simpl. rewrite <- app_assoc. reflexivity.
Qed.

Lemma select_ctx_timer_cases (ctx : Context) (now d : Z) :
  0 < d ->
  (exists t e, ctx_done ctx = Some (t, e) /\ t <= now + d /\
               select_ctx_timer ctx now d = WakeCtxDone (Z.max now t) e) \/
  select_ctx_timer ctx now d = WakeTimer (now + d).
Proof.
  intros Hd. unfold select_ctx_timer.
  destruct (ctx_done ctx) as [[t e] | ]; [ | right; reflexivity].
  destruct (Z.ltb_spec t (now + d)).
  - left. exists t, e. split; [reflexivity | ]. split; [lia | reflexivity].
  - destruct (Z.eqb_spec t (now + d)); [ | right; reflexivity].
    destruct (selectPick ctx); [ | right; reflexivity].
    left. exists t, e. split; [reflexivity | ]. split; [lia | ].
    rewrite Z.max_r by lia. reflexivity.
Qed.

(** The two waits.  [rsfPlanningError] and [rsfWorkingWait] never panic,
    make no endpoint call and leave the queues, the active item and
    [planningError] alone.  Each records [sleepUntil] ten seconds after it
    began and ends no later than that, either in [ContextDone] - only when
    the context is done, with the context's error recorded and nil as next
    state function - or, for [rsfPlanningError], back in [Planning] and, for
    [rsfWorkingWait], back in [Working], with [contextError] untouched. *)
Theorem waits_outcomes :
  forall (inner : nat) (ctx : Context) (retryNow : Chan)
         (h : replicationStateFunc) (r : Replication) (w : World W),
    h = fn_rsfPlanningError \/ h = fn_rsfWorkingWait ->
    exists s r' w',
      iteration inner ctx retryNow h r w = Ok (s, r', w') /\
      r_sleepUntil r' = w_now w + 10 * time_Second /\
      w_now w <= w_now w' <= r_sleepUntil r' /\
      w_calls w' = w_calls w /\ w_ep w' = w_ep w /\
      r_pending r' = r_pending r /\ r_completed r' = r_completed r /\
      r_active r' = r_active r /\ r_planningError r' = r_planningError r /\
      ((s = None /\ r_state r' = ContextDone /\
        exists t e, ctx_done ctx = Some (t, e) /\
                    t <= w_now w + 10 * time_Second /\
                    r_contextError r' = Some e) \/
       (r_contextError r' = r_contextError r /\
        w_now w' = w_now w + 10 * time_Second /\
        ((h = fn_rsfPlanningError /\ s = Some fn_rsfPlanning /\
          r_state r' = Planning) \/
         (h = fn_rsfWorkingWait /\ s = Some fn_rsfWorking /\
          r_state r' = Working)))).
Proof.
  intros inner ctx retryNow h r w Hh.
  unfold Drive_iteration, run_rsf.
  assert (T : 0 < 10 * time_Second) by reflexivity.
  destruct (select_ctx_timer_cases ctx (w_now w) (10 * time_Second) T)
    as [(t & e & Ec & Ht & Es) | Es];
    destruct Hh as [-> | ->]; unfold rsfPlanningError, rsfWorkingWait;
    rewrite Es; do 3 eexists; (split; [reflexivity | ]);
    cbn [r_sleepUntil r_set_state r_set_contextError r_set_sleepUntil
         r_pending r_completed r_active r_planningError r_contextError
         r_state w_now w_calls w_ep at_time];
    (split; [reflexivity | ]); (split; [lia | ]);
    (split; [reflexivity | ]); (split; [reflexivity | ]);
    (split; [reflexivity | ]); (split; [reflexivity | ]);
    (split; [reflexivity | ]); (split; [reflexivity | ]).
  - left. split; [reflexivity | ]. split; [reflexivity | ].
    exists t, e. auto.
  - left. split; [reflexivity | ]. split; [reflexivity | ].
    exists t, e. auto.
  - right. split; [reflexivity | ]. split; [reflexivity | ].
    left. auto.
  - right. split; [reflexivity | ]. split; [reflexivity | ].
    right. auto.
Qed.

Lemma rsfWorkingWait_timer (ctx : Context) (r : Replication) (w : World W) :
  ctx_done ctx = None ->
  rsfWorkingWait ctx r w =
  Ok (Some fn_rsfWorking,
      r_set_state Working
        (r_set_sleepUntil (w_now w + 10 * time_Second) r),
      at_time (w_now w + 10 * time_Second) w).
Proof.
  intros Hc. unfold rsfWorkingWait, select_ctx_timer. rewrite Hc. reflexivity.
Qed.

(** The state the machine keeps coming back to once its active item waits
    for a retry. *)
Lemma stuck_pair (inner : nat) (ctx : Context) (retryNow : Chan)
    (a : replicationQueueItem) :
  ctx_done ctx = None -> fsr_state (fsr a) = FSRetryWait ->
  forall (r : Replication) (w : World W),
    r_state r = Working -> r_active r = Some a ->
    exists r2,
      prefix inner 2 ctx retryNow (Some fn_rsfWorking) r w =
      Ok (Some fn_rsfWorking, r2, at_time (w_now w + 10 * time_Second) w) /\
      r_state r2 = Working /\ r_active r2 = Some a /\
      r_pending r2 = r_pending r /\ r_completed r2 = r_completed r /\
      iteration inner ctx retryNow fn_rsfWorking r w =
      Ok (Some fn_rsfWorkingWait, r_set_state WorkingWait r, w) /\
      iteration inner ctx retryNow fn_rsfWorkingWait
        (r_set_state WorkingWait r) w =
      Ok (Some fn_rsfWorking, r2, at_time (w_now w + 10 * time_Second) w).
Proof.
  intros Hc Hr r w Hs Ha.
  assert (E1 : iteration inner ctx retryNow fn_rsfWorking r w =
               Ok (Some fn_rsfWorkingWait, r_set_state WorkingWait r, w)).
  { unfold Drive_iteration, run_rsf.
    eapply rsfWorking_leaves_RetryWait_item;
      [exact Ha | exact Hr | rewrite Hs; reflexivity]. }
  assert (E2 : iteration inner ctx retryNow fn_rsfWorkingWait
                 (r_set_state WorkingWait r) w =
               Ok (Some fn_rsfWorking,
                   r_set_state Working
                     (r_set_sleepUntil (w_now w + 10 * time_Second)
                        (r_set_state WorkingWait r)),
                   at_time (w_now w + 10 * time_Second) w)).
  { unfold Drive_iteration, run_rsf. apply rsfWorkingWait_timer. exact Hc. }
  eexists. split.
  - cbn [Drive_prefix]. rewrite E1. cbn [bindR]. rewrite E2. reflexivity.
  - simpl. repeat split; auto.
Qed.

(** Once the active item is in [FSRetryWait] it is never retried.  With a
    context that is never done the machine goes from [Working] to
    [WorkingWait] and back every ten seconds: after [2 * n] iterations it is
    in [Working] again, [n] times ten seconds later, with the same active
    item, the same [pending] and [completed], and not one endpoint call
    made; so the loop of [Drive] never ends, the step is never executed
    again and the pending filesystems are never picked. *)
Theorem RetryWait_item_is_never_retried :
  forall (inner : nat) (ctx : Context) (retryNow : Chan)
         (a : replicationQueueItem),
    ctx_done ctx = None ->
    fsr_state (fsr a) = FSRetryWait ->
    forall (r : Replication) (w : World W),
      r_state r = Working -> r_active r = Some a ->
      (forall n : nat,
         exists r',
           prefix inner (2 * n) ctx retryNow (Some fn_rsfWorking) r w =
           Ok (Some fn_rsfWorking, r',
               at_time (w_now w + Z.of_nat n * (10 * time_Second)) w) /\
           r_state r' = Working /\ r_active r' = Some a /\
           r_pending r' = r_pending r /\ r_completed r' = r_completed r) /\
      (forall fuel : nat,
         loop inner fuel ctx retryNow (Some fn_rsfWorking) r w = OutOfFuel).
Proof.
  intros inner ctx retryNow a Hc Hr r w Hs Ha. split.
  - intros n. revert r w Hs Ha.
    induction n as [ | n IH]; intros r w Hs Ha.
    + exists r. simpl. split; [ | auto].
      replace (w_now w + 0) with (w_now w) by lia.
      destruct w; reflexivity.
    + destruct (stuck_pair inner ctx retryNow a Hc Hr r w Hs Ha)
        as (r2 & _ & S2 & A2 & P2 & C2 & E1 & E2).
      destruct (IH r2 (at_time (w_now w + 10 * time_Second) w) S2 A2)
        as (r' & E & S' & A' & P' & C').
      exists r'. split; [ | repeat split; congruence].
      replace (2 * S n)%nat with (S (S (2 * n))) by lia.
      cbn [Drive_prefix]. rewrite E1. cbn [bindR]. rewrite E2. cbn [bindR].
      rewrite E. f_equal. f_equal. unfold at_time. simpl.
      f_equal. lia.
  - intros fuel. revert r w Hs Ha.
    induction fuel as [fuel IH] using lt_wf_ind. intros r w Hs Ha.
    destruct (stuck_pair inner ctx retryNow a Hc Hr r w Hs Ha)
      as (r2 & _ & S2 & A2 & _ & _ & E1 & E2).
    destruct fuel as [ | [ | n]]; [reflexivity | | ].
    + cbn [Drive_loop]. rewrite E1. reflexivity.
    + cbn [Drive_loop]. rewrite E1. cbn [bindR]. rewrite E2. cbn [bindR].
      apply IH; [lia | exact S2 | exact A2].
Qed.

Lemma rsfWorking_account_items (fsState : FSReplicationState)
    (a a0 : replicationQueueItem) (r r' : Replication) :
  r_active r = Some a0 -> item_path a = item_path a0 ->
  rsfWorking_account fsState a r = Ok r' ->
  Permutation (map item_path (r_items r)) (map item_path (r_items r')) /\
  r_state r' = r_state r.
Proof.
  intros Ha Hp. unfold rsfWorking_account, r_items. rewrite Ha.
  unfold item_path in *.
  destruct (negb (Z.land fsState FSQueued =? 0)).
  { intros H. injection H as <-. simpl. rewrite !map_app. simpl.
    rewrite Hp. split; [apply Permutation_refl | auto]. }
  destruct (negb (Z.land fsState FSRetryWait =? 0)).
  { intros H. injection H as <-. simpl. rewrite !map_app. simpl.
    rewrite Hp. split; [apply Permutation_refl | auto]. }
  destruct (negb (Z.land fsState (Z.lor FSPermanentError FSCompleted) =? 0));
    [ | discriminate].
  intros H. injection H as <-. simpl. rewrite !map_app. simpl.
  rewrite Hp. split; [ | reflexivity].
  apply Permutation_app_head. apply Permutation_cons_append.
Qed.

Lemma select_head_of_sorted :
  sort_Slice_contract sort_Slice ->
  forall (r : Replication) (x : replicationQueueItem)
         (rest : list replicationQueueItem),
    r_active r = None -> r_pending r = x :: rest ->
    Forall schedulable (r_pending r) ->
    exists hd tl,
      rsfWorking_select sort_Slice r =
      Ok (Some hd, r_set_queues tl (r_completed r) (Some hd) r) /\
      Permutation (r_pending r) (hd :: tl).
Proof.
  intros Hsort r x rest Hact Ep Hsch.
  unfold rsfWorking_select. rewrite Hact, Ep.
  rewrite Ep in Hsch. rewrite Forall_forall in Hsch.
  destruct (Hsort pending_less (x :: rest)) as (l' & Hs & Hperm & _).
  - intros a b Ia Ib. eexists. apply pending_less_key; auto.
  - intros a Ia. rewrite pending_less_key by auto.
    f_equal. apply key_lt_false. lia.
  - intros a b c Ia Ib Ic. rewrite !pending_less_key by auto.
    intros H1 H2. injection H1 as H1. injection H2 as H2. f_equal.
    rewrite key_lt_true in *. lia.
  - intros a b c Ia Ib Ic. rewrite !pending_less_key by auto.
    intros H1 H2. injection H1 as H1. injection H2 as H2. f_equal.
    rewrite key_lt_false in *. lia.
  - rewrite Hs. simpl. destruct l' as [ | hd tl].
    + apply Permutation_sym, Permutation_nil in Hperm. discriminate.
    + exists hd, tl. split; [reflexivity | exact Hperm].
Qed.

(** [rsfWorking] never loses or duplicates a queue item: the items in
    [pending], [active] and [completed] taken together are for the same
    filesystem paths before and after, however the item moved between the
    three - given only that [sort.Slice] returns a permutation of its
    input. *)
Theorem rsfWorking_keeps_the_items :
  sort_Slice_permutes sort_Slice ->
  forall (inner : nat) (ctx : Context) (r r' : Replication)
         (w w' : World W) (s : option replicationStateFunc),
    rsfWorking ep sort_Slice inner ctx r w = Ok (s, r', w') ->
    Permutation (map item_path (r_items r)) (map item_path (r_items r')) /\
    List.length (r_items r') = List.length (r_items r).
Proof.
  intros Hperm inner ctx r r' w w' s H.
  assert (Hlen : Permutation (map item_path (r_items r))
                   (map item_path (r_items r')) ->
                 Permutation (map item_path (r_items r))
                   (map item_path (r_items r')) /\
                 List.length (r_items r') = List.length (r_items r)).
  { intros P. split; [exact P | ].
    apply Permutation_length in P. rewrite !length_map in P. auto. }
  apply Hlen. clear Hlen.
  unfold rsfWorking in H.
  destruct (rsfWorking_select sort_Slice r) as [[active r1] | | ] eqn:Es;
    try discriminate.
  simpl in H.
  assert (Hsel : Permutation (map item_path (r_items r))
                   (map item_path (r_items r1)) /\
                 (forall a, active = Some a -> r_active r1 = Some a)).
  { unfold rsfWorking_select in Es.
    destruct (r_active r) as [a | ] eqn:Ea.
    - injection Es as <- <-. split; [apply Permutation_refl | ].
      intros a0 E. congruence.
    - destruct (r_pending r) as [ | x rest] eqn:Ep.
      + injection Es as <- <-. unfold r_items. simpl. rewrite Ea, Ep.
        split; [apply Permutation_refl | discriminate].
      + destruct (sort_Slice pending_less (x :: rest)) as [sorted | | ] eqn:El;
          try discriminate.
        simpl in Es. destruct sorted as [ | hd tl]; [discriminate | ].
        injection Es as <- <-. split; [ | intros a0 E; exact E].
        unfold r_items. simpl. rewrite Ea, Ep.
        apply Permutation_map. simpl.
        apply Permutation_trans with ((hd :: tl) ++ r_completed r).
        * change (Permutation ((x :: rest) ++ r_completed r)
                    ((hd :: tl) ++ r_completed r)).
          apply Permutation_app_tail. apply (Hperm _ _ _ El).
        * simpl. apply Permutation_middle. }
  destruct Hsel as [P1 Hact].
  destruct (rsf (r_state r1)) as [rsfNext | | ]; try discriminate.
  simpl in H. destruct active as [a | ].
  2: { injection H as _ <- _. exact P1. }
  specialize (Hact a eq_refl).
  destruct (fsr_state (fsr a) =? FSRetryWait).
  { unfold next_of in H.
    destruct (rsf (r_state (r_set_state WorkingWait r1))); try discriminate.
    simpl in H. injection H as _ <- _. exact P1. }
  destruct (negb (fsr_state (fsr a) =? FSQueued)); [discriminate | ].
  destruct (drive ep inner (fsr a) w) as [[[fsState f1] w1] | | ] eqn:Ed;
    try discriminate.
  simpl in H.
  destruct (rsfWorking_account fsState
              {| retriesSinceLastError := retriesSinceLastError a;
                 fsr := f1 |} r1) as [r2 | | ] eqn:Ea; try discriminate.
  simpl in H. unfold next_of in H.
  destruct (rsf (r_state r2)); try discriminate.
  simpl in H. injection H as _ <- _.
  destruct (drive_keeps_steps W Stream ep inner (fsr a) f1 w w1 fsState Ed)
    as (_ & Hpath & _).
  destruct (rsfWorking_account_items fsState
              {| retriesSinceLastError := retriesSinceLastError a;
                 fsr := f1 |} a r1 r2 Hact Hpath Ea)
    as [P2 _].
  exact (Permutation_trans P1 P2).
Qed.

Lemma ready_item_schedulable (inner : nat) (it : replicationQueueItem) :
  ready_item inner it -> schedulable it.
Proof.
  intros (Hq & Hp & _). left. split; assumption.
Qed.

Lemma Drive_loop_drains_pending :
  sort_Slice_contract sort_Slice ->
  steps_end_in ep no_retry ->
  forall (inner : nat) (ctx : Context) (retryNow : Chan) (n : nat)
         (r : Replication) (w : World W) (fuel : nat),
    r_state r = Working -> r_active r = None ->
    List.length (r_pending r) = n ->
    Forall (ready_item inner) (r_pending r) ->
    (n + 1 <= fuel)%nat ->
    exists r' w' done,
      loop inner fuel ctx retryNow (Some fn_rsfWorking) r w = Ok (r', w') /\
      r_state r' = Completed /\ r_pending r' = [] /\ r_active r' = None /\
      r_completed r' = r_completed r ++ done /\
      Permutation (map item_path done) (map item_path (r_pending r)) /\
      Forall (fun it => fsr_state (fsr it) = FSCompleted \/
                        fsr_state (fsr it) = FSPermanentError) done.
Proof.
  intros Hsort Hsteps inner ctx retryNow.
  assert (Hret : forall s fs w0, exists out,
            FSReplicationStep_do ep s fs w0 = Ok out).
  { intros s fs w0. destruct (Hsteps s fs w0) as (st & s' & fs' & w' & E & _).
    eexists; exact E. }
  assert (Hnr : forall s fs w0 st s' fs' w',
            FSReplicationStep_do ep s fs w0 = Ok (st, s', fs', w') ->
            no_retry st = true).
  { intros s fs w0 st s' fs' w' E.
    destruct (Hsteps s fs w0) as (st2 & s2 & fs2 & w2 & E2 & A).
    rewrite E in E2. injection E2 as -> _ _ _. exact A. }
  induction n as [ | n IH]; intros r w fuel Hs Ha Hlen Hready Hfuel.
  - destruct fuel as [ | k]; [lia | ].
    destruct (r_pending r) eqn:Ep; [ | discriminate Hlen].
    exists (r_set_state Completed r), w, []. split.
    + cbn [Drive_loop]. unfold Drive_iteration, run_rsf, rsfWorking,
        rsfWorking_select. rewrite Ha, Ep. simpl.
      destruct k; reflexivity.
    + simpl. rewrite app_nil_r. repeat split; auto.
  - destruct fuel as [ | k]; [lia | ].
    destruct (r_pending r) as [ | x rest] eqn:Ep; [discriminate Hlen | ].
    assert (Hsch : Forall schedulable (r_pending r)).
    { rewrite Ep.
      exact (Forall_impl _ (ready_item_schedulable inner) Hready). }
    destruct (select_head_of_sorted Hsort r x rest Ha Ep Hsch)
      as (hd & tl & Esel & Hperm).
    rewrite Ep in Hperm.
    assert (Hin : forall it, In it (hd :: tl) -> ready_item inner it).
    { intros it Hit. rewrite Forall_forall in Hready. apply Hready.
      apply (Permutation_in _ (Permutation_sym Hperm)). exact Hit. }
    destruct (Hin hd (or_introl eq_refl)) as (Hq & _ & Hb).
    assert (Hwf : fsr_wf (fsr hd)).
    { split; [left; exact Hq | rewrite Hq; discriminate]. }
    assert (Hm : (drive_measure (fsr hd) <= inner)%nat).
    { unfold drive_budget in Hb. unfold drive_measure.
      destruct (fsr_state (fsr hd) =? FSQueued); [ | lia].
      destruct (fsr_active (fsr hd)); lia. }
    destruct (drive_enough_fuel W Stream ep Hret inner (fsr hd) w Hwf Hm)
      as (f1 & w1 & Ed & _).
    destruct (drive_outcome W Stream ep no_retry Hnr inner (fsr hd) f1 w w1 _
                (or_introl Hq) Ed)
      as [_ Hout].
    assert (Hdone : fsr_state f1 = FSCompleted \/
                    fsr_state f1 = FSPermanentError).
    { destruct Hout as [(C & _) | [(_ & F & _) | (P & _)]];
        [left; exact C | discriminate F | right; exact P]. }
    destruct (drive_keeps_steps W Stream ep inner (fsr hd) f1 w w1 _ Ed)
      as (_ & Hpath & _).
    set (a' := {| retriesSinceLastError := retriesSinceLastError hd;
                  fsr := f1 |}).
    set (r1 := r_set_queues tl (r_completed r) (Some hd) r) in *.
    set (r2 := r_set_queues (r_pending r1) (r_completed r1 ++ [a']) None r1).
    assert (Eit : iteration inner ctx retryNow fn_rsfWorking r w =
                  Ok (Some fn_rsfWorking, r2, w1)).
    { unfold Drive_iteration, run_rsf, rsfWorking. rewrite Esel. simpl.
      rewrite Hs. simpl. rewrite Hq. simpl. rewrite Ed. simpl.
      unfold rsfWorking_account.
      destruct Hdone as [E | E]; rewrite E; simpl; unfold next_of; simpl;
        rewrite Hs; reflexivity. }
    assert (Hlen2 : List.length (r_pending r2) = n).
    { apply Permutation_length in Hperm. simpl in *. lia. }
    assert (Hready2 : Forall (ready_item inner) (r_pending r2)).
    { apply Forall_forall. intros it Hit. apply Hin. right. exact Hit. }
    destruct (IH r2 w1 k Hs eq_refl Hlen2 Hready2 ltac:(lia))
      as (r' & w' & done & El & S' & P' & A' & C' & Pd & Fd).
    exists r', w', (a' :: done). split.
    + cbn [Drive_loop]. rewrite Eit. cbn [bindR]. exact El.
    + split; [exact S' | ]. split; [exact P' | ]. split; [exact A' | ].
      split; [rewrite C'; simpl; rewrite <- app_assoc; reflexivity | ].
      split.
      * apply Permutation_trans with (map item_path (hd :: tl)).
        -- change (Permutation (item_path a' :: map item_path done)
                     (item_path hd :: map item_path tl)).
           replace (item_path a') with (item_path hd)
             by (symmetry; exact Hpath).
           apply perm_skip. exact Pd.
        -- apply Permutation_map. apply Permutation_sym. exact Hperm.
      * constructor; [exact Hdone | exact Fd].
Qed.

(** Without retries the overall machine finishes.  If no step execution
    ends in [StepRetry], then from [Working] with nothing active and
    [pending] holding queued items - each with a dated next step and within
    the budget of [drive] - the loop of [Drive] returns after one iteration
    per item and one more, in [Completed], with [pending] empty, nothing
    active, and every item that was pending appended to [completed] in
    [FSCompleted] or [FSPermanentError]. *)
Theorem Drive_loop_finishes_without_retries :
  sort_Slice_contract sort_Slice ->
  steps_end_in ep no_retry ->
  forall (inner : nat) (ctx : Context) (retryNow : Chan)
         (r : Replication) (w : World W) (fuel : nat),
    r_state r = Working -> r_active r = None ->
    Forall (ready_item inner) (r_pending r) ->
    (List.length (r_pending r) + 1 <= fuel)%nat ->
    exists r' w' done,
      loop inner fuel ctx retryNow (Some fn_rsfWorking) r w = Ok (r', w') /\
      r_state r' = Completed /\ r_pending r' = [] /\ r_active r' = None /\
      r_completed r' = r_completed r ++ done /\
      Permutation (map item_path done) (map item_path (r_pending r)) /\
      Forall (fun it => fsr_state (fsr it) = FSCompleted \/
                        fsr_state (fsr it) = FSPermanentError) done.
Proof.
  intros Hsort Hsteps inner ctx retryNow r w fuel Hs Ha Hready Hfuel.
  exact (Drive_loop_drains_pending Hsort Hsteps inner ctx retryNow
           (List.length (r_pending r)) r w fuel Hs Ha eq_refl Hready Hfuel).
Qed.

(** A whole run without retries.  When planning reaches [Working] and no
    step execution ends in [StepRetry], [Drive] returns - after planning,
    one iteration per planned filesystem and one more - with the
    replication [Completed]: nothing pending, nothing active, and in
    [completed] what planning filed there followed by every planned
    filesystem, each [FSCompleted] or [FSPermanentError].  (The first step
    of every planned filesystem must carry a creation time, or the
    scheduler's comparison panics; [inner] must cover [drive]'s budget; and
    no item may be active when the run starts.) *)
Theorem Drive_finishes_without_retries :
  sort_Slice_contract sort_Slice ->
  steps_end_in ep no_retry ->
  forall (inner fuel : nat) (ctx : Context) (retryNow : Chan)
         (r r1 : Replication) (w w1 : World W),
    r_active r = None ->
    rsfPlanning ep IncrementalPath resolveConflict ctx r w =
    Ok (Some fn_rsfWorking, r1, w1) ->
    Forall (fun it =>
              (exists p rest ct, fsr_pending (fsr it) = p :: rest /\
                                 CreationAsTime (step_to p) = Some ct) /\
              (drive_budget (fsr it) <= inner)%nat) (r_pending r1) ->
    (List.length (r_pending r1) + 2 <= fuel)%nat ->
    exists r' w' done,
      Drive ep IncrementalPath resolveConflict sort_Slice
        inner fuel ctx retryNow r w = Ok (r', w') /\
      r_state r' = Completed /\ r_pending r' = [] /\ r_active r' = None /\
      r_completed r' = r_completed r1 ++ done /\
      Permutation (map item_path done) (map item_path (r_pending r1)) /\
      Forall (fun it => fsr_state (fsr it) = FSCompleted \/
                        fsr_state (fsr it) = FSPermanentError)
             (r_completed r').
Proof.
  intros Hsort Hsteps inner fuel ctx retryNow r r1 w w1 Ha Hplan Hdated Hfuel.
  destruct (rsfPlanning_two_ways_out W Stream ep IncrementalPath
              resolveConflict ctx r w)
    as (s & r0 & w0 & E & Hact & _ & _ & Hway).
  rewrite Hplan in E. injection E as <- <- <-.
  destruct Hway as [(_ & Hs & _ & Hp & Hc) | (F & _)]; [ | discriminate F].
  assert (Hready : Forall (ready_item inner) (r_pending r1)).
  { rewrite Forall_forall in *. intros it Hit.
    destruct (Hdated it Hit) as [Hd Hb].
    destruct (Hp it Hit) as (_ & Hq & _).
    split; [exact Hq | ]. split; assumption. }
  destruct fuel as [ | k]; [lia | ].
  destruct (Drive_loop_drains_pending Hsort Hsteps inner ctx retryNow
              (List.length (r_pending r1)) r1 w1 k Hs
              (eq_trans Hact Ha) eq_refl Hready ltac:(lia))
    as (r' & w' & done & El & S' & P' & A' & C' & Pd & Fd).
  exists r', w', done. split.
  - unfold Drive. cbn [Drive_loop]. unfold Drive_iteration at 1.
    cbn [run_rsf]. rewrite Hplan. cbn [bindR]. exact El.
  - split; [exact S' | ]. split; [exact P' | ]. split; [exact A' | ].
    split; [exact C' | ]. split; [exact Pd | ].
    rewrite C'. apply Forall_app. split; [ | exact Fd].
    rewrite Forall_forall in *. intros it Hit.
    destruct (Hc it Hit) as (_ & _ & _ & _ & [[Hst _] | Hst]); auto.
Qed.

End FurtherOverall.

(** ** The further properties at concrete inputs *)

(** Endpoints that list [fsA] and [fsB] on the sender, nothing on the
    receiver, and whose [Send] and [Receive] always succeed. *)
Definition ep_succeeding : EndpointPair unit unit :=
  {| Sender_ListFilesystems := fun w => (inl [fsA; fsB], w);
     Sender_ListFilesystemVersions := fun w p => (versions_AB p, w);
     Sender_Send :=
       fun w _ => ((Some {| UsedResumeToken := false |}, Some tt, None), w);
     Receiver_ListFilesystems := fun w => (inl [], w);
     Receiver_ListFilesystemVersions := fun w p => (inl [], w);
     Receiver_Receive := fun w _ _ => (None, w);
     Stream_Close := fun w _ => w |}.

(** Endpoints whose sender has no filesystem. *)
Definition ep_empty : EndpointPair (list (option error)) unit :=
  scripted [] [fsA] versions_AB versions_AB.

Definition world_unit : World unit :=
  {| w_ep := tt; w_now := 0; w_calls := [] |}.

(** Two queued filesystems, nothing active. *)
Definition replication_two_queued : Replication :=
  {| r_state := Working;
     r_pending := [item_of 0 fsrB; item_of 0 fsrA];
     r_completed := []; r_active := None; r_planningError := None;
     r_contextError := None; r_sleepUntil := 0 |}.

(** The state of the run after the first attempt on [fsA] failed with
    [io.EOF]: [fsA] is active and waits for a retry, [fsB] is pending. *)
Definition replication_stuck : Replication :=
  {| r_state := Working;
     r_pending := [item_of 0 fsrB];
     r_completed := [];
     r_active := Some (item_of 1 fsrA_waiting);
     r_planningError := None; r_contextError := None; r_sleepUntil := 0 |}.

Lemma ep_succeeding_only_completes : steps_end_in ep_succeeding only_completed.
Proof.
  intros s fs w. do 4 eexists. split; reflexivity.
Qed.

Lemma ep_succeeding_never_retries : steps_end_in ep_succeeding no_retry.
Proof.
  intros s fs w. do 4 eexists. split; reflexivity.
Qed.

Lemma insert_by_permutes (A : Type) (less : A -> A -> Res bool) (x : A) :
  forall l l', insert_by less x l = Ok l' -> Permutation (x :: l) l'.
Proof.
  induction l as [ | y t IH]; intros l' H; simpl in H.
  - injection H as <-. apply Permutation_refl.
  - destruct (less x y) as [[ | ] | | ]; simpl in H; try discriminate.
    + injection H as <-. apply Permutation_refl.
    + destruct (insert_by less x t) as [t' | | ] eqn:E; try discriminate.
      simpl in H. injection H as <-.
      apply perm_trans with (y :: x :: t); [apply perm_swap | ].
      apply perm_skip. apply IH. reflexivity.
Qed.

Lemma sort_by_permutes : sort_Slice_permutes (@sort_by replicationQueueItem).
Proof.
  intros less l. induction l as [ | x t IH]; intros l' H; simpl in H.
  - injection H as <-. apply Permutation_refl.
  - destruct (sort_by less t) as [t' | | ] eqn:E; try discriminate.
    simpl in H. apply insert_by_permutes in H.
    apply perm_trans with (x :: t'); [ | exact H].
    apply perm_skip. apply IH. reflexivity.
Qed.

Lemma replication_two_queued_ready :
  Forall (ready_item 10) (r_pending replication_two_queued).
Proof.
  unfold replication_two_queued. simpl.
  apply Forall_cons.
  { split; [reflexivity | ]. split.
    - do 3 eexists. split; reflexivity.
    - vm_compute. repeat constructor. }
  apply Forall_cons; [ | apply Forall_nil].
  split; [reflexivity | ]. split.
  - do 3 eexists. split; reflexivity.
  - vm_compute. repeat constructor.
Qed.

(** One step execution on [fsA] whose [Send] fails: the log holds the one
    [Send]. *)
Lemma FSReplicationStep_do_call_sequence_witness :
  exists st s' fs' w',
    FSReplicationStep_do ep_AB
      {| step_state := StepPending; step_from := Some v1; step_to := v2;
         step_err := None |} fsA (world0 [Some io_EOF]) =
    Ok (st, s', fs', w') /\
    w_calls w' =
    [CallSend {| sr_Filesystem := "fsA"; sr_From := "@v1"; sr_To := "@v2";
                 sr_ResumeToken := "" |}] /\
    st <> StepCompleted.
Proof.
  pose proof (FSReplicationStep_do_call_sequence _ _ ep_AB
                {| step_state := StepPending; step_from := Some v1;
                   step_to := v2; step_err := None |}
                fsA (world0 [Some io_EOF])) as H.
  cbv zeta in H.
  change (Sender_Send ep_AB (w_ep (world0 [Some io_EOF]))
            (mkSendReq (fs_set_ResumeToken "" fsA)
               {| step_state := StepPending; step_from := Some v1;
                  step_to := v2; step_err := None |}))
    with (@None SendRes, @None unit, Some io_EOF, @nil (option error)) in H.
  cbv iota beta in H.
  destruct H as (st & s' & fs' & Hs & E).
  exists st, s', fs'. eexists.
  split; [exact E | ]. split; [reflexivity | exact Hs].
Defined.

(** [fsA] driven while its [Send] fails: one step, still the same. *)
Lemma drive_keeps_the_plan_witness :
  exists f' w',
    drive ep_AB 10 fsrA (world0 [Some io_EOF]) = Ok (FSRetryWait, f', w') /\
    map step_versions (fsr_steps f') = [(Some v1, v2)] /\
    Path (fsr_fs f') = "fsA" /\
    fsr_permanentError f' = None.
Proof.
  eassert (E : drive ep_AB 10 fsrA (world0 [Some io_EOF]) = Ok (_, _, _))
    by (vm_compute; reflexivity).
  destruct (drive_keeps_the_plan _ _ ep_AB _ _ _ _ _ _ E)
    as (Hs & Hp & He & _).
  do 2 eexists. split; [exact E | ].
  split; [exact Hs | ]. split; [exact Hp | exact He].
Defined.

Lemma drive_final_shape_witness :
  exists f' w' a,
    drive ep_AB 10 fsrA (world0 [Some io_EOF]) = Ok (FSRetryWait, f', w') /\
    fsr_active f' = Some a /\ step_state a = StepRetry /\
    step_err a = Some io_EOF.
Proof.
  eassert (E : drive ep_AB 10 fsrA (world0 [Some io_EOF]) = Ok (_, _, _))
    by (vm_compute; reflexivity).
  destruct (drive_final_shape _ _ ep_AB 10%nat fsrA _
              (world0 [Some io_EOF]) _ _ (or_introl eq_refl) E)
    as [_ [(C & _) | [(_ & a & e & Ha & Hs & He & _) | (P & _)]]].
  - discriminate C.
  - eexists. eexists. exists a. split; [exact E | ]. split; [exact Ha | ].
    split; [exact Hs | ].
    simpl in Ha. injection Ha as <-. reflexivity.
  - discriminate P.
Defined.

Lemma drive_completes_every_step_witness :
  exists f' w',
    drive ep_succeeding 10 fsrA world_unit = Ok (FSCompleted, f', w') /\
    fsr_pending f' = [] /\ fsr_active f' = None /\
    map step_versions (fsr_completed f') = [(Some v1, v2)].
Proof.
  destruct (drive_completes_every_step _ _ ep_succeeding
              ep_succeeding_only_completes fsrA world_unit 10%nat
              fsrA_wf (or_introl eq_refl))
    as (f' & w' & E & _ & Hp & Ha & Hs).
  - vm_compute. repeat constructor.
  - exists f', w'. split; [exact E | ]. split; [exact Hp | ].
    split; [exact Ha | exact Hs].
Defined.

Lemma Drive_with_nothing_to_send_witness :
  exists r' w',
    Drive ep_empty plain_IncrementalPath plain_resolveConflict
      (@sort_by replicationQueueItem) 10 5 ctx_never [] replication0
      (world0 []) = Ok (r', w') /\
    r_state r' = Completed /\ r_pending r' = [] /\ r_completed r' = [] /\
    w_calls w' = [CallSenderListFilesystems; CallReceiverListFilesystems].
Proof.
  destruct (Drive_with_nothing_to_send _ _ ep_empty plain_IncrementalPath
              plain_resolveConflict (@sort_by replicationQueueItem)
              10 5 ctx_never [] replication0 (world0 []) _ _ [fsA]
              eq_refl eq_refl eq_refl)
    as (r' & E & Hs & Hp & Hc & _ & _ & Hl).
  - repeat constructor.
  - exists r'. eexists. split; [exact E | ]. split; [exact Hs | ].
    split; [exact Hp | ]. split; [exact Hc | exact Hl].
Defined.

Lemma RetryWait_item_is_never_retried_witness :
  (exists r',
     Drive_prefix ep_AB plain_IncrementalPath plain_resolveConflict
       (@sort_by replicationQueueItem) 10 6 ctx_never []
       (Some fn_rsfWorking) replication_stuck (world0 []) =
     Ok (Some fn_rsfWorking, r', at_time (30 * time_Second) (world0 [])) /\
     r_active r' = Some (item_of 1 fsrA_waiting) /\
     r_pending r' = [item_of 0 fsrB]) /\
  Drive_loop ep_AB plain_IncrementalPath plain_resolveConflict
    (@sort_by replicationQueueItem) 10 1000 ctx_never []
    (Some fn_rsfWorking) replication_stuck (world0 []) = OutOfFuel.
Proof.
  destruct (RetryWait_item_is_never_retried _ _ ep_AB plain_IncrementalPath
              plain_resolveConflict (@sort_by replicationQueueItem)
              10 ctx_never [] (item_of 1 fsrA_waiting) eq_refl eq_refl
              replication_stuck (world0 []) eq_refl eq_refl)
    as [Hn Hl].
  split; [ | exact (Hl 1000%nat)].
  destruct (Hn 3%nat) as (r' & E & _ & Ha & Hp & _).
  exists r'. split; [exact E | ]. split; [exact Ha | exact Hp].
Defined.

Lemma rsfWorking_keeps_the_items_witness :
  exists s r' w',
    rsfWorking ep_succeeding (@sort_by replicationQueueItem) 10 ctx_never
      replication_two_queued world_unit = Ok (s, r', w') /\
    Permutation ["fsB"; "fsA"] (map item_path (r_items r')) /\
    List.length (r_items r') = 2%nat.
Proof.
  eassert (E : rsfWorking ep_succeeding (@sort_by replicationQueueItem) 10
                 ctx_never replication_two_queued world_unit = Ok (_, _, _))
    by (vm_compute; reflexivity).
  destruct (rsfWorking_keeps_the_items _ _ ep_succeeding
              (@sort_by replicationQueueItem) sort_by_permutes
              10 ctx_never _ _ _ _ _ E) as [P L].
  do 3 eexists. split; [exact E | ]. split; [exact P | exact L].
Defined.

Lemma Drive_loop_finishes_without_retries_witness :
  exists r' w' done,
    Drive_loop ep_succeeding plain_IncrementalPath plain_resolveConflict
      (@sort_by replicationQueueItem) 10 3 ctx_never []
      (Some fn_rsfWorking) replication_two_queued world_unit = Ok (r', w') /\
    r_state r' = Completed /\ r_pending r' = [] /\ r_active r' = None /\
    r_completed r' = done /\
    Permutation (map item_path done) ["fsB"; "fsA"].
Proof.
  destruct (Drive_loop_finishes_without_retries _ _ ep_succeeding
              plain_IncrementalPath plain_resolveConflict
              (@sort_by replicationQueueItem) sort_by_meets_contract
              ep_succeeding_never_retries 10 ctx_never []
              replication_two_queued world_unit 3
              eq_refl eq_refl replication_two_queued_ready)
    as (r' & w' & done & E & Hs & Hp & Ha & Hc & Pd & _).
  - repeat constructor.
  - exists r', w', done. split; [exact E | ]. split; [exact Hs | ].
    split; [exact Hp | ]. split; [exact Ha | ].
    split; [exact Hc | exact Pd].
Defined.

Lemma Drive_finishes_without_retries_witness :
  exists r' w',
    Drive ep_succeeding plain_IncrementalPath plain_resolveConflict
      (@sort_by replicationQueueItem) 10 4 ctx_never [] replication0
      world_unit = Ok (r', w') /\
    r_state r' = Completed /\ r_pending r' = [] /\ r_active r' = None /\
    Forall (fun it => fsr_state (fsr it) = FSCompleted \/
                      fsr_state (fsr it) = FSPermanentError)
           (r_completed r').
Proof.
  eassert (Ep : rsfPlanning ep_succeeding plain_IncrementalPath
                  plain_resolveConflict ctx_never replication0 world_unit =
                Ok (Some fn_rsfWorking, _, _)) by (vm_compute; reflexivity).
  destruct (Drive_finishes_without_retries _ _ ep_succeeding
              plain_IncrementalPath plain_resolveConflict
              (@sort_by replicationQueueItem) sort_by_meets_contract
              ep_succeeding_never_retries 10 4 ctx_never []
              replication0 _ world_unit _ eq_refl Ep)
    as (r' & w' & done & E & Hs & Hp & Ha & _ & _ & Hf).
  - apply Forall_cons.
    { split; [do 3 eexists; split; reflexivity | ].
      vm_compute. repeat constructor. }
    apply Forall_cons; [ | apply Forall_nil].
    split; [do 3 eexists; split; reflexivity | ].
    vm_compute. repeat constructor.
  - vm_compute. repeat constructor.
  - exists r', w'. split; [exact E | ]. split; [exact Hs | ].
    split; [exact Hp | ]. split; [exact Ha | exact Hf].
Defined.

Lemma waits_outcomes_witness :
  exists s r' w',
    Drive_iteration ep_AB plain_IncrementalPath plain_resolveConflict
      (@sort_by replicationQueueItem) 10 ctx_cancelled []
      fn_rsfPlanningError replication0 (world0 []) = Ok (s, r', w') /\
    r_sleepUntil r' = 10 * time_Second /\
    w_calls w' = [] /\ r_pending r' = [].
Proof.
  destruct (waits_outcomes _ _ ep_AB plain_IncrementalPath
              plain_resolveConflict (@sort_by replicationQueueItem)
              10 ctx_cancelled [] fn_rsfPlanningError replication0
              (world0 []) (or_introl eq_refl))
    as (s & r' & w' & E & Hsl & _ & Hc & _ & Hp & _).
  exists s, r', w'. split; [exact E | ]. split; [exact Hsl | ].
  split; [exact Hc | exact Hp].
Defined.

(** ** The retry counter along a run of [Drive]

    [retriesSinceLastError] belongs to the queue item; [drive] and
    [doDrive] never touch it, only the closing update of [rsfWorking]
    does.  [retry_counter_inv] holds of the queues between any two state
    functions of a run. *)

Section RetryCounter.

Variables W Stream : Type.
Variable ep : EndpointPair W Stream.
Variable IncrementalPath :
  list FilesystemVersion -> list FilesystemVersion ->
  option (list FilesystemVersion) * option error.
Variable resolveConflict : error -> option (list FilesystemVersion) * string.
Variable sort_Slice :
  (replicationQueueItem -> replicationQueueItem -> Res bool) ->
  list replicationQueueItem -> Res (list replicationQueueItem).
Hypothesis sort_permutes : sort_Slice_permutes sort_Slice.

Local Notation "'iteration'" :=
  (Drive_iteration ep IncrementalPath resolveConflict sort_Slice).
Local Notation "'prefix'" :=
  (Drive_prefix ep IncrementalPath resolveConflict sort_Slice).

Lemma retry_counter_inv_fields (r r' : Replication) :
  r_pending r' = r_pending r -> r_completed r' = r_completed r ->
  r_active r' = r_active r ->
  retry_counter_inv r -> retry_counter_inv r'.
Proof.
  unfold retry_counter_inv. intros -> -> ->. exact (fun H => H).
Qed.

Lemma next_of_result (r r' : Replication) (w w' : World W)
    (s : option replicationStateFunc) :
  next_of r w = Ok (s, r', w') -> r' = r /\ w' = w.
Proof.
  unfold next_of. destruct (rsf (r_state r)); simpl; try discriminate.
  intros H. injection H as _ <- <-. split; reflexivity.
Qed.

(** The update with which [rsfWorking] picks its item keeps the
    invariant, and an item it picks out of [pending] is queued with the
    counter at 0. *)
Lemma rsfWorking_select_counter (r r1 : Replication)
    (active : option replicationQueueItem) :
  retry_counter_inv r ->
  rsfWorking_select sort_Slice r = Ok (active, r1) ->
  retry_counter_inv r1 /\ r_completed r1 = r_completed r /\
  r_active r1 = active.
Proof.
  intros (Hp & Hc & Ha). unfold rsfWorking_select.
  destruct (r_active r) as [a | ] eqn:Ea.
  - intros H. injection H as <- <-.
    split; [ | split; [reflexivity | exact Ea]].
    unfold retry_counter_inv. rewrite Ea. auto.
  - destruct (r_pending r) as [ | p ps] eqn:Ep.
    + intros H. injection H as <- <-.
      split; [ | split; [reflexivity | exact Ea]].
      unfold retry_counter_inv. cbn [r_set_state r_pending r_completed r_active].
      rewrite Ep, Ea. auto.
    + destruct (sort_Slice pending_less (p :: ps)) as [sorted | | ] eqn:Es;
        simpl; try discriminate.
      destruct sorted as [ | hd tl]; [discriminate | ].
      intros H. injection H as <- <-.
      split; [ | split; reflexivity].
      pose proof (Permutation_Forall (sort_permutes _ _ _ Es) Hp) as Hs.
      inversion Hs as [ | x l [Hx _] Hl]; subst.
      unfold retry_counter_inv.
      cbn [r_set_queues r_pending r_completed r_active].
      auto.
Qed.

(** One call of [rsfWorking] on a replication that satisfies the
    invariant: the invariant holds again, and when an item is driven its
    counter was 0, is 1 when [drive] ended in [FSRetryWait], and 0 on the
    item filed under [completed] otherwise. *)
Lemma rsfWorking_counter (inner : nat) (ctx : Context)
    (r r' : Replication) (w w' : World W)
    (s' : option replicationStateFunc) :
  retry_counter_inv r ->
  rsfWorking ep sort_Slice inner ctx r w = Ok (s', r', w') ->
  retry_counter_inv r' /\
  forall (a : replicationQueueItem) (r1 : Replication),
    rsfWorking_select sort_Slice r = Ok (Some a, r1) ->
    fsr_state (fsr a) = FSQueued ->
    retriesSinceLastError a = 0 /\
    exists (st : FSReplicationState) (f' : FSReplication),
      drive ep inner (fsr a) w = Ok (st, f', w') /\
      fsr_state f' = st /\
      ((st = FSRetryWait /\
        r_active r' = Some {| retriesSinceLastError := 1; fsr := f' |} /\
        r_completed r' = r_completed r) \/
       ((st = FSCompleted \/ st = FSPermanentError) /\
        r_active r' = None /\
        r_completed r' =
        r_completed r ++ [{| retriesSinceLastError := 0; fsr := f' |}])).
Proof.
  intros Hinv. unfold rsfWorking.
  destruct (rsfWorking_select sort_Slice r) as [[active r1] | | ] eqn:Esel;
    [ | discriminate ..].
  destruct (rsfWorking_select_counter r r1 active Hinv Esel)
    as (Hinv1 & Hc1 & Ha1).
  cbn [bindR].
  destruct (rsf (r_state r1)) as [rsfNext | | ]; [ | discriminate ..].
  cbn [bindR].
  destruct active as [a | ].
  - destruct (fsr_state (fsr a) =? FSRetryWait) eqn:Erw.
    + intros H. apply next_of_result in H. destruct H as [-> _].
      split.
      * revert Hinv1. apply retry_counter_inv_fields; reflexivity.
      * intros a0 r0 E Hq. injection E as <- _.
        rewrite Hq in Erw. discriminate Erw.
    + destruct (fsr_state (fsr a) =? FSQueued) eqn:Eq; [ | discriminate].
      apply Z.eqb_eq in Eq.
      assert (H0 : retriesSinceLastError a = 0).
      { destruct Hinv1 as (_ & _ & Hact). rewrite Ha1 in Hact.
        destruct Hact as [H0 | [Hr _]]; [exact H0 | ].
        rewrite Hr in Eq. discriminate Eq. }
      cbn [negb].
      destruct (drive ep inner (fsr a) w) as [[[st f1] w1] | | ] eqn:Ed;
        [ | discriminate ..].
      cbn [bindR].
      assert (Hv : fsr_valid_state (fsr_state (fsr a))) by (left; exact Eq).
      destruct (drive_result_terminal _ _ ep inner (fsr a) f1 w w1 st Hv Ed)
        as [T Hst].
      rewrite H0.
      destruct Hinv1 as (Hp1 & Hcc1 & _).
      destruct T as [T | [T | T]]; rewrite T;
        unfold rsfWorking_account; simpl; intros H;
        apply next_of_result in H; destruct H as [-> ->].
      * split.
        -- unfold retry_counter_inv.
           cbn [r_set_queues r_pending r_completed r_active
                retriesSinceLastError fsr].
           split; [exact Hp1 | ]. split; [exact Hcc1 | ].
           right. split; [congruence | reflexivity].
        -- intros a0 r0 E Hq. injection E as <- _.
           split; [exact H0 | ].
           exists st, f1.
           split; [exact Ed | ]. split; [symmetry; exact Hst | ].
           left. split; [exact T | ].
           split; [reflexivity | exact Hc1].
      * split.
        -- unfold retry_counter_inv.
           cbn [r_set_queues r_pending r_completed r_active].
           split; [exact Hp1 | ]. split; [ | exact I].
           apply Forall_app. split; [exact Hcc1 | ].
           apply Forall_cons; [reflexivity | apply Forall_nil].
        -- intros a0 r0 E Hq. injection E as <- _.
           split; [exact H0 | ].
           exists st, f1.
           split; [exact Ed | ]. split; [symmetry; exact Hst | ].
           right. split; [right; exact T | ].
           split; [reflexivity | ].
           cbn [r_set_queues r_completed]. rewrite Hc1. reflexivity.
      * split.
        -- unfold retry_counter_inv.
           cbn [r_set_queues r_pending r_completed r_active].
           split; [exact Hp1 | ]. split; [ | exact I].
           apply Forall_app. split; [exact Hcc1 | ].
           apply Forall_cons; [reflexivity | apply Forall_nil].
        -- intros a0 r0 E Hq. injection E as <- _.
           split; [exact H0 | ].
           exists st, f1.
           split; [exact Ed | ]. split; [symmetry; exact Hst | ].
           right. split; [left; exact T | ].
           split; [reflexivity | ].
           cbn [r_set_queues r_completed]. rewrite Hc1. reflexivity.
  - intros H. injection H as _ <- _.
    split; [exact Hinv1 | ].
    intros a0 r0 E. discriminate E.
Qed.

(** The two waits change neither the queues nor the active item. *)
Lemma waits_keep_counter (ctx : Context) (r r' : Replication)
    (w w' : World W) (s' : option replicationStateFunc) :
  rsfPlanningError ctx r w = Ok (s', r', w') \/
  rsfWorkingWait ctx r w = Ok (s', r', w') ->
  retry_counter_inv r -> retry_counter_inv r'.
Proof.
  unfold rsfPlanningError, rsfWorkingWait.
  intros [H | H];
    destruct (select_ctx_timer ctx (w_now w) (10 * time_Second));
    apply next_of_result in H; destruct H as [-> _];
    apply retry_counter_inv_fields; reflexivity.
Qed.

(** Planning files fresh items, with the counter at 0, or leaves the
    queues as they are. *)
Lemma rsfPlanning_counter (ctx : Context) (r r' : Replication)
    (w w' : World W) (s' : option replicationStateFunc) :
  rsfPlanning ep IncrementalPath resolveConflict ctx r w = Ok (s', r', w') ->
  retry_counter_inv r -> retry_counter_inv r'.
Proof.
  intros H (Hp & Hc & Ha).
  destruct (rsfPlanning_two_ways_out _ _ ep IncrementalPath resolveConflict
              ctx r w) as (s0 & r0 & w0 & E & Hact & _ & _ & Hcase).
  rewrite E in H. injection H as -> -> ->.
  unfold retry_counter_inv. rewrite Hact.
  destruct Hcase as [(_ & _ & _ & Hpp & Hpc) | (_ & _ & _ & Ep & Ec)].
  - split; [ | split; [ | exact Ha]].
    + eapply Forall_impl; [ | exact Hpp].
      intros it (H0 & Hq & _). split; assumption.
    + eapply Forall_impl; [ | exact Hpc].
      intros it (H0 & _). exact H0.
  - rewrite Ep, Ec. auto.
Qed.

Lemma iteration_counter (inner : nat) (ctx : Context) (retryNow : Chan)
    (f : replicationStateFunc) (r r' : Replication) (w w' : World W)
    (s' : option replicationStateFunc) :
  iteration inner ctx retryNow f r w = Ok (s', r', w') ->
  retry_counter_inv r -> retry_counter_inv r'.
Proof.
  unfold Drive_iteration, run_rsf. destruct f; intros H Hinv.
  - exact (rsfPlanning_counter ctx r r' w w' s' H Hinv).
  - exact (waits_keep_counter ctx r r' w w' s' (or_introl H) Hinv).
  - exact (proj1 (rsfWorking_counter inner ctx r r' w w' s' Hinv H)).
  - exact (waits_keep_counter ctx r r' w w' s' (or_intror H) Hinv).
Qed.

Lemma prefix_counter (inner : nat) (ctx : Context) (retryNow : Chan) :
  forall (n : nat) (s s' : option replicationStateFunc)
         (r r' : Replication) (w w' : World W),
    prefix inner n ctx retryNow s r w = Ok (s', r', w') ->
    retry_counter_inv r -> retry_counter_inv r'.
Proof.
  induction n as [ | k IH]; intros s s' r r' w w' H Hinv.
  - cbn [Drive_prefix] in H. injection H as _ <- _. exact Hinv.
  - cbn [Drive_prefix] in H. destruct s as [f | ].
    + destruct (iteration inner ctx retryNow f r w)
        as [[[s1 r1] w1] | | ] eqn:Ei; [ | discriminate ..].
      cbn [bindR] in H.
      exact (IH s1 s' r1 r' w1 w' H
               (iteration_counter inner ctx retryNow f r r1 w w1 s1 Ei Hinv)).
    + injection H as _ <- _. exact Hinv.
Qed.

(** C1.  Take a run of [Drive] on a replication whose queues are empty and
    stop it between two state functions.  Then every item in [pending] and
    in [completed] has [retriesSinceLastError] at 0, and so has the active
    item unless its filesystem is in [FSRetryWait], where it is 1.  And
    when [rsfWorking] comes next and drives an item, the counter of that
    item is 0 when [drive] starts - so it is 0 after every transition that
    [drive] makes for a completed step, which leaves the counter alone -
    and when [drive] returns, the counter is 1 (incremented) if the
    filesystem has entered [FSRetryWait], and 0 on the item filed under
    [completed] if its last step completed or failed for good.  The one
    assumption is that [sort.Slice] returns a permutation of its input. *)
Theorem retry_counter_zero_after_completed_step :
  forall (inner n : nat) (ctx : Context) (retryNow : Chan)
         (r0 r : Replication) (w0 w : World W)
         (s : option replicationStateFunc),
    r_pending r0 = [] -> r_completed r0 = [] -> r_active r0 = None ->
    prefix inner n ctx retryNow (Some fn_rsfPlanning) r0 w0 = Ok (s, r, w) ->
    retry_counter_inv r /\
    forall (a : replicationQueueItem) (r1 r' : Replication) (w' : World W)
           (s' : option replicationStateFunc),
      s = Some fn_rsfWorking ->
      iteration inner ctx retryNow fn_rsfWorking r w = Ok (s', r', w') ->
      rsfWorking_select sort_Slice r = Ok (Some a, r1) ->
      fsr_state (fsr a) = FSQueued ->
      retriesSinceLastError a = 0 /\
      exists (st : FSReplicationState) (f' : FSReplication),
        drive ep inner (fsr a) w = Ok (st, f', w') /\
        fsr_state f' = st /\
        ((st = FSRetryWait /\
          r_active r' =
          Some {| retriesSinceLastError := retriesSinceLastError a + 1;
                  fsr := f' |} /\
          r_completed r' = r_completed r) \/
         ((st = FSCompleted \/ st = FSPermanentError) /\
          r_active r' = None /\
          r_completed r' =
          r_completed r ++ [{| retriesSinceLastError := 0; fsr := f' |}])).
Proof.
  intros inner n ctx retryNow r0 r w0 w s Hp Hc Ha Hrun.
  assert (Hinv0 : retry_counter_inv r0).
  { unfold retry_counter_inv. rewrite Hp, Hc, Ha. auto. }
  pose proof (prefix_counter inner ctx retryNow n _ _ _ _ _ _ Hrun Hinv0)
    as Hinv.
  split; [exact Hinv | ].
  intros a r1 r' w' s' _ Hit Hsel Hq.
  unfold Drive_iteration, run_rsf in Hit.
  destruct (rsfWorking_counter inner ctx r r' w w' s' Hinv Hit) as [_ Hd].
  destruct (Hd a r1 Hsel Hq) as (H0 & st & f' & Ed & Hst & Hcase).
  split; [exact H0 | ].
  exists st, f'. split; [exact Ed | ]. split; [exact Hst | ].
  rewrite H0. exact Hcase.
Qed.

End RetryCounter.

(** C1 on a run over [fsA] and [fsB] in which the step of [fsA] succeeds
    and the [Send] for [fsB] fails with [io.EOF].  After planning and one
    call of [rsfWorking], [fsA] is filed under [completed] with its step
    completed and the counter at 0; the next call of [rsfWorking] drives
    [fsB], whose counter is 0, and leaves it active in [FSRetryWait] with
    the counter at 1. *)
Lemma retry_counter_zero_after_completed_step_witness :
  exists (r r' : Replication) (w w' : World (list (option error)))
         (done next : replicationQueueItem),
    Drive_prefix ep_AB plain_IncrementalPath plain_resolveConflict
      (@sort_by replicationQueueItem) 10 2 ctx_never []
      (Some fn_rsfPlanning) replication0 (world0 [None; Some io_EOF]) =
    Ok (Some fn_rsfWorking, r, w) /\
    r_completed r = [done] /\
    List.map step_state (fsr_completed (fsr done)) = [StepCompleted] /\
    retriesSinceLastError done = 0 /\
    Drive_iteration ep_AB plain_IncrementalPath plain_resolveConflict
      (@sort_by replicationQueueItem) 10 ctx_never [] fn_rsfWorking r w =
    Ok (Some fn_rsfWorking, r', w') /\
    r_active r' = Some next /\
    fsr_state (fsr next) = FSRetryWait /\
    retriesSinceLastError next = 1.
Proof.
  eassert (Erun : Drive_prefix ep_AB plain_IncrementalPath
                    plain_resolveConflict (@sort_by replicationQueueItem)
                    10 2 ctx_never [] (Some fn_rsfPlanning) replication0
                    (world0 [None; Some io_EOF]) = Ok (_, _, _))
    by (vm_compute; reflexivity).
  destruct (retry_counter_zero_after_completed_step _ _ ep_AB
              plain_IncrementalPath plain_resolveConflict
              (@sort_by replicationQueueItem) sort_by_permutes
              10 2 ctx_never [] replication0 _ (world0 [None; Some io_EOF])
              _ _ eq_refl eq_refl eq_refl Erun)
    as [(_ & Hdone & _) Hnext].
  match type of Erun with
  | _ = Ok (_, ?r, ?w) =>
      eassert (Eit : Drive_iteration ep_AB plain_IncrementalPath
                       plain_resolveConflict (@sort_by replicationQueueItem)
                       10 ctx_never [] fn_rsfWorking r w = Ok (_, _, _))
        by (vm_compute; reflexivity);
      eassert (Esel : rsfWorking_select (@sort_by replicationQueueItem) r =
                      Ok (Some _, _)) by (vm_compute; reflexivity)
  end.
  destruct (Hnext _ _ _ _ _ eq_refl Eit Esel eq_refl)
    as (_ & st & f' & _ & Hst & [(Hrw & Hact & _) | ([Hk | Hk] & Hact & _)]);
    try discriminate Hact.
  inversion Hdone as [ | x l Hx _ Hxl]. 
  do 6 eexists.
  split; [exact Erun | ]. split; [reflexivity | ].
  split; [reflexivity | ]. split; [exact Hx | ].
  split; [exact Eit | ]. split; [exact Hact | ].
  split; [cbn [fsr]; rewrite Hst; exact Hrw | reflexivity].
Defined.
